(** * BusTub buffer pool: LRU replacer and buffer pool manager instance

    A shallow embedding of [src/buffer/lru_replacer.cpp] and
    [src/buffer/buffer_pool_manager_instance.cpp], and the properties of the
    specification checked against it.

    Conventions of the embedding.
    - [frame_id_t] and [page_id_t] are C++ 32-bit signed integers, modelled
      as [Z]; the one place where the source can leave that range, the page
      id counter, has its wrap-around written out ([to_int32]).
    - [std::unordered_map] is a [gmap]; [std::list] is a [list].
    - A [std::list] iterator stored in [lru_map_] is the address of a list
      node: the list is a list of (node, frame id) cells and a counter plays
      the allocator, so that every [push_front] gets an address never used
      before.
    - Behaviour the C++ standard leaves undefined (indexing [pages_] out of
      range, splicing a node that is not in the list, overflowing the signed
      pin count) and a failed [assert] are the result [None].
    - The latch only serialises the public operations; each operation is
      modelled as one atomic state transformer. *)

From Stdlib Require Import ZArith List Lia Bool.
From Stdlib Require Import Strings.Byte.
From stdpp Require Import base option gmap list fin_maps.
Local Open Scope Z_scope.

(** ** Machine integers *)

Definition INT32_MAX : Z := 2147483647.

(** Conversion of an integer to [uint32_t]. *)
Definition to_uint32 (z : Z) : Z := z mod 2 ^ 32.

(** Conversion of an integer to [int32_t] (two's complement). *)
Definition to_int32 (z : Z) : Z := (z + 2 ^ 31) mod 2 ^ 32 - 2 ^ 31.

(** ** The LRU replacer (lru_replacer.cpp) *)

Module LRU.

(** Address of a node of [lru_list_]; a list iterator is such an address. *)
Definition node := nat.

Record LRUReplacer := mkLRU {
  lru_list_ : list (node * Z);   (* std::list<frame_id_t>, front first *)
  lru_map_ : gmap Z node;        (* frame id -> iterator into lru_list_ *)
  capacity_ : nat;
  heap_next : node               (* next address the allocator hands out *)
}.

(** Modelled from the spec: the constructor [LRUReplacer(num_pages)] is
    declared in lru_replacer.h, which is not part of the sources at hand;
    the spec initialises the replacer with the given capacity and an empty
    evictable set. *)
Definition create (num_pages : nat) : LRUReplacer :=
  mkLRU [] ∅ num_pages 0%nat.

(** The frame ids in the list, front first: the evictable set in LRU order. *)
Definition frames (r : LRUReplacer) : list Z := map snd (lru_list_ r).

Definition pop_front {A} (l : list A) : option (list A) :=
  match l with [] => None | _ :: t => Some t end.

(** [extract n l] unlinks the node at address [n]. *)
Fixpoint extract (n : node) (l : list (node * Z))
  : option ((node * Z) * list (node * Z)) :=
  match l with
  | [] => None
  | c :: t =>
      if Nat.eqb (fst c) n then Some (c, t)
      else match extract n t with
           | Some (x, t') => Some (x, c :: t')
           | None => None
           end
  end.

(** [lst.splice(lst.begin(), lst, it)]: relink the node [it] in front of the
    first node. Undefined when [it] does not point into the list. *)
Definition splice_front (it : node) (l : list (node * Z))
  : option (list (node * Z)) :=
  match extract it l with
  | Some (x, rest) => Some (x :: rest)
  | None => None
  end.

(** [lst.erase(it)]. *)
Definition erase_node (it : node) (l : list (node * Z)) : list (node * Z) :=
  filter (λ c, fst c ≠ it) l.

Definition Victim (r : LRUReplacer) : option Z * LRUReplacer :=
  if bool_decide (lru_list_ r = []) || Nat.eqb (size (lru_map_ r)) 0 then
    (None, r)
  else
    match last (lru_list_ r) with
    | None => (None, r)
    | Some (_, victim_fid) =>
        (Some victim_fid,
         mkLRU (removelast (lru_list_ r)) (delete victim_fid (lru_map_ r))
               (capacity_ r) (heap_next r))
    end.

Definition Pin (frame_id : Z) (r : LRUReplacer) : option LRUReplacer :=
  match lru_map_ r !! frame_id with
  | None => Some r
  | Some pin_iterator =>
      match splice_front pin_iterator (lru_list_ r) with
      | None => None
      | Some l1 =>
          match pop_front l1 with
          | None => None
          | Some l2 =>
              Some (mkLRU l2 (delete frame_id (lru_map_ r))
                          (capacity_ r) (heap_next r))
          end
      end
  end.

Definition Unpin (frame_id : Z) (r : LRUReplacer) : LRUReplacer :=
  if bool_decide (is_Some (lru_map_ r !! frame_id))
     || Nat.eqb (size (lru_map_ r)) (capacity_ r) then r
  else
    mkLRU ((heap_next r, frame_id) :: lru_list_ r)
          (<[frame_id := heap_next r]> (lru_map_ r))
          (capacity_ r) (S (heap_next r)).

(** The specification's wording of [Pin]: if the frame is tracked, erase its
    node from the list and its entry from the map. *)
Definition Pin_erase (frame_id : Z) (r : LRUReplacer) : LRUReplacer :=
  match lru_map_ r !! frame_id with
  | None => r
  | Some it =>
      mkLRU (erase_node it (lru_list_ r)) (delete frame_id (lru_map_ r))
            (capacity_ r) (heap_next r)
  end.

(** Well-formedness of the list model: the nodes of a [std::list] are
    distinct objects, so no address occurs twice. *)
Definition nodes_distinct (r : LRUReplacer) : Prop :=
  NoDup (map fst (lru_list_ r)).

(** The invariant of section 4.2, [M.keys == set(L)]: the keys of the map
    are the listed frames ... *)
Definition keys_are_frames (r : LRUReplacer) : Prop :=
  ∀ f, is_Some (lru_map_ r !! f) ↔ f ∈ frames r.

(** ... and each key is mapped to its own node, the one that holds it: the
    stored iterator is valid. *)
Definition iterators_valid (r : LRUReplacer) : Prop :=
  ∀ f n, lru_map_ r !! f = Some n → (n, f) ∈ lru_list_ r.

Definition map_matches_list (r : LRUReplacer) : Prop :=
  keys_are_frames r ∧ iterators_valid r.

(** The representation invariant the operations maintain: distinct nodes,
    the map holding exactly the listed cells (so that no frame is listed
    twice), and every listed node handed out by the allocator. *)
Record Inv (r : LRUReplacer) : Prop := {
  inv_nodes : nodes_distinct r;
  inv_map : ∀ f n, lru_map_ r !! f = Some n ↔ (n, f) ∈ lru_list_ r;
  inv_alloc : ∀ n f, (n, f) ∈ lru_list_ r → (n < heap_next r)%nat
}.

(** Calls a client can make, and the states they reach. *)
Inductive op := OVictim | OPin (f : Z) | OUnpin (f : Z).

Definition step (o : op) (r : LRUReplacer) : option LRUReplacer :=
  match o with
  | OVictim => Some (snd (Victim r))
  | OPin f => Pin f r
  | OUnpin f => Some (Unpin f r)
  end.

Inductive reachable (cap : nat) : LRUReplacer → Prop :=
| reach_create : reachable cap (create cap)
| reach_step o r r' : reachable cap r → step o r = Some r' → reachable cap r'.

End LRU.

(** ** The buffer pool manager instance (buffer_pool_manager_instance.cpp) *)

(** Modelled from the spec: [PAGE_SIZE] is a constant of common/config.h,
    which is not part of the sources at hand; the spec gives 4096-byte
    pages. *)
Definition PAGE_SIZE : nat := 4096.

(** Modelled from the spec: [INVALID_PAGE_ID] is a constant of
    common/config.h as well; the spec gives the sentinel -1. *)
Definition INVALID_PAGE_ID : Z := -1.

(** Modelled from the spec: the class [Page] is declared in
    storage/page/page.h, which is not part of the sources at hand; the spec
    gives a frame its data, the resident page id, a pin count and a dirty
    flag. The source treats the pin count as a signed [int]. *)
Record Page := mkPage {
  data_ : list byte;
  page_id_ : Z;
  pin_count_ : Z;
  is_dirty_ : bool
}.

Definition zero_data : list byte := replicate PAGE_SIZE x00.

(** A frame as [new Page[pool_size_]] leaves it. *)
Definition fresh_page : Page := mkPage zero_data INVALID_PAGE_ID 0 false.

(** Calls the manager makes on its collaborators, the replacer and the disk
    manager. The manager's state carries the history of these calls, newest
    first: it is what "the replacer is consulted" and "the frame is written
    back" are statements about. *)
Inductive call :=
| CVictim
| CPin (f : Z)
| CUnpin (f : Z)
| CWritePage (p : Z) (d : list byte)
| CReadPage (p : Z).

Record BPMI := mkBPMI {
  pool_size_ : nat;
  num_instances_ : Z;              (* uint32_t *)
  instance_index_ : Z;             (* uint32_t *)
  next_page_id_ : Z;               (* page_id_t *)
  pages_ : list Page;              (* Page[pool_size_] *)
  replacer_ : LRU.LRUReplacer;
  free_list_ : list Z;             (* std::list<frame_id_t> *)
  page_table_ : gmap Z Z;          (* page id -> frame id *)
  disk_ : gmap Z (list byte);      (* the blocks behind disk_manager_ *)
  calls_ : list call
}.

Definition set_next_page_id (v : Z) (s : BPMI) : BPMI :=
  mkBPMI (pool_size_ s) (num_instances_ s) (instance_index_ s) v (pages_ s)
         (replacer_ s) (free_list_ s) (page_table_ s) (disk_ s) (calls_ s).

Definition set_pages (v : list Page) (s : BPMI) : BPMI :=
  mkBPMI (pool_size_ s) (num_instances_ s) (instance_index_ s)
         (next_page_id_ s) v (replacer_ s) (free_list_ s) (page_table_ s)
         (disk_ s) (calls_ s).

Definition set_free_list (v : list Z) (s : BPMI) : BPMI :=
  mkBPMI (pool_size_ s) (num_instances_ s) (instance_index_ s)
         (next_page_id_ s) (pages_ s) (replacer_ s) v (page_table_ s)
         (disk_ s) (calls_ s).

Definition set_page_table (v : gmap Z Z) (s : BPMI) : BPMI :=
  mkBPMI (pool_size_ s) (num_instances_ s) (instance_index_ s)
         (next_page_id_ s) (pages_ s) (replacer_ s) (free_list_ s) v
         (disk_ s) (calls_ s).

(** A call on the replacer: its new state, and the call recorded. *)
Definition replacer_call (c : call) (r : LRU.LRUReplacer) (s : BPMI) : BPMI :=
  mkBPMI (pool_size_ s) (num_instances_ s) (instance_index_ s)
         (next_page_id_ s) (pages_ s) r (free_list_ s) (page_table_ s)
         (disk_ s) (c :: calls_ s).

(** A call on the disk manager: the new blocks, and the call recorded. *)
Definition disk_call (c : call) (d : gmap Z (list byte)) (s : BPMI) : BPMI :=
  mkBPMI (pool_size_ s) (num_instances_ s) (instance_index_ s)
         (next_page_id_ s) (pages_ s) (replacer_ s) (free_list_ s)
         (page_table_ s) d (c :: calls_ s).

(** *** State and undefined behaviour: a small monad *)

Definition M (A : Type) : Type := BPMI → option (A * BPMI).

Definition ret {A} (a : A) : M A := λ s, Some (a, s).

Definition bind {A B} (m : M A) (k : A → M B) : M B :=
  λ s, match m s with
       | Some (a, s') => k a s'
       | None => None
       end.

Definition undefined {A} : M A := λ _, None.
Definition get : M BPMI := λ s, Some (s, s).
Definition modify (f : BPMI → BPMI) : M unit := λ s, Some (tt, f s).

Notation "x <- c ;; k" := (bind c (λ x, k))
  (at level 100, c at next level, right associativity).
Notation "c ;; k" := (bind c (λ _, k))
  (at level 100, right associativity).

(** [pages_[fid]], undefined outside the array. *)
Definition page_at (fid : Z) : M Page :=
  λ s, if fid <? 0 then None
       else match pages_ s !! Z.to_nat fid with
            | Some p => Some (p, s)
            | None => None
            end.

Definition store_page (fid : Z) (p : Page) : M unit :=
  modify (λ s, set_pages (<[Z.to_nat fid := p]> (pages_ s)) s).

(** [pin_count_++] on a signed [int]. *)
Definition incr_pin (pin : Z) : M Z :=
  if pin <? INT32_MAX then ret (pin + 1) else undefined.

(** Modelled from the spec: the disk manager is a collaborator outside the
    sources at hand; [disk_manager_->WritePage(page_id, data)] makes [data]
    the contents of [page_id]. *)
Definition WritePage (page_id : Z) (d : list byte) : M unit :=
  modify (λ s, disk_call (CWritePage page_id d) (<[page_id := d]> (disk_ s)) s).

(** Modelled from the spec: [disk_manager_->ReadPage(page_id, data)] yields
    the contents of [page_id]. The spec leaves the bytes of a page that was
    never written unspecified; the model reads zeroes. *)
Definition ReadPage (page_id : Z) : M (list byte) :=
  λ s, Some (default zero_data (disk_ s !! page_id),
             disk_call (CReadPage page_id) (disk_ s) s).

Definition replacer_Victim : M (option Z) :=
  λ s, let '(v, r) := LRU.Victim (replacer_ s) in
       Some (v, replacer_call CVictim r s).

Definition replacer_Pin (frame_id : Z) : M unit :=
  λ s, match LRU.Pin frame_id (replacer_ s) with
       | Some r => Some (tt, replacer_call (CPin frame_id) r s)
       | None => None
       end.

Definition replacer_Unpin (frame_id : Z) : M unit :=
  modify (λ s, replacer_call (CUnpin frame_id)
                 (LRU.Unpin frame_id (replacer_ s)) s).

(** *** Construction *)

Definition create (pool_size : nat) (num_instances instance_index : Z)
    (disk : gmap Z (list byte)) : option BPMI :=
  if (0 <? num_instances) && (instance_index <? num_instances) then
    Some (mkBPMI pool_size num_instances instance_index
            (to_int32 instance_index)
            (replicate pool_size fresh_page)
            (LRU.create pool_size)
            (map (λ i, to_int32 (Z.of_nat i)) (seq 0 pool_size))
            ∅ disk [])
  else None.

(** The constructor's arguments as their C++ types admit them: a pool that
    an [int] can index, and two [uint32_t] with the asserted relation. *)
Definition valid_config (pool_size : nat) (num_instances instance_index : Z)
  : Prop :=
  Z.of_nat pool_size <= INT32_MAX ∧
  0 < num_instances < 2 ^ 32 ∧
  0 <= instance_index < num_instances.

(** *** Page id allocation *)

Definition ValidatePageId (page_id : Z) : M unit :=
  λ s, if num_instances_ s =? 0 then None
       else if to_uint32 page_id mod num_instances_ s =? instance_index_ s
            then Some (tt, s)
            else None.

Definition AllocatePage : M Z :=
  s <- get ;;
  let next_page_id := next_page_id_ s in
  modify (set_next_page_id (to_int32 (next_page_id + num_instances_ s))) ;;
  ValidatePageId next_page_id ;;
  ret next_page_id.

(** *** Obtaining a frame *)

(** The scan [for (int i = 0; i < static_cast<int>(pool_size_); i++)]:
    true when no scanned frame has pin count 0. *)
Definition is_all_spinned (s : BPMI) : bool :=
  forallb (λ p, negb (pin_count_ p =? 0))
          (take (Z.to_nat (to_int32 (Z.of_nat (pool_size_ s)))) (pages_ s)).

(** The [do { ... } while (false)] block of [NewPgImp] (lines 85-115), which
    [FetchPgImp] repeats on a miss (lines 153-179). The result is the frame
    obtained, or -1, the initial value of [victm_fid] / [fetch_fid]. *)
Definition pick_frame : M Z :=
  s <- get ;;
  match free_list_ s with
  | fid :: rest => modify (set_free_list rest) ;; ret fid
  | [] =>
      if is_all_spinned s then ret (-1)
      else
        v <- replacer_Victim ;;
        match v with
        | None => ret (-1)
        | Some victm_fid =>
            replace_page <- page_at victm_fid ;;
            (if is_dirty_ replace_page
             then WritePage (page_id_ replace_page) (data_ replace_page)
             else ret tt) ;;
            modify (λ s, set_page_table
                           (delete (page_id_ replace_page) (page_table_ s)) s) ;;
            ret victm_fid
        end
  end.

(** *** The six operations *)

(** The result is the page id stored through [page_id] and the frame the
    returned [Page*] points to; [None] is [nullptr]. *)
Definition NewPgImp : M (option (Z * Z)) :=
  new_pid <- AllocatePage ;;
  victm_fid <- pick_frame ;;
  if victm_fid =? -1 then ret None
  else
    victm_page <- page_at victm_fid ;;
    modify (λ s, set_page_table (<[new_pid := victm_fid]> (page_table_ s)) s) ;;
    pin <- incr_pin (pin_count_ victm_page) ;;
    store_page victm_fid (mkPage zero_data new_pid pin false) ;;
    replacer_Pin victm_fid ;;
    ret (Some (new_pid, victm_fid)).

Definition FetchPgImp (page_id : Z) : M (option Z) :=
  s <- get ;;
  match page_table_ s !! page_id with
  | Some fetch_fid =>
      fetch_page <- page_at fetch_fid ;;
      pin <- incr_pin (pin_count_ fetch_page) ;;
      store_page fetch_fid
        (mkPage (data_ fetch_page) (page_id_ fetch_page) pin
                (is_dirty_ fetch_page)) ;;
      replacer_Pin fetch_fid ;;
      ret (Some fetch_fid)
  | None =>
      fetch_fid <- pick_frame ;;
      if fetch_fid =? -1 then ret None
      else
        fetch_page <- page_at fetch_fid ;;
        d <- ReadPage page_id ;;
        modify (λ s, set_page_table (<[page_id := fetch_fid]> (page_table_ s)) s) ;;
        pin <- incr_pin (pin_count_ fetch_page) ;;
        store_page fetch_fid (mkPage d page_id pin false) ;;
        replacer_Pin fetch_fid ;;
        ret (Some fetch_fid)
  end.

Definition UnpinPgImp (page_id : Z) (is_dirty : bool) : M bool :=
  s <- get ;;
  match page_table_ s !! page_id with
  | None => ret false
  | Some unpin_fid =>
      unpin_page <- page_at unpin_fid ;;
      store_page unpin_fid
        (mkPage (data_ unpin_page) (page_id_ unpin_page)
                (pin_count_ unpin_page) is_dirty) ;;
      if pin_count_ unpin_page <=? 0 then ret false
      else
        store_page unpin_fid
          (mkPage (data_ unpin_page) (page_id_ unpin_page)
                  (pin_count_ unpin_page - 1) is_dirty) ;;
        (if pin_count_ unpin_page - 1 =? 0
         then replacer_Unpin unpin_fid
         else ret tt) ;;
        ret true
  end.

Definition FlushPgImp (page_id : Z) : M bool :=
  s <- get ;;
  match page_table_ s !! page_id with
  | None => ret false
  | Some flush_fid =>
      flush_page <- page_at flush_fid ;;
      WritePage (page_id_ flush_page) (data_ flush_page) ;;
      store_page flush_fid
        (mkPage (data_ flush_page) (page_id_ flush_page)
                (pin_count_ flush_page) false) ;;
      ret true
  end.

(** The body of the loop of [FlushAllPgsImp], over the entries of the page
    table in the order the iteration meets them. *)
Fixpoint flush_entries (entries : list (Z * Z)) : M unit :=
  match entries with
  | [] => ret tt
  | entry :: rest =>
      flush_page <- page_at (snd entry) ;;
      WritePage (page_id_ flush_page) (data_ flush_page) ;;
      store_page (snd entry)
        (mkPage (data_ flush_page) (page_id_ flush_page)
                (pin_count_ flush_page) false) ;;
      flush_entries rest
  end.

(** [std::unordered_map] fixes no iteration order; the model takes the
    order of [map_to_list]. *)
Definition FlushAllPgsImp : M unit :=
  s <- get ;;
  flush_entries (map_to_list (page_table_ s)).

Definition DeletePgImp (page_id : Z) : M bool :=
  s <- get ;;
  match page_table_ s !! page_id with
  | None => ret true
  | Some delete_fid =>
      delete_page <- page_at delete_fid ;;
      if negb (pin_count_ delete_page =? 0) then ret false
      else
        (if is_dirty_ delete_page
         then WritePage (page_id_ delete_page) (data_ delete_page)
         else ret tt) ;;
        store_page delete_fid
          (mkPage zero_data INVALID_PAGE_ID (pin_count_ delete_page) false) ;;
        modify (λ s, set_free_list (free_list_ s ++ [delete_fid]) s) ;;
        modify (λ s, set_page_table (delete page_id (page_table_ s)) s) ;;
        ret true
  end.

(** *** Runs *)

Inductive op :=
| ONewPage
| OFetchPage (p : Z)
| OUnpinPage (p : Z) (is_dirty : bool)
| OFlushPage (p : Z)
| OFlushAllPages
| ODeletePage (p : Z).

Definition drop {A} (m : M A) : BPMI → option BPMI :=
  λ s, snd <$> m s.

Definition step (o : op) : BPMI → option BPMI :=
  match o with
  | ONewPage => drop NewPgImp
  | OFetchPage p => drop (FetchPgImp p)
  | OUnpinPage p d => drop (UnpinPgImp p d)
  | OFlushPage p => drop (FlushPgImp p)
  | OFlushAllPages => drop FlushAllPgsImp
  | ODeletePage p => drop (DeletePgImp p)
  end.

(** [run ops s] performs the operations in order. *)
Fixpoint run (ops : list op) (s : BPMI) : option BPMI :=
  match ops with
  | [] => Some s
  | o :: rest => match step o s with
                 | Some s' => run rest s'
                 | None => None
                 end
  end.

(** The states a client can bring a freshly constructed manager into. *)
Inductive reachable : BPMI → Prop :=
| reach_create pool_size num_instances instance_index disk s :
    valid_config pool_size num_instances instance_index →
    create pool_size num_instances instance_index disk = Some s →
    reachable s
| reach_step o s s' : reachable s → step o s = Some s' → reachable s'.

(** *** The states the operations leave *)

(** The eviction write-back: [WritePage] when the frame is dirty. *)
Definition write_back (pg : Page) (s : BPMI) : BPMI :=
  if is_dirty_ pg
  then disk_call (CWritePage (page_id_ pg) (data_ pg))
                 (<[page_id_ pg := data_ pg]> (disk_ s)) s
  else s.

Arguments write_back : simpl never.

(** Binding frame [f] to page [p]: the page table entry, the frame's new
    contents, and the replacer after [Pin(f)]. *)
Definition install (f : Z) (new_page : Page) (p : Z) (r : LRU.LRUReplacer)
    (s : BPMI) : BPMI :=
  replacer_call (CPin f) r
    (set_pages (<[Z.to_nat f := new_page]> (pages_ s))
       (set_page_table (<[p := f]> (page_table_ s)) s)).

(** The state [AllocatePage] leaves. *)
Definition advance (s : BPMI) : BPMI :=
  set_next_page_id (to_int32 (next_page_id_ s + num_instances_ s)) s.

(** The frame with its dirty flag, or its pin count, replaced. *)
Definition with_dirty (d : bool) (pg : Page) : Page :=
  mkPage (data_ pg) (page_id_ pg) (pin_count_ pg) d.

Definition with_pin (k : Z) (pg : Page) : Page :=
  mkPage (data_ pg) (page_id_ pg) k (is_dirty_ pg).

(** The four ways through [pick_frame], with the frame obtained (or -1) and
    the state left. *)
Inductive pick_path (s : BPMI) (f : Z) (s2 : BPMI) : Prop :=
| path_free rest :
    free_list_ s = f :: rest → s2 = set_free_list rest s →
    pick_path s f s2
| path_all_pinned :
    free_list_ s = [] → is_all_spinned s = true → f = -1 → s2 = s →
    pick_path s f s2
| path_declined :
    free_list_ s = [] → is_all_spinned s = false →
    LRU.Victim (replacer_ s) = (None, replacer_ s) →
    LRU.frames (replacer_ s) = [] →
    f = -1 → s2 = replacer_call CVictim (replacer_ s) s →
    pick_path s f s2
| path_victim fs r pg :
    free_list_ s = [] → is_all_spinned s = false →
    LRU.Victim (replacer_ s) = (Some f, r) →
    LRU.frames (replacer_ s) = fs ++ [f] → LRU.frames r = fs →
    0 <= f → pages_ s !! Z.to_nat f = Some pg → pin_count_ pg = 0 →
    s2 = set_page_table (delete (page_id_ pg) (page_table_ s))
           (write_back pg (replacer_call CVictim r s)) →
    pick_path s f s2.

(** ** Invariants of the manager *)

(** [frame_holds ps f P]: [f] indexes the frame array [ps] and the frame
    there satisfies [P]. *)
Definition frame_holds (ps : list Page) (f : Z) (P : Page → Prop) : Prop :=
  0 <= f ∧ ∃ pg, ps !! Z.to_nat f = Some pg ∧ P pg.

(** What every operation needs of the state to stay within defined
    behaviour, and re-establishes. *)
Record BInv (s : BPMI) : Prop := {
  bi_pool : Z.of_nat (pool_size_ s) <= INT32_MAX;
  bi_len : length (pages_ s) = pool_size_ s;
  bi_num : 0 < num_instances_ s < 2 ^ 32;
  bi_idx : 0 <= instance_index_ s < num_instances_ s;
  bi_next : - 2 ^ 31 <= next_page_id_ s < 2 ^ 31;
  bi_cap : LRU.capacity_ (replacer_ s) = pool_size_ s;
  bi_lru : LRU.Inv (replacer_ s);
  bi_free_nodup : NoDup (free_list_ s);
  (* a frame in the free list is unbound and unpinned *)
  bi_free : ∀ f, f ∈ free_list_ s →
    frame_holds (pages_ s) f (λ pg, page_id_ pg = INVALID_PAGE_ID ∧ pin_count_ pg = 0);
  (* a page table entry names a frame bound to its key, outside the free list *)
  bi_table : ∀ p f, page_table_ s !! p = Some f →
    frame_holds (pages_ s) f (λ pg, page_id_ pg = p) ∧ f ∉ free_list_ s;
  bi_pin : ∀ i pg, pages_ s !! i = Some pg → 0 <= pin_count_ pg <= INT32_MAX;
  (* an evictable frame is unpinned *)
  bi_evictable : ∀ f, f ∈ LRU.frames (replacer_ s) →
    frame_holds (pages_ s) f (λ pg, pin_count_ pg = 0)
}.

(** Naming the fields of a [BInv] hypothesis. *)
Ltac binv H :=
  destruct H as [bi_pool0 bi_len0 bi_num0 bi_idx0 bi_next0 bi_cap0 bi_lru0
                 bi_free_nodup0 bi_free0 bi_table0 bi_pin0 bi_evictable0].

(** What the invariants read of the frame array: page ids and pin counts. *)
Definition meta (s : BPMI) : list (Z * Z) :=
  (λ pg, (page_id_ pg, pin_count_ pg)) <$> pages_ s.

(** States that agree on everything but the frames' data and dirty flags,
    the disk and the call history. *)
Record same_core (s s' : BPMI) : Prop := {
  sc_pool : pool_size_ s' = pool_size_ s;
  sc_num : num_instances_ s' = num_instances_ s;
  sc_idx : instance_index_ s' = instance_index_ s;
  sc_next : next_page_id_ s' = next_page_id_ s;
  sc_repl : replacer_ s' = replacer_ s;
  sc_free : free_list_ s' = free_list_ s;
  sc_table : page_table_ s' = page_table_ s;
  sc_meta : meta s' = meta s
}.

(** Every unpinned frame is either free or evictable. *)
Definition Tracked (s : BPMI) : Prop :=
  ∀ i pg, pages_ s !! i = Some pg → pin_count_ pg = 0 →
    Z.of_nat i ∈ free_list_ s ∨ Z.of_nat i ∈ LRU.frames (replacer_ s).

(** The same, leaving frame [f] aside: the state between obtaining [f] and
    binding it. *)
Definition Tracked_but (f : Z) (s : BPMI) : Prop :=
  ∀ i pg, pages_ s !! i = Some pg → pin_count_ pg = 0 → Z.of_nat i ≠ f →
    Z.of_nat i ∈ free_list_ s ∨ Z.of_nat i ∈ LRU.frames (replacer_ s).

(** [resident s f]: the page table maps the page id in frame [f] to [f]. *)
Definition resident (s : BPMI) (f : Z) : Prop :=
  frame_holds (pages_ s) f (λ pg, page_table_ s !! page_id_ pg = Some f).

(** Every frame but [f] is free or resident. *)
Definition cover_but (f : Z) (s : BPMI) : Prop :=
  ∀ i, (i < pool_size_ s)%nat → Z.of_nat i ≠ f →
    Z.of_nat i ∈ free_list_ s ∨ resident s (Z.of_nat i).

(** Every frame is free or resident, and every resident page id lies below
    the allocation counter. *)
Record Covered (s : BPMI) : Prop := {
  cov_frames : ∀ i, (i < pool_size_ s)%nat →
    Z.of_nat i ∈ free_list_ s ∨ resident s (Z.of_nat i);
  cov_ids : ∀ p f, page_table_ s !! p = Some f → p < next_page_id_ s
}.

(** A client that keeps to ids the allocator has passed, while the counter
    has room: [FetchPage] only below [next_page_id_], [NewPage] only when
    the counter does not overflow. *)
Definition polite_op (o : op) (s : BPMI) : Prop :=
  match o with
  | ONewPage => next_page_id_ s + num_instances_ s <= INT32_MAX
  | OFetchPage p => p < next_page_id_ s
  | _ => True
  end.

(** [along P ops s]: [P] holds of every operation of the run, in the state
    it is performed in. *)
Fixpoint along (P : op → BPMI → Prop) (ops : list op) (s : BPMI) : Prop :=
  match ops with
  | [] => True
  | o :: rest =>
      P o s ∧
      match step o s with
      | Some s' => along P rest s'
      | None => True
      end
  end.

Definition polite : list op → BPMI → Prop := along polite_op.

(** A run in which the allocation counter does not overflow. *)
Definition room_op (o : op) (s : BPMI) : Prop :=
  match o with
  | ONewPage => next_page_id_ s + num_instances_ s <= INT32_MAX
  | _ => True
  end.

(** The frames the four collections of the specification's invariant hold. *)
Definition table_frames (s : BPMI) : list Z :=
  snd <$> map_to_list (page_table_ s).

Definition is_pinned (s : BPMI) (f : Z) : bool :=
  match pages_ s !! Z.to_nat f with
  | Some pg => bool_decide (0 < pin_count_ pg)
  | None => false
  end.

Definition pinned_resident_frames (s : BPMI) : list Z :=
  filter (λ f, Is_true (is_pinned s f)) (table_frames s).

Definition evictable_frames (s : BPMI) : list Z := LRU.frames (replacer_ s).

(** The calls made between a state [s] and a later state [s']. *)
Definition new_calls (s s' : BPMI) : list call :=
  take (length (calls_ s') - length (calls_ s)) (calls_ s').

(** [m] performed [n] times, the results in order. *)
Fixpoint repeatM {A} (n : nat) (m : M A) : M (list A) :=
  match n with
  | O => ret []
  | S n' => a <- m ;; rest <- repeatM n' m ;; ret (a :: rest)
  end.

(** ** Vocabulary of the checked properties *)

(** A fresh manager over an empty disk, after the given operations. *)
Definition run_from (pool_size : nat) (num_instances instance_index : Z)
    (ops : list op) : option BPMI :=
  match create pool_size num_instances instance_index ∅ with
  | Some s => run ops s
  | None => None
  end.

(** The dirty flag of frame [f]. *)
Definition dirty_at (s : BPMI) (f : Z) : option bool :=
  is_dirty_ <$> pages_ s !! Z.to_nat f.

(** The pin count of frame [f]. *)
Definition pin_at (s : BPMI) (f : Z) : option Z :=
  pin_count_ <$> pages_ s !! Z.to_nat f.

Definition disjoint_lists (a b : list Z) : Prop := ∀ x, x ∈ a → x ∉ b.

(** The partition of section 8, invariant 1, as it is worded: the four
    collections pairwise disjoint on frame ids, their sizes summing to the
    pool size. *)
Definition spec_partition (s : BPMI) : Prop :=
  disjoint_lists (table_frames s) (free_list_ s) ∧
  disjoint_lists (table_frames s) (pinned_resident_frames s) ∧
  disjoint_lists (table_frames s) (evictable_frames s) ∧
  disjoint_lists (free_list_ s) (pinned_resident_frames s) ∧
  disjoint_lists (free_list_ s) (evictable_frames s) ∧
  disjoint_lists (pinned_resident_frames s) (evictable_frames s) ∧
  (length (table_frames s) + length (free_list_ s)
   + length (pinned_resident_frames s) + length (evictable_frames s)
   = pool_size_ s)%nat.

(** The page id modulo the instance count as [ValidatePageId] computes it:
    [page_id % num_instances_] on an [int32_t] and a [uint32_t]. *)
Definition page_mod (page_id num_instances : Z) : Z :=
  to_uint32 page_id mod num_instances.

Module LRUScript.
Import LRU.

(** The results of the [Victim] calls of a script, in order. *)
Fixpoint outcomes (ops : list op) (r : LRUReplacer)
  : option (list (option Z)) :=
  match ops with
  | [] => Some []
  | OVictim :: rest =>
      match outcomes rest (snd (Victim r)) with
      | Some vs => Some (fst (Victim r) :: vs)
      | None => None
      end
  | o :: rest =>
      match step o r with
      | Some r' => outcomes rest r'
      | None => None
      end
  end.

End LRUScript.

(** The state of a fresh manager over an empty disk after the given
    operations (the empty manager if the run leaves defined behaviour). *)
Definition state_after (pool_size : nat) (num_instances instance_index : Z)
    (ops : list op) : BPMI :=
  default (mkBPMI 0 0 0 0 [] (LRU.create 0) [] ∅ ∅ [])
          (run_from pool_size num_instances instance_index ops).

(** ** Vocabulary of the further properties *)

(** Every frame in the free list is as the constructor left it, or as
    [DeletePgImp] reset it: zeroed, unbound, unpinned and clean. *)
Definition FreeFresh (s : BPMI) : Prop :=
  ∀ f, f ∈ free_list_ s → pages_ s !! Z.to_nat f = Some fresh_page.

(** The states a polite client can bring a freshly constructed manager
    into. *)
Definition reachable_politely (s : BPMI) : Prop :=
  ∃ pool_size num_instances instance_index disk s0 ops,
    valid_config pool_size num_instances instance_index ∧
    create pool_size num_instances instance_index disk = Some s0 ∧
    polite ops s0 ∧ run ops s0 = Some s.

(** The frame the [do { ... } while (false)] block hands out on a reachable
    state: the front of the free list, or with an empty free list the back
    of the replacer's list, the least recently unpinned frame. *)
Definition frame_choice (s : BPMI) : option Z :=
  match free_list_ s with
  | f :: _ => Some f
  | [] => last (evictable_frames s)
  end.

(** The calls and the disk an eviction of the frame contents [pg] leaves,
    when the free list was empty. *)
Definition eviction_calls (s : BPMI) (pg : Page) : list call :=
  match free_list_ s with
  | _ :: _ => []
  | [] => (if is_dirty_ pg then [CWritePage (page_id_ pg) (data_ pg)] else [])
          ++ [CVictim]
  end.

Definition eviction_disk (s : BPMI) (pg : Page) : gmap Z (list byte) :=
  match free_list_ s with
  | _ :: _ => disk_ s
  | [] => if is_dirty_ pg then <[page_id_ pg := data_ pg]> (disk_ s)
          else disk_ s
  end.

Definition eviction_table (s : BPMI) (pg : Page) : gmap Z Z :=
  match free_list_ s with
  | _ :: _ => page_table_ s
  | [] => delete (page_id_ pg) (page_table_ s)
  end.

(** The number of [NewPage] calls in a run. *)
Fixpoint new_page_calls (ops : list op) : nat :=
  match ops with
  | [] => O
  | ONewPage :: rest => S (new_page_calls rest)
  | _ :: rest => new_page_calls rest
  end.

(** * Properties *)

(** ** The replacer *)

Section lru_facts.
Import LRU.
Implicit Types (r : LRUReplacer) (l : list (node * Z)) (f : Z) (n : node).

Lemma erase_node_absent n l : n ∉ map fst l → erase_node n l = l.
Proof.
  unfold erase_node. induction l as [|c t IH]; intros Hn; [done|].
  rewrite filter_cons. simpl in Hn. apply not_elem_of_cons in Hn as [Hc Ht].
  destruct (decide (c.1 ≠ n)) as [_|Hd]; [by rewrite IH|].
  exfalso. apply Hd. congruence.
Qed.

Lemma extract_erase n f l :
  NoDup (map fst l) → (n, f) ∈ l →
  extract n l = Some ((n, f), erase_node n l).
Proof.
  induction l as [|c t IH]; intros Hnd Hin; [by apply elem_of_nil in Hin|].
  simpl in Hnd. apply NoDup_cons in Hnd as [Hc Hnd].
  simpl. unfold erase_node. rewrite filter_cons.
  destruct (Nat.eqb_spec c.1 n) as [Heq|Hne].
  - assert (c = (n, f)) as ->.
    { apply elem_of_cons in Hin as [->|Hin]; [done|].
      exfalso. apply Hc. rewrite Heq.
      change (map fst t) with (fst <$> t).
      apply list_elem_of_fmap. by exists (n, f). }
    simpl. destruct (decide (n ≠ n)); [done|].
    pose proof (erase_node_absent n t Hc) as He. unfold erase_node in He.
    congruence.
  - apply elem_of_cons in Hin as [Hcf|Hin]; [subst c; by simpl in Hne|].
    rewrite (IH Hnd Hin). destruct (decide (c.1 ≠ n)); [done|].
    by exfalso.
Qed.

Lemma Inv_create cap : Inv (create cap).
Proof.
  split; unfold nodes_distinct; simpl.
  - constructor.
  - intros f n. rewrite lookup_empty. split; [done|].
    intros H. by apply elem_of_nil in H.
  - intros n f H. by apply elem_of_nil in H.
Qed.

Lemma Inv_NoDup_cells r : Inv r → NoDup (lru_list_ r).
Proof. intros [Hn _ _]. by apply (NoDup_fmap_1 fst). Qed.

Lemma Inv_NoDup_frames r : Inv r → NoDup (frames r).
Proof.
  intros HI. unfold frames. change (NoDup (snd <$> lru_list_ r)).
  apply NoDup_fmap_2_strong; [|by apply Inv_NoDup_cells].
  intros [n1 f1] [n2 f2] H1 H2; simpl; intros <-.
  apply (inv_map r HI) in H1, H2. congruence.
Qed.

Lemma elem_of_frames r f :
  Inv r → f ∈ frames r ↔ is_Some (lru_map_ r !! f).
Proof.
  intros HI. unfold frames. change (map snd (lru_list_ r)) with (snd <$> lru_list_ r).
  rewrite list_elem_of_fmap. split.
  - intros [[n f'] [-> Hin]]. exists n. by apply (inv_map r HI).
  - intros [n Hn]. exists (n, f). split; [done|]. by apply (inv_map r HI).
Qed.

Lemma Inv_map_matches r : Inv r → map_matches_list r.
Proof.
  intros HI. split.
  - intros f. by rewrite elem_of_frames.
  - intros f n. apply (inv_map r HI).
Qed.

Lemma Inv_size r : Inv r → size (lru_map_ r) = length (frames r).
Proof.
  intros HI.
  set (kv := (λ c : node * Z, (c.2, c.1)) <$> lru_list_ r).
  assert (Hfst : kv.*1 = frames r).
  { unfold kv, frames. rewrite <- list_fmap_compose. done. }
  assert (Hnd : NoDup (kv.*1)) by (rewrite Hfst; by apply Inv_NoDup_frames).
  assert (lru_map_ r = list_to_map kv) as ->.
  { apply map_eq. intros f. apply option_eq. intros n.
    rewrite <- (elem_of_list_to_map kv f n Hnd).
    rewrite (inv_map r HI f n). unfold kv. rewrite list_elem_of_fmap. split.
    - intros H. by exists (n, f).
    - intros [[n' f'] [[= -> ->] H]]. done. }
  rewrite map_size_list_to_map by done.
  by rewrite <- Hfst, length_fmap.
Qed.

End lru_facts.

Section lru_ops.
Import LRU.
Implicit Types (r : LRUReplacer) (l : list (node * Z)) (f : Z) (n : node).

Lemma frames_snoc_inv r fs f :
  frames r = fs ++ [f] →
  ∃ l n, lru_list_ r = l ++ [(n, f)] ∧ map snd l = fs.
Proof.
  unfold frames. change (map snd (lru_list_ r)) with (snd <$> lru_list_ r).
  intros H. apply fmap_app_inv in H as (l1 & l2 & -> & H2 & ->).
  destruct l2 as [|[n f'] [|? ?]]; simplify_eq/=.
  by exists l1, n.
Qed.

(** [Victim] on a non-empty list: the back frame leaves list and map. *)
Lemma Victim_back r fs f :
  Inv r → frames r = fs ++ [f] →
  ∃ r', Victim r = (Some f, r') ∧ frames r' = fs ∧
        lru_map_ r' = delete f (lru_map_ r) ∧
        capacity_ r' = capacity_ r ∧ Inv r'.
Proof.
  intros HI Hfs.
  destruct (frames_snoc_inv r fs f Hfs) as (l & n & Hl & Hmap).
  assert (Hf : lru_map_ r !! f = Some n).
  { apply (inv_map r HI). rewrite Hl. apply elem_of_app. right. by left. }
  assert (Hsz : size (lru_map_ r) ≠ 0%nat).
  { apply map_size_ne_0_lookup_2 with f. by eexists. }
  pose proof (Inv_NoDup_frames r HI) as Hnd. rewrite Hfs in Hnd.
  apply NoDup_app in Hnd as (_ & Hdisj & _).
  eexists. unfold Victim. rewrite Hl.
  rewrite bool_decide_eq_false_2 by (by destruct l).
  apply Nat.eqb_neq in Hsz. rewrite Hsz. simpl.
  rewrite last_snoc, removelast_last. split; [done|].
  split; [done|]. split; [done|]. split; [done|].
  split; unfold nodes_distinct; simpl.
  - pose proof (inv_nodes r HI) as Hn. unfold nodes_distinct in Hn.
    rewrite Hl, map_app in Hn. apply NoDup_app in Hn as (Hn1 & _ & _).
    exact Hn1.
  - intros f' n'. destruct (decide (f' = f)) as [->|Hne].
    + rewrite lookup_delete_eq. split; [done|]. intros Hin. exfalso.
      apply (Hdisj f); [|by left]. rewrite <- Hmap.
      change (map snd l) with (snd <$> l). apply list_elem_of_fmap.
      by exists (n', f).
    + rewrite lookup_delete_ne by done. rewrite (inv_map r HI f' n'), Hl.
      rewrite elem_of_app, list_elem_of_singleton.
      split; [intros [?|[= _ ?]]; [done|congruence]|by left].
  - intros n' f' Hin. apply (inv_alloc r HI n' f'). rewrite Hl.
    apply elem_of_app. by left.
Qed.

(** [Victim] declines exactly on the empty list, and then changes nothing. *)
Lemma Victim_empty r :
  Inv r → frames r = [] → Victim r = (None, r).
Proof.
  intros _ H. unfold Victim. unfold frames in H.
  destruct (lru_list_ r); [|done].
  by rewrite bool_decide_eq_true_2.
Qed.

Lemma Victim_cases r :
  Inv r →
  (frames r = [] ∧ Victim r = (None, r)) ∨
  (∃ fs f r', frames r = fs ++ [f] ∧ Victim r = (Some f, r') ∧
              frames r' = fs ∧ lru_map_ r' = delete f (lru_map_ r) ∧
              capacity_ r' = capacity_ r ∧ Inv r').
Proof.
  intros HI. destruct (frames r) as [|x xs] eqn:E using rev_ind.
  - left. split; [done|]. by apply Victim_empty.
  - right. clear IHxs.
    destruct (Victim_back r xs x HI E) as (r' & ?). by exists xs, x, r'.
Qed.

(** The source's [Pin], splice then pop, is defined and erases the node. *)
Lemma Pin_refines r f :
  nodes_distinct r → iterators_valid r →
  Pin f r = Some (Pin_erase f r).
Proof.
  intros Hnd Hm. unfold Pin, Pin_erase.
  destruct (lru_map_ r !! f) as [n|] eqn:E; [|done].
  apply Hm in E. unfold splice_front.
  by rewrite (extract_erase n f _ Hnd E).
Qed.

Lemma elem_of_erase_node n l c : c ∈ erase_node n l ↔ c ∈ l ∧ c.1 ≠ n.
Proof. unfold erase_node. rewrite list_elem_of_filter. tauto. Qed.

Lemma node_unique l n fa fb :
  NoDup (map fst l) → (n, fa) ∈ l → (n, fb) ∈ l → fa = fb.
Proof.
  induction l as [|c t IH]; intros Hnd Ha Hb; [by apply elem_of_nil in Ha|].
  simpl in Hnd. apply NoDup_cons in Hnd as [Hc Hnd].
  assert (∀ g, (n, g) ∈ t → c.1 ≠ n) as Hfresh.
  { intros g Hg Heq. apply Hc. rewrite Heq.
    change (map fst t) with (fst <$> t).
    apply list_elem_of_fmap. by exists (n, g). }
  apply elem_of_cons in Ha as [Ha|Ha], Hb as [Hb|Hb].
  - congruence.
  - subst c. by destruct (Hfresh fb Hb).
  - subst c. by destruct (Hfresh fa Ha).
  - by apply IH.
Qed.

Lemma NoDup_fst_erase_node n l :
  NoDup (map fst l) → NoDup (map fst (erase_node n l)).
Proof.
  unfold erase_node. induction l as [|c t IH]; intros Hnd; [done|].
  simpl in Hnd. apply NoDup_cons in Hnd as [Hc Hnd].
  rewrite filter_cons. destruct (decide (c.1 ≠ n)); [|by apply IH].
  simpl. apply NoDup_cons. split; [|by apply IH].
  intros Hin. apply Hc. change (map fst t) with (fst <$> t).
  change (c.1 ∈ fst <$> filter (λ c0 : node * Z, c0.1 ≠ n) t) in Hin.
  apply list_elem_of_fmap in Hin as (c' & Hc' & Hin).
  apply list_elem_of_filter in Hin as [_ Hin].
  apply list_elem_of_fmap. by exists c'.
Qed.

Lemma Inv_Pin_erase r f : Inv r → Inv (Pin_erase f r).
Proof.
  intros HI. unfold Pin_erase.
  destruct (lru_map_ r !! f) as [n|] eqn:E; [|done].
  pose proof (inv_nodes r HI) as Hnd. unfold nodes_distinct in Hnd.
  split; unfold nodes_distinct; simpl.
  - by apply NoDup_fst_erase_node.
  - intros f' n'. rewrite elem_of_erase_node. simpl.
    destruct (decide (f' = f)) as [->|Hne].
    + rewrite lookup_delete_eq. split; [done|]. intros [Hin Hn].
      apply (inv_map r HI) in Hin. congruence.
    + rewrite lookup_delete_ne by done. rewrite (inv_map r HI f' n').
      split; [|tauto]. intros Hin. split; [done|]. intros ->.
      apply (inv_map r HI) in E. apply Hne.
      by apply (node_unique (lru_list_ r) n).
  - intros n' f' [Hin _]%elem_of_erase_node. by apply (inv_alloc r HI n' f').
Qed.

(** What [Pin] leaves in the evictable set. *)
Lemma frames_Pin_erase r f :
  Inv r → frames (Pin_erase f r) = filter (λ g, g ≠ f) (frames r).
Proof.
  intros HI. unfold Pin_erase, frames.
  pose proof (inv_nodes r HI) as Hnd. unfold nodes_distinct in Hnd.
  pose proof (inv_map r HI) as Hm.
  destruct (lru_map_ r !! f) as [n|] eqn:E; simpl.
  - apply Hm in E.
    assert (∀ c, c ∈ lru_list_ r → (c.1 ≠ n ↔ c.2 ≠ f)) as Hiff.
    { intros [n' f'] Hc; simpl. split; intros Hne Heq; subst; apply Hne.
      - apply Hm in Hc, E. congruence.
      - by apply (node_unique (lru_list_ r) n). }
    revert Hiff. unfold erase_node. generalize (lru_list_ r). clear.
    intros l. induction l as [|c t IH]; intros Hiff; [done|].
    pose proof (Hiff c (list_elem_of_here _ _)) as Hc.
    assert (IH' := IH (λ c' H, Hiff c' (list_elem_of_further _ _ _ H))).
    simpl. rewrite !filter_cons.
    destruct (decide (c.1 ≠ n)), (decide (c.2 ≠ f)); simpl; try tauto;
      by rewrite ?IH'.
  - assert (∀ c, c ∈ lru_list_ r → c.2 ≠ f) as Hall.
    { intros [n' f'] Hc; simpl. intros ->. apply Hm in Hc. congruence. }
    revert Hall. generalize (lru_list_ r). clear.
    intros l. induction l as [|c t IH]; intros Hall; [done|].
    pose proof (Hall c (list_elem_of_here _ _)) as Hc.
    assert (IH' := IH (λ c' H, Hall c' (list_elem_of_further _ _ _ H))).
    simpl. rewrite filter_cons.
    destruct (decide (c.2 ≠ f)); [|done]. by rewrite <- IH'.
Qed.

Lemma Pin_spec r f :
  Inv r →
  ∃ r', Pin f r = Some r' ∧ Inv r' ∧ capacity_ r' = capacity_ r ∧
        frames r' = filter (λ g, g ≠ f) (frames r).
Proof.
  intros HI. exists (Pin_erase f r).
  split; [apply Pin_refines; [apply HI|intros g n; apply (inv_map r HI)]|].
  split; [by apply Inv_Pin_erase|].
  split; [unfold Pin_erase; by destruct (lru_map_ r !! f)|].
  by apply frames_Pin_erase.
Qed.

Lemma Unpin_present r f :
  Inv r → f ∈ frames r → Unpin f r = r.
Proof.
  intros HI Hin. apply (elem_of_frames r f HI) in Hin.
  unfold Unpin. by rewrite bool_decide_eq_true_2.
Qed.

Lemma Unpin_full r f :
  Inv r → length (frames r) = capacity_ r → Unpin f r = r.
Proof.
  intros HI Hlen. unfold Unpin. rewrite (Inv_size r HI), Hlen.
  rewrite Nat.eqb_refl. by rewrite orb_true_r.
Qed.

Lemma Unpin_fresh r f :
  Inv r → f ∉ frames r → length (frames r) ≠ capacity_ r →
  frames (Unpin f r) = f :: frames r ∧
  lru_map_ (Unpin f r) = <[f := heap_next r]> (lru_map_ r).
Proof.
  intros HI Hin Hlen. rewrite (elem_of_frames r f HI) in Hin.
  unfold Unpin. rewrite bool_decide_eq_false_2 by done.
  rewrite (Inv_size r HI). apply Nat.eqb_neq in Hlen. by rewrite Hlen.
Qed.

Lemma Inv_Unpin r f : Inv r → Inv (Unpin f r).
Proof.
  intros HI. unfold Unpin.
  destruct (bool_decide _ || _) eqn:E; [done|].
  apply orb_false_iff in E as [E _]. apply bool_decide_eq_false in E.
  rewrite <- eq_None_not_Some in E.
  split; unfold nodes_distinct; simpl.
  - apply NoDup_cons. split; [|apply HI].
    intros Hin. change (map fst (lru_list_ r)) with (fst <$> lru_list_ r) in Hin.
    apply list_elem_of_fmap in Hin as ([n g] & Hn & Hin). simpl in Hn. subst n.
    apply (inv_alloc r HI) in Hin. lia.
  - intros g n. rewrite elem_of_cons. destruct (decide (g = f)) as [->|Hne].
    + rewrite lookup_insert_eq. split.
      * intros [= <-]. by left.
      * intros [[= -> ]|Hin]; [done|]. apply (inv_map r HI) in Hin. congruence.
    + rewrite lookup_insert_ne by done. rewrite (inv_map r HI g n).
      split; [tauto|]. intros [[= ]|?]; [congruence|done].
  - intros n g [[= -> ->]|Hin]%elem_of_cons; [lia|].
    apply (inv_alloc r HI) in Hin. lia.
Qed.

Lemma capacity_Unpin r f : capacity_ (Unpin f r) = capacity_ r.
Proof. unfold Unpin. by destruct (_ || _). Qed.

Lemma reachable_Inv cap r : reachable cap r → Inv r ∧ capacity_ r = cap.
Proof.
  induction 1 as [|o r r' _ [IH Hcap] Hstep]; [split; [apply Inv_create|done]|].
  destruct o as [|f|f]; simpl in Hstep.
  - injection Hstep as <-.
    destruct (Victim_cases r IH) as [[_ ->]|(fs & f & r1 & _ & -> & _ & _ & ? & ?)];
      simpl; [done|]. split; [done|congruence].
  - destruct (Pin_spec r f IH) as (r1 & Hp & ? & ? & _).
    rewrite Hp in Hstep. injection Hstep as <-. split; [done|congruence].
  - injection Hstep as <-. split; [by apply Inv_Unpin|].
    by rewrite capacity_Unpin.
Qed.

End lru_ops.

(** ** The manager: state updates that keep the invariant *)

Section binv_updates.
Implicit Types (s : BPMI) (f g p : Z) (pg : Page) (r : LRU.LRUReplacer).

Lemma to_int32_id z : - 2 ^ 31 <= z < 2 ^ 31 → to_int32 z = z.
Proof. intros H. unfold to_int32. rewrite Z.mod_small; lia. Qed.

Lemma to_int32_range z : - 2 ^ 31 <= to_int32 z < 2 ^ 31.
Proof.
  unfold to_int32. pose proof (Z.mod_pos_bound (z + 2 ^ 31) (2 ^ 32)). lia.
Qed.

Lemma frame_holds_impl (ps : list Page) f (P Q : Page → Prop) :
  frame_holds ps f P → (∀ pg, P pg → Q pg) → frame_holds ps f Q.
Proof. intros (? & pg & ? & ?) HPQ. split; [done|]. exists pg. auto. Qed.

Lemma frame_holds_lt (ps : list Page) f P :
  frame_holds ps f P → (Z.to_nat f < length ps)%nat.
Proof. intros (_ & pg & Hl & _). by apply lookup_lt_Some in Hl. Qed.

Lemma frame_holds_store (ps : list Page) f pg' g (P : Page → Prop) :
  0 <= f →
  frame_holds ps g P → (g = f → P pg') →
  frame_holds (<[Z.to_nat f := pg']> ps) g P.
Proof.
  intros Hf (Hg & pg & Hl & HP) Hnew. split; [done|].
  destruct (decide (g = f)) as [->|Hne].
  - exists pg'. split; [|auto]. apply list_lookup_insert_eq.
    by apply lookup_lt_Some in Hl.
  - exists pg. split; [|done]. rewrite list_lookup_insert_ne; [done|lia].
Qed.

Lemma frame_holds_store_eq (ps : list Page) f pg' (P : Page → Prop) :
  0 <= f → (Z.to_nat f < length ps)%nat → P pg' →
  frame_holds (<[Z.to_nat f := pg']> ps) f P.
Proof.
  intros Hf Hlt HP. split; [done|]. exists pg'. split; [|done].
  by apply list_lookup_insert_eq.
Qed.

Lemma BInv_set_next_page_id s v :
  BInv s → - 2 ^ 31 <= v < 2 ^ 31 → BInv (set_next_page_id v s).
Proof. intros HI Hv. binv HI. by constructor. Qed.

Lemma BInv_disk_call s c d : BInv s → BInv (disk_call c d s).
Proof. intros HI. binv HI. by constructor. Qed.

Lemma BInv_free_tail s f rest :
  BInv s → free_list_ s = f :: rest → BInv (set_free_list rest s).
Proof.
  intros HI Hfl. binv HI. rewrite Hfl in *.
  apply NoDup_cons in bi_free_nodup0 as [? ?].
  constructor; simpl; try done.
  - intros g Hg. apply bi_free0. by right.
  - intros p g Hp. destruct (bi_table0 p g Hp) as [H1 H2]. split.
    + done.
    + intros Hin. apply H2. by right.
Qed.

Lemma BInv_replacer_shrink s c r :
  BInv s → LRU.Inv r → LRU.capacity_ r = LRU.capacity_ (replacer_ s) →
  (∀ g, g ∈ LRU.frames r → g ∈ LRU.frames (replacer_ s)) →
  BInv (replacer_call c r s).
Proof.
  intros HB HI Hcap Hsub. binv HB. constructor; simpl; try done; [congruence|].
  intros g Hg. auto.
Qed.

Lemma BInv_replacer_Unpin s f :
  BInv s → frame_holds (pages_ s) f (λ pg, pin_count_ pg = 0) →
  BInv (replacer_call (CUnpin f) (LRU.Unpin f (replacer_ s)) s).
Proof.
  intros HI Hf. binv HI. constructor; simpl; try done.
  - by rewrite capacity_Unpin.
  - by apply Inv_Unpin.
  - intros g Hg. destruct (decide (g ∈ LRU.frames (replacer_ s))) as [Hin|Hni]; [auto|].
    destruct (decide (length (LRU.frames (replacer_ s))
                      = LRU.capacity_ (replacer_ s))) as [Hfull|Hroom].
    { rewrite Unpin_full in Hg by done. done. }
    destruct (decide (f ∈ LRU.frames (replacer_ s))) as [Hfin|Hfni].
    { rewrite Unpin_present in Hg by done. done. }
    destruct (Unpin_fresh (replacer_ s) f bi_lru0 Hfni Hroom) as [Hfr _].
    rewrite Hfr in Hg. apply elem_of_cons in Hg as [->|?]; done.
Qed.

Lemma BInv_table_delete s p :
  BInv s → BInv (set_page_table (delete p (page_table_ s)) s).
Proof.
  intros HI. binv HI. constructor; simpl; try done.
  intros q g Hq. apply lookup_delete_Some in Hq as [_ Hq].
  destruct (bi_table0 q g Hq). split; [|done].
  done.
Qed.

Lemma BInv_table_insert s p f :
  BInv s → frame_holds (pages_ s) f (λ pg, page_id_ pg = p) → f ∉ free_list_ s →
  BInv (set_page_table (<[p := f]> (page_table_ s)) s).
Proof.
  intros HI Hf Hfree. binv HI. constructor; simpl; try done.
  intros q g Hq. apply lookup_insert_Some in Hq as [[<- <-]|[_ Hq]].
  - split; [|done]. done.
  - destruct (bi_table0 q g Hq). split; [|done].
    done.
Qed.

Lemma BInv_store s f pg' :
  BInv s → 0 <= f → (Z.to_nat f < length (pages_ s))%nat →
  0 <= pin_count_ pg' <= INT32_MAX →
  (f ∈ free_list_ s →
   page_id_ pg' = INVALID_PAGE_ID ∧ pin_count_ pg' = 0) →
  (f ∈ LRU.frames (replacer_ s) → pin_count_ pg' = 0) →
  (∀ p, page_table_ s !! p = Some f → page_id_ pg' = p) →
  BInv (set_pages (<[Z.to_nat f := pg']> (pages_ s)) s).
Proof.
  intros HI Hf Hlt Hpin Hfree Hev Htab. binv HI. constructor; simpl; try done.
  - by rewrite length_insert.
  - intros g Hg. apply frame_holds_store; [done|auto|].
    intros ->. auto.
  - intros p g Hp. destruct (bi_table0 p g Hp). split; [|done].
    apply frame_holds_store; [done|auto|]. intros ->. auto.
  - intros i pg Hi. destruct (decide (i = Z.to_nat f)) as [->|Hne].
    + rewrite list_lookup_insert_eq in Hi by done. by injection Hi as <-.
    + rewrite list_lookup_insert_ne in Hi by done. eauto.
  - intros g Hg. apply frame_holds_store; [done|auto|].
    intros ->. auto.
Qed.

Lemma BInv_free_append s f :
  BInv s → f ∉ free_list_ s →
  frame_holds (pages_ s) f (λ pg, page_id_ pg = INVALID_PAGE_ID ∧ pin_count_ pg = 0) →
  (∀ p, page_table_ s !! p ≠ Some f) →
  BInv (set_free_list (free_list_ s ++ [f]) s).
Proof.
  intros HI Hni Hf Htab. binv HI. constructor; simpl; try done.
  - apply NoDup_app. split; [done|]. split; [|apply NoDup_singleton].
    intros g Hg ->%list_elem_of_singleton. done.
  - intros g [Hg| ->%list_elem_of_singleton]%elem_of_app.
    + auto.
    + done.
  - intros p g Hp. destruct (bi_table0 p g Hp). split.
    + done.
    + intros [Hg| ->%list_elem_of_singleton]%elem_of_app; [done|].
      by apply (Htab p).
Qed.

End binv_updates.

(** ** The manager: what the operations compute *)

Section bpm_exec.
Implicit Types (s : BPMI) (f g p : Z) (pg : Page) (r : LRU.LRUReplacer).

Lemma bind_Some {A B} (m : M A) (k : A → M B) s b s' :
  bind m k s = Some (b, s') ↔
  ∃ a s1, m s = Some (a, s1) ∧ k a s1 = Some (b, s').
Proof.
  unfold bind. destruct (m s) as [[a s1]|]; split.
  - intros H. by exists a, s1.
  - by intros (? & ? & [= <- <-] & ?).
  - done.
  - by intros (? & ? & ? & _).
Qed.

Lemma page_at_Some f s pg s' :
  page_at f s = Some (pg, s') ↔
  0 <= f ∧ pages_ s !! Z.to_nat f = Some pg ∧ s' = s.
Proof.
  unfold page_at. destruct (Z.ltb_spec f 0).
  - split; [done|lia].
  - destruct (pages_ s !! Z.to_nat f) as [q|]; split.
    + intros [= <- <-]. done.
    + intros (_ & [= <-] & ->). done.
    + done.
    + by intros (_ & ? & _).
Qed.

Lemma page_at_holds s f (P : Page → Prop) :
  frame_holds (pages_ s) f P → ∃ pg, page_at f s = Some (pg, s) ∧ P pg.
Proof.
  intros (Hf & pg & Hl & HP). exists pg. split; [|done].
  by apply page_at_Some.
Qed.

Lemma Victim_None_same r r' : LRU.Victim r = (None, r') → r' = r.
Proof.
  unfold LRU.Victim. destruct (_ || _); [by intros [= <-]|].
  destruct (last (LRU.lru_list_ r)) as [[? ?]|]; [done|by intros [= <-]].
Qed.

Lemma pick_frame_free s f rest :
  free_list_ s = f :: rest →
  pick_frame s = Some (f, set_free_list rest s).
Proof. intros H. unfold pick_frame, bind, get. by rewrite H. Qed.

Lemma pick_frame_all_pinned s :
  free_list_ s = [] → is_all_spinned s = true →
  pick_frame s = Some (-1, s).
Proof. intros H1 H2. unfold pick_frame, bind, get. by rewrite H1, H2. Qed.

Lemma pick_frame_declined s r :
  free_list_ s = [] → is_all_spinned s = false →
  LRU.Victim (replacer_ s) = (None, r) →
  pick_frame s = Some (-1, replacer_call CVictim (replacer_ s) s).
Proof.
  intros H1 H2 H3. unfold pick_frame, bind, get. rewrite H1, H2.
  unfold replacer_Victim. rewrite H3.
  by rewrite (Victim_None_same _ _ H3).
Qed.

Lemma pick_frame_victim s v r pg :
  free_list_ s = [] → is_all_spinned s = false →
  LRU.Victim (replacer_ s) = (Some v, r) →
  0 <= v → pages_ s !! Z.to_nat v = Some pg →
  pick_frame s =
    Some (v, set_page_table (delete (page_id_ pg) (page_table_ s))
               (write_back pg (replacer_call CVictim r s))).
Proof.
  intros H1 H2 H3 Hv Hpg. unfold pick_frame, bind, get. rewrite H1, H2.
  unfold replacer_Victim. rewrite H3.
  assert (page_at v (replacer_call CVictim r s)
          = Some (pg, replacer_call CVictim r s)) as ->.
  { by apply page_at_Some. }
  unfold write_back. by destruct (is_dirty_ pg).
Qed.

(** What [pick_frame] establishes: the state stays well-formed, the frame
    array is untouched, and a frame obtained is unpinned and bound nowhere. *)
Lemma pick_frame_inv s f s' :
  BInv s → pick_frame s = Some (f, s') →
  BInv s' ∧ pages_ s' = pages_ s ∧ next_page_id_ s' = next_page_id_ s ∧
  ((f = -1 ∧ free_list_ s' = free_list_ s ∧ page_table_ s' = page_table_ s ∧
    replacer_ s' = replacer_ s) ∨
   (frame_holds (pages_ s') f (λ pg, pin_count_ pg = 0) ∧ (f ∉ free_list_ s') ∧
    ∀ p, page_table_ s' !! p ≠ Some f)).
Proof.
  intros HI H. destruct (free_list_ s) as [|f0 rest] eqn:Hfl.
  - destruct (is_all_spinned s) eqn:Hall.
    { rewrite pick_frame_all_pinned in H by done. injection H as <- <-.
      split; [done|]. split; [done|]. split; [done|]. by left. }
    destruct (Victim_cases (replacer_ s) (bi_lru s HI))
      as [[_ Hv]|(fs & v & r' & Hfs & Hv & Hfs' & _ & Hcap & HI')].
    { rewrite (pick_frame_declined s _ Hfl Hall Hv) in H.
      injection H as <- <-. split.
      { apply BInv_replacer_shrink; [done|apply HI|done|done]. }
      split; [done|]. split; [done|]. by left. }
    assert (Hvin : v ∈ LRU.frames (replacer_ s)).
    { rewrite Hfs. apply elem_of_app. right. by left. }
    destruct (bi_evictable s HI v Hvin) as (Hv0 & pg & Hpg & Hpin).
    rewrite (pick_frame_victim s v r' pg Hfl Hall Hv Hv0 Hpg) in H.
    injection H as <- <-.
    assert (HB1 : BInv (replacer_call CVictim r' s)).
    { apply BInv_replacer_shrink; [done|done|done|].
      intros g Hg. rewrite Hfs. apply elem_of_app. left. by rewrite <- Hfs'. }
    assert (HB2 : BInv (write_back pg (replacer_call CVictim r' s))).
    { unfold write_back. destruct (is_dirty_ pg); [|done].
      by apply BInv_disk_call. }
    split.
    { apply (BInv_table_delete _ (page_id_ pg)) in HB2.
      unfold write_back in *. by destruct (is_dirty_ pg). }
    split; [unfold write_back; by destruct (is_dirty_ pg)|].
    split; [unfold write_back; by destruct (is_dirty_ pg)|].
    right. split; [|split].
    + split; [done|]. exists pg. split; [|done].
      unfold write_back; by destruct (is_dirty_ pg).
    + assert (free_list_ (set_page_table (delete (page_id_ pg) (page_table_ s))
                (write_back pg (replacer_call CVictim r' s))) = free_list_ s) as ->.
      { unfold write_back; by destruct (is_dirty_ pg). }
      rewrite Hfl. apply not_elem_of_nil.
    + intros p Hp. simpl in Hp. apply lookup_delete_Some in Hp as [Hne Hp].
      destruct (bi_table s HI p v Hp) as [(_ & pg' & Hpg' & Hid) _].
      congruence.
  - rewrite (pick_frame_free s f0 rest Hfl) in H. injection H as <- <-.
    split; [by apply (BInv_free_tail s f0)|].
    split; [done|]. split; [done|]. right.
    pose proof (bi_free_nodup s HI) as Hnd. rewrite Hfl in Hnd.
    apply NoDup_cons in Hnd as [Hni _].
    split; [|split].
    + apply (frame_holds_impl (pages_ s) f0 _ _ (bi_free s HI f0 ltac:(rewrite Hfl; by left))).
      by intros pg [_ ?].
    + done.
    + intros p Hp. simpl in Hp. destruct (bi_table s HI p f0 Hp) as [_ Hnf].
      apply Hnf. rewrite Hfl. by left.
Qed.

Lemma AllocatePage_Some s pid s1 :
  AllocatePage s = Some (pid, s1) ↔
  num_instances_ s ≠ 0 ∧
  to_uint32 (next_page_id_ s) mod num_instances_ s = instance_index_ s ∧
  pid = next_page_id_ s ∧ s1 = advance s.
Proof.
  unfold AllocatePage, bind, get, modify, ValidatePageId, ret, advance. simpl.
  destruct (Z.eqb_spec (num_instances_ s) 0) as [Hz|Hz].
  { split; [done|]. by intros [? _]. }
  destruct (Z.eqb_spec (to_uint32 (next_page_id_ s) mod num_instances_ s)
                       (instance_index_ s)) as [He|He].
  - split; [by intros [= <- <-]|]. by intros (_ & _ & -> & ->).
  - split; [done|]. by intros (_ & ? & _).
Qed.

Lemma NewPgImp_none s pid s1 s2 :
  AllocatePage s = Some (pid, s1) → pick_frame s1 = Some (-1, s2) →
  NewPgImp s = Some (None, s2).
Proof. intros Ha Hp. unfold NewPgImp, bind. by rewrite Ha, Hp. Qed.

Lemma NewPgImp_some s pid s1 f s2 pg r :
  AllocatePage s = Some (pid, s1) → pick_frame s1 = Some (f, s2) →
  0 <= f → pages_ s2 !! Z.to_nat f = Some pg →
  pin_count_ pg < INT32_MAX → LRU.Pin f (replacer_ s2) = Some r →
  NewPgImp s =
    Some (Some (pid, f),
          install f (mkPage zero_data pid (pin_count_ pg + 1) false) pid r s2).
Proof.
  intros Ha Hp Hf Hpg Hpin Hr. unfold NewPgImp, bind. rewrite Ha, Hp.
  destruct (Z.eqb_spec f (-1)); [lia|].
  assert (page_at f s2 = Some (pg, s2)) as -> by by apply page_at_Some.
  unfold modify, incr_pin. apply Z.ltb_lt in Hpin. rewrite Hpin.
  unfold ret, store_page, modify, replacer_Pin. simpl. by rewrite Hr.
Qed.

Lemma FetchPgImp_hit s p f pg r :
  page_table_ s !! p = Some f →
  0 <= f → pages_ s !! Z.to_nat f = Some pg →
  pin_count_ pg < INT32_MAX → LRU.Pin f (replacer_ s) = Some r →
  FetchPgImp p s =
    Some (Some f,
          replacer_call (CPin f) r
            (set_pages (<[Z.to_nat f := with_pin (pin_count_ pg + 1) pg]>
                          (pages_ s)) s)).
Proof.
  intros Hp Hf Hpg Hpin Hr. unfold FetchPgImp, bind, get. rewrite Hp.
  assert (page_at f s = Some (pg, s)) as -> by by apply page_at_Some.
  unfold incr_pin. apply Z.ltb_lt in Hpin. rewrite Hpin.
  unfold ret, store_page, modify, replacer_Pin. simpl. by rewrite Hr.
Qed.

Lemma FetchPgImp_miss_none s p s2 :
  page_table_ s !! p = None → pick_frame s = Some (-1, s2) →
  FetchPgImp p s = Some (None, s2).
Proof. intros Hp Hpick. unfold FetchPgImp, bind, get. by rewrite Hp, Hpick. Qed.

Lemma FetchPgImp_miss_some s p f s2 pg r :
  page_table_ s !! p = None → pick_frame s = Some (f, s2) →
  0 <= f → pages_ s2 !! Z.to_nat f = Some pg →
  pin_count_ pg < INT32_MAX → LRU.Pin f (replacer_ s2) = Some r →
  FetchPgImp p s =
    Some (Some f,
          install f (mkPage (default zero_data (disk_ s2 !! p)) p
                            (pin_count_ pg + 1) false) p r
            (disk_call (CReadPage p) (disk_ s2) s2)).
Proof.
  intros Hp Hpick Hf Hpg Hpin Hr. unfold FetchPgImp, bind, get.
  rewrite Hp, Hpick. destruct (Z.eqb_spec f (-1)); [lia|].
  assert (page_at f s2 = Some (pg, s2)) as -> by by apply page_at_Some.
  unfold ReadPage, modify, incr_pin. apply Z.ltb_lt in Hpin. rewrite Hpin.
  unfold ret, store_page, modify, replacer_Pin. simpl. by rewrite Hr.
Qed.

Lemma UnpinPgImp_absent s p d :
  page_table_ s !! p = None → UnpinPgImp p d s = Some (false, s).
Proof. intros Hp. unfold UnpinPgImp, bind, get. by rewrite Hp. Qed.

Lemma UnpinPgImp_unpinned s p d f pg :
  page_table_ s !! p = Some f →
  0 <= f → pages_ s !! Z.to_nat f = Some pg → pin_count_ pg <= 0 →
  UnpinPgImp p d s =
    Some (false, set_pages (<[Z.to_nat f := with_dirty d pg]> (pages_ s)) s).
Proof.
  intros Hp Hf Hpg Hpin. unfold UnpinPgImp, bind, get. rewrite Hp.
  assert (page_at f s = Some (pg, s)) as -> by by apply page_at_Some.
  unfold store_page, modify. apply Z.leb_le in Hpin. by rewrite Hpin.
Qed.

Lemma UnpinPgImp_pinned s p d f pg :
  page_table_ s !! p = Some f →
  0 <= f → pages_ s !! Z.to_nat f = Some pg → 0 < pin_count_ pg →
  UnpinPgImp p d s =
    Some (true,
          let s1 := set_pages
                      (<[Z.to_nat f :=
                           with_pin (pin_count_ pg - 1) (with_dirty d pg)]>
                         (pages_ s)) s in
          if pin_count_ pg - 1 =? 0
          then replacer_call (CUnpin f) (LRU.Unpin f (replacer_ s)) s1
          else s1).
Proof.
  intros Hp Hf Hpg Hpin. unfold UnpinPgImp, bind, get. rewrite Hp.
  assert (page_at f s = Some (pg, s)) as -> by by apply page_at_Some.
  unfold store_page, modify. simpl.
  destruct (Z.leb_spec (pin_count_ pg) 0); [lia|].
  unfold with_pin, with_dirty.
  destruct (pin_count_ pg - 1 =? 0);
    unfold replacer_Unpin, modify, ret, set_pages, replacer_call; simpl;
    by rewrite list_insert_insert_eq.
Qed.

Lemma FlushPgImp_absent s p :
  page_table_ s !! p = None → FlushPgImp p s = Some (false, s).
Proof. intros Hp. unfold FlushPgImp, bind, get. by rewrite Hp. Qed.

Lemma FlushPgImp_present s p f pg :
  page_table_ s !! p = Some f →
  0 <= f → pages_ s !! Z.to_nat f = Some pg →
  FlushPgImp p s =
    Some (true,
          set_pages (<[Z.to_nat f := with_dirty false pg]> (pages_ s))
            (disk_call (CWritePage (page_id_ pg) (data_ pg))
                       (<[page_id_ pg := data_ pg]> (disk_ s)) s)).
Proof.
  intros Hp Hf Hpg. unfold FlushPgImp, bind, get. rewrite Hp.
  assert (page_at f s = Some (pg, s)) as -> by by apply page_at_Some.
  done.
Qed.

Lemma DeletePgImp_absent s p :
  page_table_ s !! p = None → DeletePgImp p s = Some (true, s).
Proof. intros Hp. unfold DeletePgImp, bind, get. by rewrite Hp. Qed.

Lemma DeletePgImp_pinned s p f pg :
  page_table_ s !! p = Some f →
  0 <= f → pages_ s !! Z.to_nat f = Some pg → pin_count_ pg ≠ 0 →
  DeletePgImp p s = Some (false, s).
Proof.
  intros Hp Hf Hpg Hpin. unfold DeletePgImp, bind, get. rewrite Hp.
  assert (page_at f s = Some (pg, s)) as -> by by apply page_at_Some.
  by destruct (Z.eqb_spec (pin_count_ pg) 0).
Qed.

Lemma DeletePgImp_unpinned s p f pg :
  page_table_ s !! p = Some f →
  0 <= f → pages_ s !! Z.to_nat f = Some pg → pin_count_ pg = 0 →
  DeletePgImp p s =
    Some (true,
          set_page_table (delete p (page_table_ s))
            (set_free_list (free_list_ s ++ [f])
               (set_pages
                  (<[Z.to_nat f := mkPage zero_data INVALID_PAGE_ID 0 false]>
                     (pages_ s))
                  (write_back pg s)))).
Proof.
  intros Hp Hf Hpg Hpin. unfold DeletePgImp, bind, get. rewrite Hp.
  assert (page_at f s = Some (pg, s)) as -> by by apply page_at_Some.
  rewrite Hpin. simpl. unfold write_back.
  by destruct (is_dirty_ pg).
Qed.

End bpm_exec.

(** ** The manager: every operation keeps the invariant *)

Section binv_steps.
Implicit Types (s : BPMI) (f g p : Z) (pg : Page) (r : LRU.LRUReplacer).

Lemma BInv_advance s : BInv s → BInv (advance s).
Proof. intros HI. apply BInv_set_next_page_id; [done|apply to_int32_range]. Qed.

Lemma elem_of_frames_filter r f g :
  g ∈ filter (λ h, h ≠ f) (LRU.frames r) ↔ g ∈ LRU.frames r ∧ g ≠ f.
Proof. rewrite list_elem_of_filter. tauto. Qed.

Lemma BInv_write_back s pg : BInv s → BInv (write_back pg s).
Proof.
  intros HI. unfold write_back. destruct (is_dirty_ pg); [|done].
  by apply BInv_disk_call.
Qed.

Lemma install_BInv s f new_page p r :
  BInv s → frame_holds (pages_ s) f (λ _, True) → (f ∉ free_list_ s) →
  (∀ q, page_table_ s !! q ≠ Some f) →
  LRU.Pin f (replacer_ s) = Some r →
  page_id_ new_page = p → 0 <= pin_count_ new_page <= INT32_MAX →
  BInv (install f new_page p r s).
Proof.
  intros HI Hf Hfree Htab Hr Hid Hpin.
  destruct (Pin_spec (replacer_ s) f (bi_lru s HI)) as (r1 & Hr1 & HI1 & Hcap & Hfr).
  assert (r1 = r) as -> by congruence.
  assert (HA : BInv (replacer_call (CPin f) r s)).
  { apply BInv_replacer_shrink; [done|done|done|].
    intros g Hg. rewrite Hfr in Hg. by apply elem_of_frames_filter in Hg as [? _]. }
  assert (HB : BInv (set_pages (<[Z.to_nat f := new_page]> (pages_ s))
                       (replacer_call (CPin f) r s))).
  { apply (BInv_store (replacer_call (CPin f) r s) f new_page HA).
    - apply Hf.
    - by apply (frame_holds_lt _ f (λ _, True)).
    - done.
    - simpl. done.
    - simpl. rewrite Hfr. by intros [_ ?]%elem_of_frames_filter.
    - simpl. intros q Hq. by destruct (Htab q). }
  apply (BInv_table_insert _ p f) in HB; [exact HB| |done].
  simpl. apply frame_holds_store_eq; [apply Hf| |done].
  by apply (frame_holds_lt _ f (λ _, True)).
Qed.

Lemma meta_lookup s s' i pg' :
  meta s' = meta s → pages_ s' !! i = Some pg' →
  ∃ pg, pages_ s !! i = Some pg ∧ page_id_ pg = page_id_ pg' ∧
        pin_count_ pg = pin_count_ pg'.
Proof.
  unfold meta. intros Hm Hl.
  assert (((λ pg, (page_id_ pg, pin_count_ pg)) <$> pages_ s) !! i
          = Some (page_id_ pg', pin_count_ pg')) as H.
  { rewrite <- Hm, list_lookup_fmap, Hl. done. }
  rewrite list_lookup_fmap in H.
  destruct (pages_ s !! i) as [pg|]; [|done].
  injection H as H1 H2. by exists pg.
Qed.

Lemma frame_holds_meta s s' f (P Q : Page → Prop) :
  meta s' = meta s →
  (∀ pg pg', page_id_ pg = page_id_ pg' → pin_count_ pg = pin_count_ pg' →
             P pg → Q pg') →
  frame_holds (pages_ s) f P → frame_holds (pages_ s') f Q.
Proof.
  intros Hm HPQ (Hf & pg & Hl & HP). split; [done|].
  destruct (pages_ s' !! Z.to_nat f) as [pg'|] eqn:E.
  - exists pg'. split; [done|].
    destruct (meta_lookup s s' _ pg' Hm E) as (pg0 & Hl0 & ? & ?).
    assert (pg0 = pg) as -> by congruence. by apply (HPQ pg).
  - exfalso. apply lookup_ge_None in E. apply lookup_lt_Some in Hl.
    assert (length (meta s') = length (meta s)) as Hlen by by rewrite Hm.
    unfold meta in Hlen. rewrite !length_fmap in Hlen. lia.
Qed.

Lemma same_core_sym s s' : same_core s s' → same_core s' s.
Proof. intros []. by constructor. Qed.

Lemma BInv_same_core s s' : same_core s s' → BInv s → BInv s'.
Proof.
  intros [Hp Hn Hi Hx Hr Hf Ht Hm] HI. binv HI.
  constructor; rewrite ?Hp, ?Hn, ?Hi, ?Hx, ?Hr, ?Hf, ?Ht; try done.
  - assert (length (meta s') = length (meta s)) as Hlen by by rewrite Hm.
    unfold meta in Hlen. rewrite !length_fmap in Hlen. congruence.
  - intros f Hin. apply (frame_holds_meta s s' f _ _ Hm) with (2 := bi_free0 f Hin).
    intros pg pg' H1 H2 [? ?]. split; congruence.
  - intros p f Hpf. destruct (bi_table0 p f Hpf) as [H1 H2]. split; [|done].
    apply (frame_holds_meta s s' f _ _ Hm) with (2 := H1).
    intros pg pg' ? ? ?. congruence.
  - intros i pg' Hl. destruct (meta_lookup s s' i pg' Hm Hl) as (pg & Hl0 & _ & Hpin).
    rewrite <- Hpin. eauto.
  - intros f Hin. apply (frame_holds_meta s s' f _ _ Hm) with (2 := bi_evictable0 f Hin).
    intros pg pg' ? ? ?. congruence.
Qed.

Lemma meta_store_same s f pg pg' :
  pages_ s !! Z.to_nat f = Some pg →
  page_id_ pg' = page_id_ pg → pin_count_ pg' = pin_count_ pg →
  (λ q, (page_id_ q, pin_count_ q)) <$> <[Z.to_nat f := pg']> (pages_ s)
  = meta s.
Proof.
  intros Hl H1 H2. unfold meta. rewrite list_fmap_insert, H1, H2.
  apply list_insert_id. by rewrite list_lookup_fmap, Hl.
Qed.

(** *** Case analyses of the operations on a well-formed state *)

Lemma NewPgImp_cases s res s' :
  BInv s → NewPgImp s = Some (res, s') →
  AllocatePage s = Some (next_page_id_ s, advance s) ∧
  ∃ f s2, pick_frame (advance s) = Some (f, s2) ∧ BInv s2 ∧
    ((f = -1 ∧ res = None ∧ s' = s2) ∨
     (∃ pg r, 0 <= f ∧ pages_ s2 !! Z.to_nat f = Some pg ∧
        pin_count_ pg = 0 ∧ (f ∉ free_list_ s2) ∧
        (∀ q, page_table_ s2 !! q ≠ Some f) ∧
        LRU.Pin f (replacer_ s2) = Some r ∧
        res = Some (next_page_id_ s, f) ∧
        s' = install f (mkPage zero_data (next_page_id_ s) 1 false)
                     (next_page_id_ s) r s2)).
Proof.
  intros HI H. pose proof H as H0. unfold NewPgImp in H.
  apply bind_Some in H as (pid & s1 & Ha & H).
  apply bind_Some in H as (f & s2 & Hp & H).
  apply AllocatePage_Some in Ha as Ha'. destruct Ha' as (_ & _ & -> & ->).
  split; [done|]. exists f, s2. split; [done|].
  destruct (pick_frame_inv _ f s2 (BInv_advance s HI) Hp)
    as (HI2 & Hpages & _ & [(-> & _)|(Hfh & Hfree & Htab)]).
  - split; [done|]. left. simpl in H. by injection H as <- <-.
  - split; [done|]. right. destruct Hfh as (Hf & pg & Hpg & Hpin).
    destruct (Pin_spec (replacer_ s2) f (bi_lru s2 HI2)) as (r & Hr & _).
    exists pg, r.
    rewrite (NewPgImp_some s _ _ f s2 pg r Ha Hp Hf Hpg) in H0;
      [|rewrite Hpin; done|done].
    rewrite Hpin in H0. simpl in H0. by injection H0 as <- <-.
Qed.

Lemma FetchPgImp_cases s p res s' :
  BInv s → FetchPgImp p s = Some (res, s') →
  (∃ f pg r, page_table_ s !! p = Some f ∧ 0 <= f ∧
     pages_ s !! Z.to_nat f = Some pg ∧ page_id_ pg = p ∧
     pin_count_ pg < INT32_MAX ∧
     LRU.Pin f (replacer_ s) = Some r ∧ res = Some f ∧
     s' = replacer_call (CPin f) r
            (set_pages (<[Z.to_nat f := with_pin (pin_count_ pg + 1) pg]>
                          (pages_ s)) s)) ∨
  (page_table_ s !! p = None ∧
   ∃ f s2, pick_frame s = Some (f, s2) ∧ BInv s2 ∧
     ((f = -1 ∧ res = None ∧ s' = s2) ∨
      (∃ pg r, 0 <= f ∧ pages_ s2 !! Z.to_nat f = Some pg ∧
         pin_count_ pg = 0 ∧ (f ∉ free_list_ s2) ∧
         (∀ q, page_table_ s2 !! q ≠ Some f) ∧
         LRU.Pin f (replacer_ s2) = Some r ∧ res = Some f ∧
         s' = install f (mkPage (default zero_data (disk_ s2 !! p)) p 1 false)
                      p r (disk_call (CReadPage p) (disk_ s2) s2)))).
Proof.
  intros HI H. pose proof H as H0. unfold FetchPgImp in H.
  apply bind_Some in H as (s0 & s1 & [= <- <-] & H).
  destruct (page_table_ s !! p) as [f|] eqn:Hp.
  - left. destruct (bi_table s HI p f Hp) as [(Hf & pg & Hpg & Hid) _].
    destruct (Pin_spec (replacer_ s) f (bi_lru s HI)) as (r & Hr & _).
    exists f, pg, r.
    apply bind_Some in H as (pg1 & s1 & Hpa & H).
    apply page_at_Some in Hpa as (_ & Hpg1 & ->).
    assert (pg1 = pg) as -> by congruence.
    apply bind_Some in H as (k & s1 & Hk & _).
    assert (Hlt : pin_count_ pg < INT32_MAX).
    { unfold incr_pin in Hk. by destruct (Z.ltb_spec (pin_count_ pg) INT32_MAX). }
    rewrite (FetchPgImp_hit s p f pg r Hp Hf Hpg Hlt Hr) in H0.
    by injection H0 as <- <-.
  - right. split; [done|].
    apply bind_Some in H as (f & s2 & Hpick & H). exists f, s2.
    split; [done|].
    destruct (pick_frame_inv _ f s2 HI Hpick)
      as (HI2 & Hpages & _ & [(-> & _)|(Hfh & Hfree & Htab)]).
    + split; [done|]. left. simpl in H. by injection H as <- <-.
    + split; [done|]. right. destruct Hfh as (Hf & pg & Hpg & Hpin).
      destruct (Pin_spec (replacer_ s2) f (bi_lru s2 HI2)) as (r & Hr & _).
      exists pg, r.
      rewrite (FetchPgImp_miss_some s p f s2 pg r Hp Hpick Hf Hpg) in H0;
        [|rewrite Hpin; done|done].
      rewrite Hpin in H0. simpl in H0. by injection H0 as <- <-.
Qed.

Lemma UnpinPgImp_cases s p d res s' :
  BInv s → UnpinPgImp p d s = Some (res, s') →
  (page_table_ s !! p = None ∧ res = false ∧ s' = s) ∨
  (∃ f pg, page_table_ s !! p = Some f ∧ 0 <= f ∧
     pages_ s !! Z.to_nat f = Some pg ∧ page_id_ pg = p ∧
     ((pin_count_ pg = 0 ∧ res = false ∧
       s' = set_pages (<[Z.to_nat f := with_dirty d pg]> (pages_ s)) s) ∨
      (0 < pin_count_ pg ∧ res = true ∧
       s' = let s1 := set_pages
                        (<[Z.to_nat f :=
                             with_pin (pin_count_ pg - 1) (with_dirty d pg)]>
                           (pages_ s)) s in
            if pin_count_ pg - 1 =? 0
            then replacer_call (CUnpin f) (LRU.Unpin f (replacer_ s)) s1
            else s1))).
Proof.
  intros HI H. destruct (page_table_ s !! p) as [f|] eqn:Hp.
  - right. destruct (bi_table s HI p f Hp) as [(Hf & pg & Hpg & Hid) _].
    exists f, pg. do 4 (split; [done|]).
    pose proof (bi_pin s HI _ pg Hpg) as Hrange.
    destruct (decide (pin_count_ pg = 0)) as [Hz|Hnz].
    + left. rewrite (UnpinPgImp_unpinned s p d f pg Hp Hf Hpg) in H by lia.
      by injection H as <- <-.
    + right. rewrite (UnpinPgImp_pinned s p d f pg Hp Hf Hpg) in H by lia.
      injection H as <- <-. split; [lia|done].
  - left. rewrite UnpinPgImp_absent in H by done. by injection H as <- <-.
Qed.

Lemma FlushPgImp_cases s p res s' :
  BInv s → FlushPgImp p s = Some (res, s') →
  (page_table_ s !! p = None ∧ res = false ∧ s' = s) ∨
  (∃ f pg, page_table_ s !! p = Some f ∧ 0 <= f ∧
     pages_ s !! Z.to_nat f = Some pg ∧ page_id_ pg = p ∧ res = true ∧
     s' = set_pages (<[Z.to_nat f := with_dirty false pg]> (pages_ s))
            (disk_call (CWritePage p (data_ pg))
                       (<[p := data_ pg]> (disk_ s)) s)).
Proof.
  intros HI H. destruct (page_table_ s !! p) as [f|] eqn:Hp.
  - right. destruct (bi_table s HI p f Hp) as [(Hf & pg & Hpg & Hid) _].
    exists f, pg. do 4 (split; [done|]).
    rewrite (FlushPgImp_present s p f pg Hp Hf Hpg), Hid in H.
    by injection H as <- <-.
  - left. rewrite FlushPgImp_absent in H by done. by injection H as <- <-.
Qed.

Lemma DeletePgImp_cases s p res s' :
  BInv s → DeletePgImp p s = Some (res, s') →
  (page_table_ s !! p = None ∧ res = true ∧ s' = s) ∨
  (∃ f pg, page_table_ s !! p = Some f ∧ 0 <= f ∧
     pages_ s !! Z.to_nat f = Some pg ∧ page_id_ pg = p ∧
     ((pin_count_ pg ≠ 0 ∧ res = false ∧ s' = s) ∨
      (pin_count_ pg = 0 ∧ res = true ∧
       s' = set_page_table (delete p (page_table_ s))
              (set_free_list (free_list_ s ++ [f])
                 (set_pages
                    (<[Z.to_nat f := mkPage zero_data INVALID_PAGE_ID 0 false]>
                       (pages_ s))
                    (write_back pg s)))))).
Proof.
  intros HI H. destruct (page_table_ s !! p) as [f|] eqn:Hp.
  - right. destruct (bi_table s HI p f Hp) as [(Hf & pg & Hpg & Hid) _].
    exists f, pg. do 4 (split; [done|]).
    destruct (decide (pin_count_ pg = 0)) as [Hz|Hnz].
    + right. rewrite (DeletePgImp_unpinned s p f pg Hp Hf Hpg Hz) in H.
      by injection H as <- <-.
    + left. rewrite (DeletePgImp_pinned s p f pg Hp Hf Hpg Hnz) in H.
      by injection H as <- <-.
  - left. rewrite DeletePgImp_absent in H by done. by injection H as <- <-.
Qed.

End binv_steps.

Section binv_preserved.
Implicit Types (s : BPMI) (f g p : Z) (pg : Page) (r : LRU.LRUReplacer).

Lemma same_core_refl s : same_core s s.
Proof. by constructor. Qed.

Lemma same_core_trans s1 s2 s3 :
  same_core s1 s2 → same_core s2 s3 → same_core s1 s3.
Proof. intros [] []. constructor; congruence. Qed.

(** Rewriting a frame's data or dirty flag, and touching the disk, stay
    within [same_core]. *)
Lemma same_core_store s f pg pg' :
  pages_ s !! Z.to_nat f = Some pg →
  page_id_ pg' = page_id_ pg → pin_count_ pg' = pin_count_ pg →
  same_core s (set_pages (<[Z.to_nat f := pg']> (pages_ s)) s).
Proof.
  intros Hl H1 H2. constructor; try done.
  unfold meta at 1. simpl. by apply meta_store_same with pg.
Qed.

Lemma same_core_disk_call s c d : same_core s (disk_call c d s).
Proof. by constructor. Qed.

Lemma same_core_flush s f pg c d :
  pages_ s !! Z.to_nat f = Some pg →
  same_core s (set_pages (<[Z.to_nat f := with_dirty false pg]> (pages_ s))
                 (disk_call c d s)).
Proof.
  intros Hl. eapply same_core_trans; [apply (same_core_disk_call s c d)|].
  by apply (same_core_store (disk_call c d s) f pg).
Qed.

Lemma flush_entries_same_core entries : ∀ s,
  BInv s →
  (∀ e, e ∈ entries → page_table_ s !! e.1 = Some e.2) →
  ∃ s', flush_entries entries s = Some (tt, s') ∧ same_core s s'.
Proof.
  induction entries as [|[p f] rest IH]; intros s HI Hent.
  - exists s. split; [done|apply same_core_refl].
  - destruct (bi_table s HI p f (Hent (p, f) (list_elem_of_here _ _)))
      as [(Hf & pg & Hpg & Hid) _].
    set (s1 := set_pages (<[Z.to_nat f := with_dirty false pg]> (pages_ s))
                 (disk_call (CWritePage (page_id_ pg) (data_ pg))
                            (<[page_id_ pg := data_ pg]> (disk_ s)) s)).
    assert (Hsc : same_core s s1) by by apply same_core_flush.
    destruct (IH s1) as (s' & Hrun & Hsc').
    { by apply (BInv_same_core s). }
    { intros e He. simpl. apply Hent. by right. }
    exists s'. split; [|by apply (same_core_trans s s1)].
    simpl. unfold bind at 1.
    assert (page_at f s = Some (pg, s)) as -> by by apply page_at_Some.
    exact Hrun.
Qed.

Lemma FlushAllPgsImp_same_core s :
  BInv s → ∃ s', FlushAllPgsImp s = Some (tt, s') ∧ same_core s s'.
Proof.
  intros HI. unfold FlushAllPgsImp, bind, get.
  apply flush_entries_same_core; [done|].
  intros [p f] He. by apply elem_of_map_to_list in He.
Qed.

Lemma NewPgImp_BInv s res s' :
  BInv s → NewPgImp s = Some (res, s') → BInv s'.
Proof.
  intros HI H.
  destruct (NewPgImp_cases s res s' HI H)
    as (_ & f & s2 & _ & HI2 &
        [(_ & _ & ->)|(pg & r & Hf & Hpg & Hpin & Hfree & Htab & Hr & _ & ->)]);
    [done|].
  apply install_BInv;
    first [ done | by (split; [done|]; exists pg)
          | simpl; unfold INT32_MAX; lia ].
Qed.

Lemma FetchPgImp_BInv s p res s' :
  BInv s → FetchPgImp p s = Some (res, s') → BInv s'.
Proof.
  intros HI H.
  destruct (FetchPgImp_cases s p res s' HI H)
    as [(f & pg & r & Hp & Hf & Hpg & Hid & Hlt & Hr & _ & ->)|
        (_ & f & s2 & _ & HI2 &
         [(_ & _ & ->)|(pg & r & Hf & Hpg & Hpin & Hfree & Htab & Hr & _ & ->)])].
  - destruct (Pin_spec (replacer_ s) f (bi_lru s HI)) as (r1 & Hr1 & HI1 & Hcap & Hfr).
    assert (r1 = r) as -> by congruence.
    assert (HA : BInv (replacer_call (CPin f) r s)).
    { apply BInv_replacer_shrink; [done|done|done|].
      intros g Hg. rewrite Hfr in Hg.
      by apply elem_of_frames_filter in Hg as [? _]. }
    apply (BInv_store (replacer_call (CPin f) r s) f _ HA); simpl.
    + done.
    + by apply lookup_lt_Some in Hpg.
    + pose proof (bi_pin s HI _ pg Hpg). lia.
    + intros Hin. by destruct (bi_table s HI p f Hp) as [_ ?].
    + rewrite Hfr. by intros [_ ?]%elem_of_frames_filter.
    + intros q Hq. destruct (bi_table s HI q f Hq) as [(_ & pg' & ? & ?) _].
      congruence.
  - done.
  - apply install_BInv;
      first [ done | by apply BInv_disk_call
            | by (split; [done|]; exists pg)
            | simpl; unfold INT32_MAX; lia ].
Qed.

Lemma UnpinPgImp_BInv s p d res s' :
  BInv s → UnpinPgImp p d s = Some (res, s') → BInv s'.
Proof.
  intros HI H.
  destruct (UnpinPgImp_cases s p d res s' HI H)
    as [(_ & _ & ->)|(f & pg & Hp & Hf & Hpg & Hid &
          [(Hz & _ & ->)|(Hpos & _ & ->)])]; [done| |].
  - apply (BInv_same_core s); [|done]. by apply same_core_store with pg.
  - pose proof (bi_pin s HI _ pg Hpg) as Hrange.
    assert (HA : BInv (set_pages
                         (<[Z.to_nat f := with_pin (pin_count_ pg - 1)
                                            (with_dirty d pg)]> (pages_ s)) s)).
    { apply BInv_store; simpl; try done.
      - by apply lookup_lt_Some in Hpg.
      - lia.
      - intros Hin. by destruct (bi_table s HI p f Hp) as [_ ?].
      - intros Hin. destruct (bi_evictable s HI f Hin) as (_ & pg' & ? & ?).
        assert (pg' = pg) by congruence. subst. lia.
      - intros q Hq. destruct (bi_table s HI q f Hq) as [(_ & pg' & ? & ?) _].
        congruence. }
    simpl. destruct (Z.eqb_spec (pin_count_ pg - 1) 0) as [Hz|Hnz]; [|done].
    apply (BInv_replacer_Unpin _ f HA). simpl.
    apply frame_holds_store_eq; [done|by apply lookup_lt_Some in Hpg|done].
Qed.

Lemma FlushPgImp_BInv s p res s' :
  BInv s → FlushPgImp p s = Some (res, s') → BInv s'.
Proof.
  intros HI H.
  destruct (FlushPgImp_cases s p res s' HI H)
    as [(_ & _ & ->)|(f & pg & Hp & Hf & Hpg & Hid & _ & ->)]; [done|].
  apply (BInv_same_core s); [|done]. by apply same_core_flush.
Qed.

Lemma FlushAllPgsImp_BInv s res s' :
  BInv s → FlushAllPgsImp s = Some (res, s') → BInv s'.
Proof.
  intros HI H. destruct (FlushAllPgsImp_same_core s HI) as (s1 & H1 & Hsc).
  rewrite H1 in H. injection H as _ <-. by apply (BInv_same_core s).
Qed.

Lemma DeletePgImp_BInv s p res s' :
  BInv s → DeletePgImp p s = Some (res, s') → BInv s'.
Proof.
  intros HI H.
  destruct (DeletePgImp_cases s p res s' HI H)
    as [(_ & _ & ->)|(f & pg & Hp & Hf & Hpg & Hid &
          [(_ & _ & ->)|(Hz & _ & ->)])]; [done|done|].
  assert (Hlt : (Z.to_nat f < length (pages_ s))%nat)
    by by apply lookup_lt_Some in Hpg.
  assert (Huniq : ∀ q, page_table_ s !! q = Some f → q = p).
  { intros q Hq. destruct (bi_table s HI q f Hq) as [(_ & pg' & ? & ?) _].
    congruence. }
  assert (HA : BInv (set_page_table (delete p (page_table_ s)) (write_back pg s))).
  { pose proof (BInv_table_delete _ p (BInv_write_back s pg HI)) as HA.
    unfold write_back in *. by destruct (is_dirty_ pg). }
  assert (Hwb : ∀ (A : Type) (h : BPMI → A),
             (∀ c dk, h (disk_call c dk s) = h s) →
             h (write_back pg s) = h s).
  { intros A h Hh. unfold write_back. by destruct (is_dirty_ pg). }
  assert (HB : BInv (set_pages
                       (<[Z.to_nat f := mkPage zero_data INVALID_PAGE_ID 0 false]>
                          (pages_ s))
                       (set_page_table (delete p (page_table_ s))
                          (write_back pg s)))).
  { pose proof (BInv_store _ f (mkPage zero_data INVALID_PAGE_ID 0 false) HA Hf)
      as HB. simpl in HB.
    rewrite (Hwb _ pages_) in HB by done. apply HB; clear HB.
    - done.
    - simpl. unfold INT32_MAX. lia.
    - done.
    - done.
    - intros q [Hne Hq]%lookup_delete_Some.
        by destruct Hne; symmetry; apply Huniq. }
  pose proof (BInv_free_append _ f HB) as HC. simpl in HC.
  rewrite (Hwb _ free_list_) in HC by done.
  apply HC.
  - by destruct (bi_table s HI p f Hp) as [_ ?].
  - by apply frame_holds_store_eq.
  - intros q [Hne Hq]%lookup_delete_Some.
    by destruct Hne; symmetry; apply Huniq.
Qed.

End binv_preserved.

Section reach_binv.
Implicit Types (s : BPMI) (f g p : Z) (pg : Page) (r : LRU.LRUReplacer).

Lemma step_BInv o s s' : BInv s → step o s = Some s' → BInv s'.
Proof.
  intros HI H. unfold step, drop in H.
  destruct o as [|p|p d|p| |p]; simpl in H;
    match type of H with
    | snd <$> ?m = _ => destruct m as [[res s1]|] eqn:E; [|done]
    end; simpl in H; injection H as <-.
  - by apply (NewPgImp_BInv s res).
  - by apply (FetchPgImp_BInv s p res).
  - by apply (UnpinPgImp_BInv s p d res).
  - by apply (FlushPgImp_BInv s p res).
  - by apply (FlushAllPgsImp_BInv s res).
  - by apply (DeletePgImp_BInv s p res).
Qed.

Lemma initial_free_list pool_size :
  Z.of_nat pool_size <= INT32_MAX →
  map (λ i, to_int32 (Z.of_nat i)) (seq 0 pool_size)
  = Z.of_nat <$> seq 0 pool_size.
Proof.
  intros Hp. apply map_ext_in. intros i Hi%in_seq.
  apply to_int32_id. unfold INT32_MAX in Hp. lia.
Qed.

Lemma elem_of_initial_free_list pool_size f :
  f ∈ Z.of_nat <$> seq 0 pool_size ↔ 0 <= f < Z.of_nat pool_size.
Proof.
  rewrite list_elem_of_fmap. split.
  - intros (i & -> & Hi%elem_of_seq). lia.
  - intros Hf. exists (Z.to_nat f). split; [lia|].
    apply elem_of_seq. lia.
Qed.

Lemma create_inv pool_size num_instances instance_index disk s :
  valid_config pool_size num_instances instance_index →
  create pool_size num_instances instance_index disk = Some s →
  BInv s ∧ Tracked s ∧ Covered s.
Proof.
  intros (Hpool & Hnum & Hidx) Hc. unfold create in Hc.
  destruct (Z.ltb_spec 0 num_instances); [|lia].
  destruct (Z.ltb_spec instance_index num_instances); [|lia].
  simpl in Hc. injection Hc as <-.
  rewrite (initial_free_list pool_size Hpool).
  split; [|split].
  - constructor; simpl; try done.
    + by rewrite length_replicate.
    + apply to_int32_range.
    + apply Inv_create.
    + apply NoDup_fmap_2; [apply Nat2Z.inj'|apply NoDup_seq].
    + intros f Hf%elem_of_initial_free_list. split; [lia|].
      exists fresh_page. split; [|done].
      apply lookup_replicate. split; [done|lia].
    + intros i pg [-> _]%lookup_replicate. simpl. unfold INT32_MAX. lia.
    + intros f Hf. by apply elem_of_nil in Hf.
  - intros i pg [_ Hi]%lookup_replicate _. left. simpl.
    apply elem_of_initial_free_list. lia.
  - constructor; simpl; [|done].
    intros i Hi. left. apply elem_of_initial_free_list. lia.
Qed.

Lemma reachable_BInv s : reachable s → BInv s.
Proof.
  induction 1 as [ps n idx disk s Hv Hc|o s s' _ IH Hstep].
  - by destruct (create_inv ps n idx disk s Hv Hc).
  - by apply (step_BInv o s).
Qed.

Lemma run_BInv ops : ∀ s s', BInv s → run ops s = Some s' → BInv s'.
Proof.
  induction ops as [|o rest IH]; intros s s' HI H; simpl in H.
  - by injection H as <-.
  - destruct (step o s) as [s1|] eqn:E; [|done].
    apply (IH s1); [|done]. by apply (step_BInv o s).
Qed.

Lemma run_reachable ops : ∀ s s', reachable s → run ops s = Some s' → reachable s'.
Proof.
  induction ops as [|o rest IH]; intros s s' HR H; simpl in H.
  - by injection H as <-.
  - destruct (step o s) as [s1|] eqn:E; [|done].
    apply (IH s1); [|done]. by apply (reach_step o s).
Qed.

End reach_binv.

(** ** The manager: the paths of frame selection *)

Section pick_paths.
Implicit Types (s : BPMI) (f g p : Z) (pg : Page) (r : LRU.LRUReplacer).

Lemma write_back_pages pg s : pages_ (write_back pg s) = pages_ s.
Proof. unfold write_back. by destruct (is_dirty_ pg). Qed.

Lemma write_back_free_list pg s : free_list_ (write_back pg s) = free_list_ s.
Proof. unfold write_back. by destruct (is_dirty_ pg). Qed.

Lemma write_back_page_table pg s :
  page_table_ (write_back pg s) = page_table_ s.
Proof. unfold write_back. by destruct (is_dirty_ pg). Qed.

Lemma write_back_replacer pg s : replacer_ (write_back pg s) = replacer_ s.
Proof. unfold write_back. by destruct (is_dirty_ pg). Qed.

Lemma write_back_next_page_id pg s :
  next_page_id_ (write_back pg s) = next_page_id_ s.
Proof. unfold write_back. by destruct (is_dirty_ pg). Qed.

Lemma write_back_config pg s :
  pool_size_ (write_back pg s) = pool_size_ s ∧
  num_instances_ (write_back pg s) = num_instances_ s ∧
  instance_index_ (write_back pg s) = instance_index_ s.
Proof. unfold write_back. by destruct (is_dirty_ pg). Qed.

Lemma write_back_calls pg s :
  calls_ (write_back pg s)
  = (if is_dirty_ pg then [CWritePage (page_id_ pg) (data_ pg)] else [])
    ++ calls_ s.
Proof. unfold write_back. by destruct (is_dirty_ pg). Qed.

Lemma write_back_disk pg s :
  disk_ (write_back pg s)
  = if is_dirty_ pg then <[page_id_ pg := data_ pg]> (disk_ s) else disk_ s.
Proof. unfold write_back. by destruct (is_dirty_ pg). Qed.

Lemma pick_frame_paths s :
  BInv s → ∃ f s2, pick_frame s = Some (f, s2) ∧ pick_path s f s2.
Proof.
  intros HI. destruct (free_list_ s) as [|f0 rest] eqn:Hfl.
  - destruct (is_all_spinned s) eqn:Hall.
    { exists (-1), s. split; [by apply pick_frame_all_pinned|].
      by apply path_all_pinned. }
    destruct (Victim_cases (replacer_ s) (bi_lru s HI))
      as [[Hnil Hv]|(fs & v & r' & Hfs & Hv & Hfs' & _ & Hcap & HI')].
    { exists (-1), (replacer_call CVictim (replacer_ s) s).
      split; [by apply (pick_frame_declined s (replacer_ s))|].
      by apply path_declined. }
    assert (Hvin : v ∈ LRU.frames (replacer_ s)).
    { rewrite Hfs. apply elem_of_app. right. by left. }
    destruct (bi_evictable s HI v Hvin) as (Hv0 & pg & Hpg & Hpin).
    eexists v, _. split; [by apply (pick_frame_victim s v r' pg)|].
    by apply (path_victim s v _ fs r' pg).
  - exists f0, (set_free_list rest s). split; [by apply pick_frame_free|].
    by apply (path_free s f0 _ rest).
Qed.

Lemma pick_frame_path s f s2 :
  BInv s → pick_frame s = Some (f, s2) → pick_path s f s2.
Proof.
  intros HI H. destruct (pick_frame_paths s HI) as (f' & s2' & H' & Hp).
  rewrite H in H'. by injection H' as <- <-.
Qed.

Lemma pick_path_config s f s2 :
  pick_path s f s2 →
  pool_size_ s2 = pool_size_ s ∧ num_instances_ s2 = num_instances_ s ∧
  instance_index_ s2 = instance_index_ s ∧
  next_page_id_ s2 = next_page_id_ s ∧ pages_ s2 = pages_ s.
Proof.
  intros [rest _ ->| _ _ _ ->| _ _ _ _ _ ->|fs r pg _ _ _ _ _ _ _ _ ->]; try done.
  simpl. destruct (write_back_config pg (replacer_call CVictim r s)) as (-> & -> & ->).
  by rewrite write_back_next_page_id, write_back_pages.
Qed.

End pick_paths.

(** ** The manager: unpinned frames are tracked *)

Section tracked.
Implicit Types (s : BPMI) (f g p : Z) (pg : Page) (r : LRU.LRUReplacer).

Lemma frames_Unpin_mono r f g :
  g ∈ LRU.frames r → g ∈ LRU.frames (LRU.Unpin f r).
Proof.
  intros Hg. unfold LRU.Unpin. destruct (_ || _); [done|].
  unfold LRU.frames. simpl. by right.
Qed.

Lemma frames_in_range s g :
  BInv s → g ∈ LRU.frames (replacer_ s) → 0 <= g < Z.of_nat (pool_size_ s).
Proof.
  intros HI Hg. pose proof (bi_evictable s HI g Hg) as Hh.
  pose proof (frame_holds_lt _ _ _ Hh) as Hlt. rewrite (bi_len s HI) in Hlt.
  destruct Hh as [? _]. lia.
Qed.

(** At most [pool_size_] distinct frame ids lie in range. *)
Lemma pigeonhole (l : list Z) (n : nat) :
  NoDup l → (∀ g, g ∈ l → 0 <= g < Z.of_nat n) → (length l <= n)%nat.
Proof.
  intros Hnd Hr.
  assert (NoDup (Z.to_nat <$> l)) as Hnd'.
  { apply NoDup_fmap_2_strong; [|done].
    intros x y Hx%Hr Hy%Hr Heq. lia. }
  assert (Z.to_nat <$> l ⊆+ seq 0 n) as Hsub.
  { apply NoDup_submseteq; [done|].
    intros x (g & -> & Hg%Hr)%list_elem_of_fmap. apply elem_of_seq. lia. }
  apply submseteq_length in Hsub. by rewrite length_fmap, length_seq in Hsub.
Qed.

(** [Unpin] of an in-range frame always leaves it evictable: the replacer
    is never full of other frames. *)
Lemma Unpin_tracks s f :
  BInv s → 0 <= f < Z.of_nat (pool_size_ s) →
  f ∈ LRU.frames (LRU.Unpin f (replacer_ s)).
Proof.
  intros HI Hf.
  destruct (decide (f ∈ LRU.frames (replacer_ s))) as [Hin|Hni].
  { by apply frames_Unpin_mono. }
  destruct (decide (length (LRU.frames (replacer_ s))
                    = LRU.capacity_ (replacer_ s))) as [Hfull|Hroom].
  - exfalso. rewrite (bi_cap s HI) in Hfull.
    assert (length (f :: LRU.frames (replacer_ s)) <= pool_size_ s)%nat as Hle.
    { apply pigeonhole.
      - apply NoDup_cons. split; [done|]. apply Inv_NoDup_frames, HI.
      - intros g [->|Hg]%elem_of_cons; [done|]. by apply frames_in_range. }
    simpl in Hle. lia.
  - destruct (Unpin_fresh _ f (bi_lru s HI) Hni Hroom) as [-> _]. by left.
Qed.

Lemma Tracked_same_core s s' : same_core s s' → Tracked s → Tracked s'.
Proof.
  intros [_ _ _ _ Hr Hf _ Hm] HT i pg' Hl Hpin. rewrite Hr, Hf.
  destruct (meta_lookup s s' i pg' Hm Hl) as (pg & Hl0 & _ & Hp).
  apply (HT i pg Hl0). congruence.
Qed.

Lemma Tracked_but_absent s : Tracked s ↔ Tracked_but (-1) s.
Proof.
  split.
  - intros HT i pg Hl Hp _. eauto.
  - intros HT i pg Hl Hp. apply (HT i pg Hl Hp). lia.
Qed.

Lemma pick_path_Tracked s f s2 :
  Tracked s → pick_path s f s2 → Tracked_but f s2.
Proof.
  intros HT [rest Hfl ->| _ _ -> ->| _ _ _ _ -> ->|fs r pg _ _ _ Hfs Hfs' _ _ _ ->].
  - intros i pg Hl Hp Hne. simpl in *.
    destruct (HT i pg Hl Hp) as [Hin|Hin]; [|by right].
    rewrite Hfl in Hin. apply elem_of_cons in Hin as [?|?]; [done|by left].
  - by apply Tracked_but_absent.
  - by apply Tracked_but_absent.
  - intros i pg' Hl Hp Hne. simpl in *.
    rewrite write_back_pages in Hl. rewrite write_back_free_list.
    rewrite write_back_replacer. simpl in *.
    destruct (HT i pg' Hl Hp) as [Hin|Hin]; [by left|]. right.
    rewrite Hfs in Hin. rewrite Hfs'.
    apply elem_of_app in Hin as [?|?%list_elem_of_singleton]; done.
Qed.

Lemma install_Tracked s f new_page p r :
  BInv s → Tracked_but f s → 0 <= f →
  LRU.Pin f (replacer_ s) = Some r → pin_count_ new_page ≠ 0 →
  Tracked (install f new_page p r s).
Proof.
  intros HI HT Hf Hr Hpin i pg Hl Hp. simpl in *.
  destruct (Pin_spec (replacer_ s) f (bi_lru s HI)) as (r1 & Hr1 & _ & _ & Hfr).
  assert (r1 = r) as -> by congruence.
  destruct (decide (i = Z.to_nat f)) as [->|Hne].
  - apply list_lookup_insert_Some in Hl as [(_ & <- & _)|(? & _)]; done.
  - rewrite list_lookup_insert_ne in Hl by done.
    destruct (HT i pg Hl Hp) as [?|?]; [lia|by left|]. right.
    rewrite Hfr. apply elem_of_frames_filter. split; [done|lia].
Qed.

Lemma Tracked_but_disk_call f c d s :
  Tracked_but f s → Tracked_but f (disk_call c d s).
Proof. done. Qed.

Lemma NewPgImp_Tracked s res s' :
  BInv s → Tracked s → NewPgImp s = Some (res, s') → Tracked s'.
Proof.
  intros HI HT H.
  destruct (NewPgImp_cases s res s' HI H)
    as (_ & f & s2 & Hpick & HI2 & Hcase).
  apply pick_frame_path in Hpick; [|by apply BInv_advance].
  apply pick_path_Tracked in Hpick; [|done].
  destruct Hcase as [(-> & _ & ->)|(pg & r & Hf & _ & _ & _ & _ & Hr & _ & ->)].
  - by apply Tracked_but_absent.
  - by apply install_Tracked.
Qed.

Lemma FetchPgImp_Tracked s p res s' :
  BInv s → Tracked s → FetchPgImp p s = Some (res, s') → Tracked s'.
Proof.
  intros HI HT H.
  destruct (FetchPgImp_cases s p res s' HI H)
    as [(f & pg & r & Hp & Hf & Hpg & Hid & Hlt & Hr & _ & ->)|
        (_ & f & s2 & Hpick & HI2 & Hcase)].
  - destruct (Pin_spec (replacer_ s) f (bi_lru s HI)) as (r1 & Hr1 & _ & _ & Hfr).
    assert (r1 = r) as -> by congruence.
    pose proof (bi_pin s HI _ pg Hpg) as Hrange.
    intros i pg' Hl Hpin. simpl in *.
    destruct (decide (i = Z.to_nat f)) as [->|Hne].
    + apply list_lookup_insert_Some in Hl as [(_ & <- & _)|(? & _)]; [|done].
      simpl in Hpin. lia.
    + rewrite list_lookup_insert_ne in Hl by done.
      destruct (HT i pg' Hl Hpin) as [?|?]; [by left|]. right.
      rewrite Hfr. apply elem_of_frames_filter. split; [done|lia].
  - apply pick_frame_path in Hpick; [|done].
    apply pick_path_Tracked in Hpick; [|done].
    destruct Hcase as [(-> & _ & ->)|(pg & r & Hf & _ & _ & _ & _ & Hr & _ & ->)].
    + by apply Tracked_but_absent.
    + apply install_Tracked; try done. by apply BInv_disk_call.
Qed.

Lemma UnpinPgImp_Tracked s p d res s' :
  BInv s → Tracked s → UnpinPgImp p d s = Some (res, s') → Tracked s'.
Proof.
  intros HI HT H.
  destruct (UnpinPgImp_cases s p d res s' HI H)
    as [(_ & _ & ->)|(f & pg & Hp & Hf & Hpg & Hid &
          [(Hz & _ & ->)|(Hpos & _ & ->)])]; [done| |].
  - apply (Tracked_same_core s); [|done]. by apply same_core_store with pg.
  - assert (Hlt : (Z.to_nat f < length (pages_ s))%nat)
      by by apply lookup_lt_Some in Hpg.
    intros i pg' Hl Hpin.
    assert (Hl' : <[Z.to_nat f := with_pin (pin_count_ pg - 1) (with_dirty d pg)]>
                    (pages_ s) !! i = Some pg').
    { revert Hl. simpl. by destruct (pin_count_ pg - 1 =? 0). }
    clear Hl. destruct (decide (i = Z.to_nat f)) as [->|Hne].
    + rewrite list_lookup_insert_eq in Hl' by done. injection Hl' as <-.
      simpl in Hpin. simpl. apply Z.eqb_eq in Hpin as Hb. rewrite Hb. simpl.
      right. rewrite Z2Nat.id by done. apply Unpin_tracks; [done|].
      rewrite <- (bi_len s HI). lia.
    + rewrite list_lookup_insert_ne in Hl' by done.
      destruct (HT i pg' Hl' Hpin) as [Hin|Hin];
        simpl; destruct (pin_count_ pg - 1 =? 0); simpl; auto.
      right. by apply frames_Unpin_mono.
Qed.

Lemma FlushPgImp_Tracked s p res s' :
  BInv s → Tracked s → FlushPgImp p s = Some (res, s') → Tracked s'.
Proof.
  intros HI HT H.
  destruct (FlushPgImp_cases s p res s' HI H)
    as [(_ & _ & ->)|(f & pg & Hp & Hf & Hpg & Hid & _ & ->)]; [done|].
  apply (Tracked_same_core s); [|done]. by apply same_core_flush.
Qed.

Lemma FlushAllPgsImp_Tracked s res s' :
  BInv s → Tracked s → FlushAllPgsImp s = Some (res, s') → Tracked s'.
Proof.
  intros HI HT H. destruct (FlushAllPgsImp_same_core s HI) as (s1 & H1 & Hsc).
  rewrite H1 in H. injection H as _ <-. by apply (Tracked_same_core s).
Qed.

Lemma DeletePgImp_Tracked s p res s' :
  BInv s → Tracked s → DeletePgImp p s = Some (res, s') → Tracked s'.
Proof.
  intros HI HT H.
  destruct (DeletePgImp_cases s p res s' HI H)
    as [(_ & _ & ->)|(f & pg & Hp & Hf & Hpg & Hid &
          [(_ & _ & ->)|(Hz & _ & ->)])]; [done|done|].
  intros i pg' Hl Hpin. simpl in *.
  rewrite ?write_back_free_list, ?write_back_replacer.
  destruct (decide (i = Z.to_nat f)) as [->|Hne].
  - left. apply elem_of_app. right. apply list_elem_of_singleton. lia.
  - rewrite list_lookup_insert_ne in Hl by done.
    destruct (HT i pg' Hl Hpin) as [?|?]; [left|by right].
    apply elem_of_app. by left.
Qed.

Lemma step_Tracked o s s' :
  BInv s → Tracked s → step o s = Some s' → Tracked s'.
Proof.
  intros HI HT H. unfold step, drop in H.
  destruct o as [|p|p d|p| |p]; simpl in H;
    match type of H with
    | snd <$> ?m = _ => destruct m as [[res s1]|] eqn:E; [|done]
    end; simpl in H; injection H as <-.
  - by apply (NewPgImp_Tracked s res).
  - by apply (FetchPgImp_Tracked s p res).
  - by apply (UnpinPgImp_Tracked s p d res).
  - by apply (FlushPgImp_Tracked s p res).
  - by apply (FlushAllPgsImp_Tracked s res).
  - by apply (DeletePgImp_Tracked s p res).
Qed.

Lemma reachable_Tracked s : reachable s → Tracked s.
Proof.
  induction 1 as [ps n idx disk s Hv Hc|o s s' HR IH Hstep].
  - by destruct (create_inv ps n idx disk s Hv Hc) as (_ & ? & _).
  - apply (step_Tracked o s); [by apply reachable_BInv|done|done].
Qed.

End tracked.

(** ** The manager: free and resident frames cover the pool *)

Section covered.
Implicit Types (s : BPMI) (f g p : Z) (pg : Page) (r : LRU.LRUReplacer).

Lemma cover_but_absent s :
  (∀ i, (i < pool_size_ s)%nat →
        Z.of_nat i ∈ free_list_ s ∨ resident s (Z.of_nat i))
  ↔ cover_but (-1) s.
Proof.
  unfold cover_but. split.
  - intros H i Hi _. auto.
  - intros H i Hi. apply H; [done|lia].
Qed.

(** Residency reads the frames' page ids and the page table only. *)
Lemma resident_ext s s' f :
  page_table_ s' = page_table_ s →
  page_id_ <$> pages_ s' = page_id_ <$> pages_ s →
  resident s f → resident s' f.
Proof.
  intros Ht Hids (Hf & pg & Hl & Hp). split; [done|]. rewrite Ht.
  assert ((page_id_ <$> pages_ s') !! Z.to_nat f = Some (page_id_ pg)) as H.
  { by rewrite Hids, list_lookup_fmap, Hl. }
  rewrite list_lookup_fmap in H.
  destruct (pages_ s' !! Z.to_nat f) as [pg'|]; [|done].
  injection H as H. exists pg'. split; [done|]. by rewrite H.
Qed.

Lemma cover_but_ext s s' f :
  pool_size_ s' = pool_size_ s → free_list_ s' = free_list_ s →
  page_table_ s' = page_table_ s →
  page_id_ <$> pages_ s' = page_id_ <$> pages_ s →
  cover_but f s → cover_but f s'.
Proof.
  intros Hp Hf Ht Hids H i Hi Hne. rewrite Hp in Hi. rewrite Hf.
  destruct (H i Hi Hne) as [?|?]; [by left|right].
  by apply (resident_ext s).
Qed.

Lemma page_ids_store s f pg pg' :
  pages_ s !! Z.to_nat f = Some pg → page_id_ pg' = page_id_ pg →
  page_id_ <$> <[Z.to_nat f := pg']> (pages_ s) = page_id_ <$> pages_ s.
Proof.
  intros Hl Hid. rewrite list_fmap_insert, Hid.
  apply list_insert_id. by rewrite list_lookup_fmap, Hl.
Qed.

Lemma Covered_ext s s' :
  pool_size_ s' = pool_size_ s → free_list_ s' = free_list_ s →
  page_table_ s' = page_table_ s → next_page_id_ s' = next_page_id_ s →
  page_id_ <$> pages_ s' = page_id_ <$> pages_ s →
  Covered s → Covered s'.
Proof.
  intros Hp Hf Ht Hn Hids [Hc Hi]. split.
  - apply cover_but_absent.
    apply (cover_but_ext s); try done. by apply cover_but_absent.
  - rewrite Ht, Hn. done.
Qed.

Lemma Covered_same_core s s' : same_core s s' → Covered s → Covered s'.
Proof.
  intros [Hp _ _ Hn _ Hf Ht Hm]. apply Covered_ext; try done.
  unfold meta in Hm.
  assert (fst <$> ((λ pg, (page_id_ pg, pin_count_ pg)) <$> pages_ s')
          = fst <$> ((λ pg, (page_id_ pg, pin_count_ pg)) <$> pages_ s)) as H
    by by rewrite Hm.
  by rewrite <- !list_fmap_compose in H.
Qed.

Lemma pick_path_table_sub s f s2 q g :
  pick_path s f s2 → page_table_ s2 !! q = Some g →
  page_table_ s !! q = Some g.
Proof.
  intros [rest _ ->| _ _ _ ->| _ _ _ _ _ ->|fs r pg _ _ _ _ _ _ _ _ ->];
    simpl; try done.
  by intros [_ ?]%lookup_delete_Some.
Qed.

Lemma pick_path_cover s f s2 :
  BInv s → cover_but (-1) s → pick_path s f s2 → cover_but f s2.
Proof.
  intros HI Hc
    [rest Hfl ->| _ _ -> ->| _ _ _ _ -> ->|fs r pg Hfl _ _ _ _ Hf Hpg _ ->].
  - intros i Hi Hne. simpl in *.
    destruct (Hc i Hi ltac:(lia)) as [Hin|Hres]; [|by right].
    rewrite Hfl in Hin. apply elem_of_cons in Hin as [?|?]; [done|by left].
  - done.
  - done.
  - intros i Hi Hne. simpl in Hi.
    destruct (write_back_config pg (replacer_call CVictim r s)) as (Hps & _).
    rewrite Hps in Hi. simpl in Hi.
    assert (Hres : ∀ j, (j < pool_size_ s)%nat → resident s (Z.of_nat j)).
    { intros j Hj. destruct (Hc j Hj ltac:(lia)) as [Hin|?]; [|done].
      rewrite Hfl in Hin. by apply elem_of_nil in Hin. }
    right. destruct (Hres i Hi) as (Hi0 & pgi & Hli & Hti).
    assert (Hfres : resident s f).
    { apply lookup_lt_Some in Hpg as Hlt. rewrite (bi_len s HI) in Hlt.
      rewrite <- (Z2Nat.id f) by done. by apply Hres. }
    destruct Hfres as (_ & pgf & Hlf & Htf).
    assert (pgf = pg) as -> by congruence.
    split; [done|]. exists pgi. simpl. rewrite write_back_pages. simpl.
    split; [done|]. rewrite lookup_delete_ne; [done|].
    intros Heq. rewrite Heq in Htf. congruence.
Qed.

Lemma install_cover s f new_page p r :
  cover_but f s → page_table_ s !! p = None →
  0 <= f → (Z.to_nat f < length (pages_ s))%nat → page_id_ new_page = p →
  cover_but (-1) (install f new_page p r s).
Proof.
  intros Hc Hp Hf Hlt Hid i Hi _. simpl in *.
  destruct (decide (Z.of_nat i = f)) as [<-|Hne].
  - right. split; [done|]. exists new_page. simpl.
    rewrite Nat2Z.id, list_lookup_insert_eq by lia.
    split; [done|]. by rewrite Hid, lookup_insert_eq.
  - destruct (Hc i Hi Hne) as [?|(Hi0 & pgi & Hli & Hti)]; [by left|right].
    split; [done|]. exists pgi. simpl.
    rewrite list_lookup_insert_ne by lia. split; [done|].
    rewrite lookup_insert_ne; [done|]. intros Heq.
    rewrite <- Heq in Hti. congruence.
Qed.

Lemma advance_next s :
  BInv s → next_page_id_ s + num_instances_ s <= INT32_MAX →
  next_page_id_ (advance s) = next_page_id_ s + num_instances_ s.
Proof.
  intros HI Hle. simpl. apply to_int32_id.
  pose proof (bi_next s HI). pose proof (bi_num s HI).
  unfold INT32_MAX in Hle. lia.
Qed.

Lemma NewPgImp_Covered s res s' :
  BInv s → Covered s → polite_op ONewPage s →
  NewPgImp s = Some (res, s') → Covered s'.
Proof.
  intros HI [Hc Hids] Hpol H. simpl in Hpol.
  pose proof (advance_next s HI Hpol) as Hnext.
  pose proof (bi_num s HI) as Hnum.
  destruct (NewPgImp_cases s res s' HI H)
    as (_ & f & s2 & Hpick & HI2 & Hcase).
  apply pick_frame_path in Hpick; [|by apply BInv_advance].
  pose proof (pick_path_config _ _ _ Hpick) as (Hps & _ & _ & Hn2 & Hpages).
  assert (Hc2 : cover_but f s2).
  { apply (pick_path_cover (advance s)); [by apply BInv_advance| |done].
    by apply cover_but_absent. }
  assert (Hids2 : ∀ q g, page_table_ s2 !! q = Some g → q < next_page_id_ s).
  { intros q g Hq. apply (pick_path_table_sub _ _ _ q g Hpick) in Hq. eauto. }
  destruct Hcase as [(-> & _ & ->)|(pg & r & Hf & Hpg & _ & _ & _ & Hr & _ & ->)].
  - split; [by apply cover_but_absent|].
    intros q g Hq. rewrite Hn2, Hnext. specialize (Hids2 q g Hq). lia.
  - split.
    + apply cover_but_absent. apply install_cover; try done.
      * destruct (page_table_ s2 !! next_page_id_ s) as [g|] eqn:E; [|done].
        specialize (Hids2 _ _ E). lia.
      * by apply lookup_lt_Some in Hpg.
    + intros q g. simpl. rewrite Hn2, Hnext.
      intros [[<- _]|[_ Hq]]%lookup_insert_Some; [lia|].
      specialize (Hids2 q g Hq). lia.
Qed.

Lemma FetchPgImp_Covered s p res s' :
  BInv s → Covered s → polite_op (OFetchPage p) s →
  FetchPgImp p s = Some (res, s') → Covered s'.
Proof.
  intros HI HC Hpol H. simpl in Hpol.
  destruct (FetchPgImp_cases s p res s' HI H)
    as [(f & pg & r & Hp & Hf & Hpg & Hid & Hlt & Hr & _ & ->)|
        (Hmiss & f & s2 & Hpick & HI2 & Hcase)].
  - apply (Covered_ext s); try done. simpl.
    by apply page_ids_store with pg.
  - destruct HC as [Hc Hids].
    apply pick_frame_path in Hpick; [|done].
    pose proof (pick_path_config _ _ _ Hpick) as (Hps & _ & _ & Hn2 & Hpages).
    assert (Hc2 : cover_but f s2).
    { apply (pick_path_cover s); [done| |done]. by apply cover_but_absent. }
    assert (Hids2 : ∀ q g, page_table_ s2 !! q = Some g → q < next_page_id_ s).
    { intros q g Hq. apply (pick_path_table_sub _ _ _ q g Hpick) in Hq. eauto. }
    destruct Hcase as [(-> & _ & ->)|(pg & r & Hf & Hpg & _ & _ & _ & Hr & _ & ->)].
    + split; [by apply cover_but_absent|].
      intros q g Hq. rewrite Hn2. eauto.
    + split.
      * apply cover_but_absent. apply install_cover; try done.
        -- simpl. destruct (page_table_ s2 !! p) as [g|] eqn:E; [|done].
           apply (pick_path_table_sub _ _ _ p g Hpick) in E. congruence.
        -- simpl. by apply lookup_lt_Some in Hpg.
      * intros q g. simpl. rewrite Hn2.
        intros [[<- _]|[_ Hq]]%lookup_insert_Some; [done|]. eauto.
Qed.

Lemma UnpinPgImp_Covered s p d res s' :
  BInv s → Covered s → UnpinPgImp p d s = Some (res, s') → Covered s'.
Proof.
  intros HI HC H.
  destruct (UnpinPgImp_cases s p d res s' HI H)
    as [(_ & _ & ->)|(f & pg & Hp & Hf & Hpg & Hid &
          [(Hz & _ & ->)|(Hpos & _ & ->)])]; [done| |].
  - apply (Covered_same_core s); [|done]. by apply same_core_store with pg.
  - apply (Covered_ext s); try done;
      simpl; destruct (pin_count_ pg - 1 =? 0); simpl; try done;
      by apply page_ids_store with pg.
Qed.

Lemma FlushPgImp_Covered s p res s' :
  BInv s → Covered s → FlushPgImp p s = Some (res, s') → Covered s'.
Proof.
  intros HI HC H.
  destruct (FlushPgImp_cases s p res s' HI H)
    as [(_ & _ & ->)|(f & pg & Hp & Hf & Hpg & Hid & _ & ->)]; [done|].
  apply (Covered_same_core s); [|done]. by apply same_core_flush.
Qed.

Lemma FlushAllPgsImp_Covered s res s' :
  BInv s → Covered s → FlushAllPgsImp s = Some (res, s') → Covered s'.
Proof.
  intros HI HC H. destruct (FlushAllPgsImp_same_core s HI) as (s1 & H1 & Hsc).
  rewrite H1 in H. injection H as _ <-. by apply (Covered_same_core s).
Qed.

Lemma DeletePgImp_Covered s p res s' :
  BInv s → Covered s → DeletePgImp p s = Some (res, s') → Covered s'.
Proof.
  intros HI [Hc Hids] H.
  destruct (DeletePgImp_cases s p res s' HI H)
    as [(_ & _ & ->)|(f & pg & Hp & Hf & Hpg & Hid &
          [(_ & _ & ->)|(Hz & _ & ->)])]; [done|done|].
  assert (Hlt : (Z.to_nat f < length (pages_ s))%nat)
    by by apply lookup_lt_Some in Hpg.
  split.
  - intros i Hi. simpl in Hi.
    destruct (write_back_config pg s) as (Hps & _). rewrite Hps in Hi.
    simpl. rewrite ?write_back_free_list.
    destruct (decide (Z.of_nat i = f)) as [<-|Hne].
    { left. apply elem_of_app. right. by apply list_elem_of_singleton. }
    destruct (Hc i Hi) as [?|(Hi0 & pgi & Hli & Hti)].
    { left. apply elem_of_app. by left. }
    right. split; [done|]. exists pgi. simpl.
    rewrite list_lookup_insert_ne by lia. split; [done|].
    rewrite lookup_delete_ne; [done|]. intros Heq.
    rewrite <- Heq in Hti. congruence.
  - intros q g. simpl. rewrite write_back_next_page_id.
    intros [_ Hq]%lookup_delete_Some. eauto.
Qed.

Lemma step_Covered o s s' :
  BInv s → Covered s → polite_op o s → step o s = Some s' → Covered s'.
Proof.
  intros HI HC Hpol H. unfold step, drop in H.
  destruct o as [|p|p d|p| |p]; simpl in H;
    match type of H with
    | snd <$> ?m = _ => destruct m as [[res s1]|] eqn:E; [|done]
    end; simpl in H; injection H as <-.
  - by apply (NewPgImp_Covered s res).
  - by apply (FetchPgImp_Covered s p res).
  - by apply (UnpinPgImp_Covered s p d res).
  - by apply (FlushPgImp_Covered s p res).
  - by apply (FlushAllPgsImp_Covered s res).
  - by apply (DeletePgImp_Covered s p res).
Qed.

Lemma run_Covered ops : ∀ s s',
  BInv s → Covered s → polite ops s → run ops s = Some s' → Covered s'.
Proof.
  unfold polite.
  induction ops as [|o rest IH]; intros s s' HI HC Hpol H; simpl in *.
  - by injection H as <-.
  - destruct Hpol as [Hpo Hrest].
    destruct (step o s) as [s1|] eqn:E; [|done].
    apply (IH s1); [by apply (step_BInv o s)| |done|done].
    by apply (step_Covered o s).
Qed.

(** *** Counting frames *)

Lemma elem_of_table_frames s f :
  f ∈ table_frames s ↔ ∃ p, page_table_ s !! p = Some f.
Proof.
  unfold table_frames. rewrite list_elem_of_fmap. split.
  - intros ([p g] & -> & Hin). exists p. by apply elem_of_map_to_list.
  - intros (p & Hp). exists (p, f). split; [done|].
    by apply elem_of_map_to_list.
Qed.

Lemma table_frames_NoDup s : BInv s → NoDup (table_frames s).
Proof.
  intros HI. unfold table_frames.
  apply NoDup_fmap_2_strong; [|apply NoDup_map_to_list].
  intros [p1 f1] [p2 f2] H1%elem_of_map_to_list H2%elem_of_map_to_list.
  simpl. intros <-. f_equal.
  destruct (bi_table s HI p1 f1 H1) as [(_ & pg1 & Hl1 & <-) _].
  destruct (bi_table s HI p2 f1 H2) as [(_ & pg2 & Hl2 & <-) _].
  congruence.
Qed.

Lemma length_table_frames s : length (table_frames s) = size (page_table_ s).
Proof. unfold table_frames. by rewrite length_fmap, length_map_to_list. Qed.

Lemma free_and_table_NoDup s :
  BInv s → NoDup (free_list_ s ++ table_frames s).
Proof.
  intros HI. apply NoDup_app. split; [apply HI|].
  split; [|by apply table_frames_NoDup].
  intros f Hfree (p & Hp)%elem_of_table_frames.
  by destruct (bi_table s HI p f Hp) as [_ ?].
Qed.

Lemma free_and_table_range s f :
  BInv s → f ∈ free_list_ s ++ table_frames s →
  0 <= f < Z.of_nat (pool_size_ s).
Proof.
  intros HI [Hf|(p & Hp)%elem_of_table_frames]%elem_of_app.
  - pose proof (bi_free s HI f Hf) as Hh.
    pose proof (frame_holds_lt _ _ _ Hh) as Hlt. rewrite (bi_len s HI) in Hlt.
    destruct Hh as [? _]. lia.
  - destruct (bi_table s HI p f Hp) as [Hh _].
    pose proof (frame_holds_lt _ _ _ Hh) as Hlt. rewrite (bi_len s HI) in Hlt.
    destruct Hh as [? _]. lia.
Qed.

Lemma count_le s :
  BInv s → (size (page_table_ s) + length (free_list_ s) <= pool_size_ s)%nat.
Proof.
  intros HI.
  pose proof (pigeonhole (free_list_ s ++ table_frames s) (pool_size_ s)
                (free_and_table_NoDup s HI)
                (λ g Hg, free_and_table_range s g HI Hg)) as H.
  rewrite length_app, length_table_frames in H. lia.
Qed.

Lemma count_eq s :
  BInv s → Covered s →
  (size (page_table_ s) + length (free_list_ s) = pool_size_ s)%nat.
Proof.
  intros HI [Hc _]. pose proof (count_le s HI) as Hle.
  assert (seq 0 (pool_size_ s) ⊆+ Z.to_nat <$> (free_list_ s ++ table_frames s))
    as Hsub.
  { apply NoDup_submseteq; [apply NoDup_seq|].
    intros i Hi%elem_of_seq. apply list_elem_of_fmap.
    exists (Z.of_nat i). split; [lia|]. apply elem_of_app.
    destruct (Hc i ltac:(lia)) as [?|(_ & pg & _ & Hp)]; [by left|right].
    apply elem_of_table_frames. by exists (page_id_ pg). }
  apply submseteq_length in Hsub.
  rewrite length_seq, length_fmap, length_app, length_table_frames in Hsub.
  lia.
Qed.

End covered.

(** * The claims *)

Section claims_single_operation.
Implicit Types (s : BPMI) (f g p : Z) (pg : Page) (r : LRU.LRUReplacer).

Lemma run_from_reachable pool_size num_instances instance_index ops s :
  valid_config pool_size num_instances instance_index →
  run_from pool_size num_instances instance_index ops = Some s →
  reachable s.
Proof.
  intros Hv H. unfold run_from in H.
  destruct (create pool_size num_instances instance_index ∅) as [s0|] eqn:E;
    [|done].
  apply (run_reachable ops s0); [|done].
  by apply (reach_create pool_size num_instances instance_index ∅).
Qed.

(** What [UnpinPgImp] does to the dirty flag of a resident page: it stores
    the argument, whatever the flag was. *)
Lemma UnpinPgImp_dirty s p d f res s' :
  BInv s → page_table_ s !! p = Some f →
  UnpinPgImp p d s = Some (res, s') → dirty_at s' f = Some d.
Proof.
  intros HI Hp H.
  destruct (UnpinPgImp_cases s p d res s' HI H)
    as [(Hn & _)|(f' & pg & Hp' & Hf & Hpg & Hid &
          [(Hz & _ & ->)|(Hpos & _ & ->)])]; [congruence| |];
    assert (f' = f) as -> by congruence;
    apply lookup_lt_Some in Hpg as Hlt; unfold dirty_at.
  - simpl. by rewrite list_lookup_insert_eq.
  - simpl. destruct (pin_count_ pg - 1 =? 0); simpl;
      by rewrite list_lookup_insert_eq.
Qed.

(** C1 (the source departs from the claim). The claim has [UnpinPage] OR the
    argument into the dirty flag. On a pool of one frame, after [NewPage]
    (page 0), [FetchPage(0)] and [UnpinPage(0, true)] the frame is dirty;
    [UnpinPage(0, false)] then succeeds and leaves it clean, and the
    following [NewPage] evicts page 0 without a [WritePage]. *)
Theorem C1_UnpinPgImp_overwrites_dirty :
  (λ s, dirty_at s 0) <$>
    run_from 1 1 0 [ONewPage; OFetchPage 0; OUnpinPage 0 true]
  = Some (Some true) ∧
  (λ s, dirty_at s 0) <$>
    run_from 1 1 0 [ONewPage; OFetchPage 0; OUnpinPage 0 true;
                    OUnpinPage 0 false]
  = Some (Some false) ∧
  calls_ <$>
    run_from 1 1 0 [ONewPage; OFetchPage 0; OUnpinPage 0 true;
                    OUnpinPage 0 false; ONewPage]
  = Some [CPin 0; CVictim; CUnpin 0; CPin 0; CPin 0].
Proof. repeat split; vm_compute; reflexivity. Qed.

(** C6. [DeletePage(p)] on a reachable state: true and no change when [p] is
    not in the page table; false and no change when the frame is pinned;
    otherwise true, the frame written back exactly when dirty, reset to
    [INVALID_PAGE_ID], clean, zeroed, appended to the free list, and [p]
    erased from the page table. *)
Theorem C6_DeletePgImp s p :
  reachable s →
  match page_table_ s !! p with
  | None => DeletePgImp p s = Some (true, s)
  | Some f =>
      ∃ pg, 0 <= f ∧ pages_ s !! Z.to_nat f = Some pg ∧
        if decide (pin_count_ pg = 0) then
          ∃ s', DeletePgImp p s = Some (true, s') ∧
            new_calls s s'
              = (if is_dirty_ pg then [CWritePage p (data_ pg)] else []) ∧
            disk_ s'
              = (if is_dirty_ pg then <[p := data_ pg]> (disk_ s)
                 else disk_ s) ∧
            pages_ s'
              = <[Z.to_nat f := mkPage zero_data INVALID_PAGE_ID 0 false]>
                  (pages_ s) ∧
            free_list_ s' = free_list_ s ++ [f] ∧
            page_table_ s' = delete p (page_table_ s) ∧
            replacer_ s' = replacer_ s ∧
            next_page_id_ s' = next_page_id_ s
        else DeletePgImp p s = Some (false, s)
  end.
Proof.
  intros HR. pose proof (reachable_BInv s HR) as HI.
  destruct (page_table_ s !! p) as [f|] eqn:Hp; [|by apply DeletePgImp_absent].
  destruct (bi_table s HI p f Hp) as [(Hf & pg & Hpg & Hid) _].
  exists pg. do 2 (split; [done|]).
  destruct (decide (pin_count_ pg = 0)) as [Hz|Hnz];
    [|by apply (DeletePgImp_pinned s p f pg)].
  eexists. split; [by apply (DeletePgImp_unpinned s p f pg)|].
  unfold new_calls. simpl.
  rewrite !write_back_calls, write_back_disk, write_back_replacer,
    write_back_next_page_id, Hid.
  split; [|done].
  rewrite length_app.
  replace (length (if is_dirty_ pg then [CWritePage p (data_ pg)] else [])
           + length (calls_ s) - length (calls_ s))%nat
    with (length (if is_dirty_ pg then [CWritePage p (data_ pg)] else []))
    by lia.
  by rewrite take_app_length.
Qed.

(** C7. [FlushPage(p)] on a reachable state returns false, changing
    nothing, exactly when [p] is not in the page table; otherwise it returns
    true, having written the frame's data to disk under [p] and cleared the
    dirty flag, with the frame's data, page id and pin count, the other
    frames, the page table, the free list, the replacer and the allocation
    counter as they were. *)
Theorem C7_FlushPgImp s p :
  reachable s →
  match page_table_ s !! p with
  | None => FlushPgImp p s = Some (false, s)
  | Some f =>
      ∃ pg s', 0 <= f ∧ pages_ s !! Z.to_nat f = Some pg ∧
        FlushPgImp p s = Some (true, s') ∧
        new_calls s s' = [CWritePage p (data_ pg)] ∧
        disk_ s' = <[p := data_ pg]> (disk_ s) ∧
        pages_ s'
          = <[Z.to_nat f := mkPage (data_ pg) (page_id_ pg) (pin_count_ pg)
                                   false]> (pages_ s) ∧
        page_table_ s' = page_table_ s ∧
        free_list_ s' = free_list_ s ∧
        replacer_ s' = replacer_ s ∧
        next_page_id_ s' = next_page_id_ s
  end.
Proof.
  intros HR. pose proof (reachable_BInv s HR) as HI.
  destruct (page_table_ s !! p) as [f|] eqn:Hp; [|by apply FlushPgImp_absent].
  destruct (bi_table s HI p f Hp) as [(Hf & pg & Hpg & Hid) _].
  exists pg. eexists. do 2 (split; [done|]).
  split; [by apply (FlushPgImp_present s p f pg)|].
  subst p. repeat split; try done.
  unfold new_calls. simpl.
  replace (S (length (calls_ s)) - length (calls_ s))%nat with 1%nat by lia.
  done.
Qed.

End claims_single_operation.

Section claims_allocation.
Implicit Types (s : BPMI) (f g p : Z) (pg : Page) (r : LRU.LRUReplacer).

Lemma to_uint32_id z : 0 <= z < 2 ^ 32 → to_uint32 z = z.
Proof. intros H. unfold to_uint32. by apply Z.mod_small. Qed.

(** The configuration never changes. *)
Lemma install_config f new_page p r s :
  pool_size_ (install f new_page p r s) = pool_size_ s ∧
  num_instances_ (install f new_page p r s) = num_instances_ s ∧
  instance_index_ (install f new_page p r s) = instance_index_ s.
Proof. done. Qed.

Lemma step_config o s s' :
  BInv s → step o s = Some s' →
  pool_size_ s' = pool_size_ s ∧ num_instances_ s' = num_instances_ s ∧
  instance_index_ s' = instance_index_ s.
Proof.
  intros HI H. unfold step, drop in H.
  destruct o as [|p|p d|p| |p]; simpl in H;
    match type of H with
    | snd <$> ?m = _ => destruct m as [[res s1]|] eqn:E; [|done]
    end; simpl in H; injection H as <-.
  - destruct (NewPgImp_cases s res s1 HI E)
      as (_ & f & s2 & Hpick & HI2 & Hcase).
    apply pick_frame_path in Hpick; [|by apply BInv_advance].
    destruct (pick_path_config _ _ _ Hpick) as (? & ? & ? & _).
    by destruct Hcase as [(_ & _ & ->)|(? & ? & _ & _ & _ & _ & _ & _ & _ & ->)].
  - destruct (FetchPgImp_cases s p res s1 HI E)
      as [(f & pg & r & _ & _ & _ & _ & _ & _ & _ & ->)|
          (_ & f & s2 & Hpick & HI2 & Hcase)]; [done|].
    apply pick_frame_path in Hpick; [|done].
    destruct (pick_path_config _ _ _ Hpick) as (? & ? & ? & _).
    by destruct Hcase as [(_ & _ & ->)|(? & ? & _ & _ & _ & _ & _ & _ & _ & ->)].
  - destruct (UnpinPgImp_cases s p d res s1 HI E)
      as [(_ & _ & ->)|(f & pg & _ & _ & _ & _ &
            [(_ & _ & ->)|(_ & _ & ->)])]; try done.
    simpl. by destruct (pin_count_ pg - 1 =? 0).
  - by destruct (FlushPgImp_cases s p res s1 HI E)
      as [(_ & _ & ->)|(f & pg & _ & _ & _ & _ & _ & ->)].
  - destruct (FlushAllPgsImp_same_core s HI) as (s2 & H2 & []).
    rewrite H2 in E. by injection E as _ <-.
  - destruct (DeletePgImp_cases s p res s1 HI E)
      as [(_ & _ & ->)|(f & pg & _ & _ & _ & _ &
            [(_ & _ & ->)|(_ & _ & ->)])]; try done.
    simpl. apply write_back_config.
Qed.

Lemma run_config ops : ∀ s s',
  BInv s → run ops s = Some s' →
  pool_size_ s' = pool_size_ s ∧ num_instances_ s' = num_instances_ s ∧
  instance_index_ s' = instance_index_ s.
Proof.
  induction ops as [|o rest IH]; intros s s' HI H; simpl in H.
  - by injection H as <-.
  - destruct (step o s) as [s1|] eqn:E; [|done].
    destruct (step_config o s s1 HI E) as (<- & <- & <-).
    apply IH; [|done]. by apply (step_BInv o s).
Qed.

Lemma step_next o s s' :
  BInv s → step o s = Some s' →
  next_page_id_ s' =
    match o with
    | ONewPage => to_int32 (next_page_id_ s + num_instances_ s)
    | _ => next_page_id_ s
    end.
Proof.
  intros HI H. unfold step, drop in H.
  destruct o as [|p|p d|p| |p]; simpl in H;
    match type of H with
    | snd <$> ?m = _ => destruct m as [[res s1]|] eqn:E; [|done]
    end; simpl in H; injection H as <-.
  - destruct (NewPgImp_cases s res s1 HI E)
      as (_ & f & s2 & Hpick & HI2 & Hcase).
    apply pick_frame_path in Hpick; [|by apply BInv_advance].
    destruct (pick_path_config _ _ _ Hpick) as (_ & _ & _ & Hn & _).
    by destruct Hcase as [(_ & _ & ->)|(? & ? & _ & _ & _ & _ & _ & _ & _ & ->)].
  - destruct (FetchPgImp_cases s p res s1 HI E)
      as [(f & pg & r & _ & _ & _ & _ & _ & _ & _ & ->)|
          (_ & f & s2 & Hpick & HI2 & Hcase)]; [done|].
    apply pick_frame_path in Hpick; [|done].
    destruct (pick_path_config _ _ _ Hpick) as (_ & _ & _ & Hn & _).
    by destruct Hcase as [(_ & _ & ->)|(? & ? & _ & _ & _ & _ & _ & _ & _ & ->)].
  - destruct (UnpinPgImp_cases s p d res s1 HI E)
      as [(_ & _ & ->)|(f & pg & _ & _ & _ & _ &
            [(_ & _ & ->)|(_ & _ & ->)])]; try done.
    simpl. by destruct (pin_count_ pg - 1 =? 0).
  - by destruct (FlushPgImp_cases s p res s1 HI E)
      as [(_ & _ & ->)|(f & pg & _ & _ & _ & _ & _ & ->)].
  - destruct (FlushAllPgsImp_same_core s HI) as (s2 & H2 & []).
    rewrite H2 in E. by injection E as _ <-.
  - destruct (DeletePgImp_cases s p res s1 HI E)
      as [(_ & _ & ->)|(f & pg & _ & _ & _ & _ &
            [(_ & _ & ->)|(_ & _ & ->)])]; try done.
    simpl. apply write_back_next_page_id.
Qed.

(** While the counter does not overflow it never decreases. *)
Lemma run_next_mono ops : ∀ s s',
  BInv s → along room_op ops s → run ops s = Some s' →
  next_page_id_ s <= next_page_id_ s'.
Proof.
  induction ops as [|o rest IH]; intros s s' HI Hroom H; simpl in *.
  - injection H as <-. lia.
  - destruct Hroom as [Ho Hrest].
    destruct (step o s) as [s1|] eqn:E; [|done].
    pose proof (step_next o s s1 HI E) as Hn.
    pose proof (IH s1 s' (step_BInv o s s1 HI E) Hrest H) as Hle.
    destruct o; simpl in Ho; try lia.
    rewrite to_int32_id in Hn; [|].
    + pose proof (bi_num s HI). lia.
    + pose proof (bi_num s HI). pose proof (bi_next s HI).
      unfold INT32_MAX in Ho. lia.
Qed.

Lemma create_fields pool_size num_instances instance_index disk s :
  create pool_size num_instances instance_index disk = Some s →
  pool_size_ s = pool_size ∧ num_instances_ s = num_instances ∧
  instance_index_ s = instance_index ∧
  next_page_id_ s = to_int32 instance_index ∧
  page_table_ s = ∅ ∧ calls_ s = [] ∧ disk_ s = disk.
Proof.
  unfold create. destruct (_ && _); [|done]. by intros [= <-].
Qed.

(** Allocations in sequence, while the counter has room. *)
Lemma allocate_sequence k : ∀ s,
  0 < num_instances_ s → 0 <= next_page_id_ s →
  next_page_id_ s mod num_instances_ s = instance_index_ s →
  next_page_id_ s + Z.of_nat k * num_instances_ s <= INT32_MAX →
  fst <$> repeatM k AllocatePage s
  = Some ((λ j, next_page_id_ s + Z.of_nat j * num_instances_ s)
            <$> seq 0 k).
Proof.
  induction k as [|k IH]; intros s Hn Hz Hmod Hle; [done|].
  assert (Ha : AllocatePage s = Some (next_page_id_ s, advance s)).
  { apply AllocatePage_Some. split; [lia|]. split; [|done].
    rewrite to_uint32_id; [done|]. unfold INT32_MAX in Hle. nia. }
  assert (Hnext : next_page_id_ (advance s)
                  = next_page_id_ s + num_instances_ s).
  { simpl. apply to_int32_id. unfold INT32_MAX in Hle. nia. }
  assert (Hmod' : next_page_id_ (advance s) mod num_instances_ (advance s)
                  = instance_index_ (advance s)).
  { rewrite Hnext. simpl.
    rewrite Z.add_mod, Z_mod_same_full, Z.add_0_r, Z.mod_mod by lia. done. }
  pose proof (IH (advance s) Hn ltac:(lia) Hmod' ltac:(rewrite Hnext; simpl; nia))
    as Hrest.
  rewrite Hnext in Hrest. simpl in Hrest.
  simpl. unfold bind at 1. rewrite Ha. unfold bind at 1.
  destruct (repeatM k AllocatePage (advance s)) as [[ids s']|]; [|done].
  simpl in Hrest. injection Hrest as ->. simpl. f_equal. f_equal; [lia|].
  rewrite <- fmap_S_seq, <- list_fmap_compose.
  apply list_fmap_ext. intros _ j _. simpl. lia.
Qed.

(** C5. The allocator returns the current [next_page_id_] and advances it by
    [num_instances_] (in 32-bit arithmetic; by exactly that much while it
    does not overflow), and an id it returns is congruent to
    [instance_index_]; so is every id [NewPage] returns in any run of a
    fresh manager. From a fresh manager the allocator is defined and returns
    [index, index + n, index + 2n, ...] while the counter has room; with
    4 instances and index 2, [NewPage] returns 2, 6, 10, 14. *)
Theorem C5_AllocatePage :
  (∀ s pid s1, AllocatePage s = Some (pid, s1) →
     pid = next_page_id_ s ∧
     next_page_id_ s1 = to_int32 (next_page_id_ s + num_instances_ s) ∧
     (- 2 ^ 31 <= next_page_id_ s →
      0 <= num_instances_ s →
      next_page_id_ s + num_instances_ s <= INT32_MAX →
      next_page_id_ s1 = next_page_id_ s + num_instances_ s) ∧
     page_mod pid (num_instances_ s) = instance_index_ s) ∧
  (∀ pool_size num_instances instance_index disk s0 ops s pid f s',
     valid_config pool_size num_instances instance_index →
     create pool_size num_instances instance_index disk = Some s0 →
     run ops s0 = Some s →
     NewPgImp s = Some (Some (pid, f), s') →
     page_mod pid num_instances = instance_index ∧
     (0 <= pid → pid mod num_instances = instance_index)) ∧
  (∀ pool_size num_instances instance_index disk s0 k,
     valid_config pool_size num_instances instance_index →
     create pool_size num_instances instance_index disk = Some s0 →
     instance_index + Z.of_nat k * num_instances <= INT32_MAX →
     fst <$> repeatM k AllocatePage s0
     = Some ((λ j, instance_index + Z.of_nat j * num_instances)
               <$> seq 0 k)) ∧
  match create 4 4 2 ∅ with
  | Some s0 => fst <$> repeatM 4 NewPgImp s0
  | None => None
  end = Some [Some (2, 0); Some (6, 1); Some (10, 2); Some (14, 3)].
Proof.
  split; [|split; [|split]].
  - intros s pid s1 (Hn & Hmod & -> & ->)%AllocatePage_Some.
    split; [done|]. split; [done|]. split; [|done].
    intros Hlo Hn0 Hle. simpl. apply to_int32_id. unfold INT32_MAX in Hle. lia.
  - intros ps n idx disk s0 ops s pid f s' Hv Hc Hrun H.
    destruct (create_inv ps n idx disk s0 Hv Hc) as (HI0 & _).
    destruct (run_config ops s0 s HI0 Hrun) as (_ & Hn & Hi).
    destruct (create_fields _ _ _ _ _ Hc) as (_ & Hn0 & Hi0 & _).
    unfold NewPgImp in H. apply bind_Some in H as (pid' & s1 & Ha & H).
    apply bind_Some in H as (f' & s2 & Hp & H).
    assert (pid' = pid) as ->.
    { destruct (f' =? -1); [done|].
      apply bind_Some in H as (? & ? & _ & H).
      apply bind_Some in H as (? & ? & _ & H).
      apply bind_Some in H as (? & ? & _ & H).
      apply bind_Some in H as (? & ? & _ & H).
      apply bind_Some in H as (? & ? & _ & H).
      by injection H as -> _ _. }
    apply AllocatePage_Some in Ha as (_ & Hmod & -> & _).
    rewrite Hn, Hi, Hn0, Hi0 in Hmod. split; [done|].
    intros Hpos. pose proof (bi_next s (run_BInv ops s0 s HI0 Hrun)) as Hr.
    rewrite to_uint32_id in Hmod; [done|lia].
  - intros ps n idx disk s0 k (Hp & Hn & Hi) Hc Hle.
    destruct (create_fields _ _ _ _ _ Hc) as (_ & Hn0 & Hi0 & Hnext & _).
    assert (Hid : to_int32 idx = idx).
    { apply to_int32_id. unfold INT32_MAX in Hle. nia. }
    rewrite Hid in Hnext.
    rewrite (allocate_sequence k s0); rewrite ?Hnext, ?Hn0, ?Hi0;
      [done|lia|lia| |done].
    apply Z.mod_small. lia.
  - vm_compute. reflexivity.
Qed.

Lemma to_int32_add_ne z n :
  - 2 ^ 31 <= z < 2 ^ 31 → 0 < n < 2 ^ 32 → to_int32 (z + n) ≠ z.
Proof.
  intros Hz Hn. unfold to_int32. intros Heq.
  pose proof (Z.div_mod (z + n + 2 ^ 31) (2 ^ 32) ltac:(lia)) as Hdm.
  pose proof (Z.mod_pos_bound (z + n + 2 ^ 31) (2 ^ 32) ltac:(lia)) as Hb.
  assert ((z + n + 2 ^ 31) mod 2 ^ 32 = z + 2 ^ 31) as Hm by lia.
  rewrite Hm in Hdm. lia.
Qed.

(** C10. When [NewPage] returns none on a reachable state, the allocation
    counter has moved on by [num_instances_] (in 32-bit arithmetic, and so
    by exactly that much while it does not overflow) and is no longer the
    consumed id, while the page table, the free list, the frames, the
    replacer and the disk are as they were; and as long as the counter does
    not overflow, every id a later [NewPage] returns lies above the consumed
    one. *)
Theorem C10_NewPgImp_failure s s' :
  reachable s → NewPgImp s = Some (None, s') →
  next_page_id_ s' = to_int32 (next_page_id_ s + num_instances_ s) ∧
  next_page_id_ s' ≠ next_page_id_ s ∧
  (next_page_id_ s + num_instances_ s <= INT32_MAX →
   next_page_id_ s' = next_page_id_ s + num_instances_ s) ∧
  page_table_ s' = page_table_ s ∧
  free_list_ s' = free_list_ s ∧
  pages_ s' = pages_ s ∧
  replacer_ s' = replacer_ s ∧
  disk_ s' = disk_ s ∧
  (next_page_id_ s + num_instances_ s <= INT32_MAX →
   ∀ ops s2 pid f s3,
     along room_op ops s' → run ops s' = Some s2 →
     NewPgImp s2 = Some (Some (pid, f), s3) →
     next_page_id_ s < pid).
Proof.
  intros HR H. pose proof (reachable_BInv s HR) as HI.
  assert (Hlater : next_page_id_ s' = to_int32 (next_page_id_ s + num_instances_ s) →
    next_page_id_ s + num_instances_ s <= INT32_MAX →
    ∀ ops s2 pid f s3,
      along room_op ops s' → run ops s' = Some s2 →
      NewPgImp s2 = Some (Some (pid, f), s3) →
      next_page_id_ s < pid).
  { intros Hn' Hle ops s2 pid f s3 Hroom Hrun Hnew.
    pose proof (NewPgImp_BInv s None s' HI H) as HI'.
    pose proof (run_next_mono ops s' s2 HI' Hroom Hrun) as Hmono.
    pose proof (run_BInv ops s' s2 HI' Hrun) as HI2.
    destruct (NewPgImp_cases s2 _ s3 HI2 Hnew)
      as (_ & f' & s4 & _ & _ &
          [(_ & [=] & _)|(? & ? & _ & _ & _ & _ & _ & _ & [= -> _] & _)]).
    rewrite Hn', to_int32_id in Hmono.
    - pose proof (bi_num s HI). lia.
    - pose proof (bi_num s HI). pose proof (bi_next s HI).
      unfold INT32_MAX in Hle. lia. }
  destruct (NewPgImp_cases s None s' HI H)
    as (_ & f & s2 & Hpick & HI2 &
        [(-> & _ & ->)|(? & ? & ? & ? & ? & ? & ? & ? & [=] & _)]).
  apply pick_frame_path in Hpick; [|by apply BInv_advance].
  assert (Hnext : next_page_id_ s2
                  = to_int32 (next_page_id_ s + num_instances_ s)).
  { by destruct (pick_path_config _ _ _ Hpick) as (_ & _ & _ & -> & _). }
  specialize (Hlater Hnext).
  split; [done|]. split.
  { rewrite Hnext. apply to_int32_add_ne; apply HI. }
  split.
  { intros Hle. rewrite Hnext. by apply (advance_next s HI). }
  destruct Hpick
    as [rest Hfl ->| _ _ _ ->| _ _ _ _ _ ->|fs r pg _ _ _ _ _ Hf _ _ _];
    try done; try lia.
  exfalso. simpl in Hfl.
  destruct (bi_free s HI (-1) ltac:(rewrite Hfl; by left)) as [? _]. lia.
Qed.

End claims_allocation.

Section claims_pins.
Implicit Types (s : BPMI) (f g p : Z) (pg : Page) (r : LRU.LRUReplacer).

Lemma pin_at_Some s f k :
  pin_at s f = Some k ↔ ∃ pg, pages_ s !! Z.to_nat f = Some pg ∧ pin_count_ pg = k.
Proof.
  unfold pin_at. destruct (pages_ s !! Z.to_nat f) as [pg|]; simpl; split.
  - intros [= <-]. by exists pg.
  - by intros (? & [= <-] & <-).
  - done.
  - by intros (? & ? & _).
Qed.

Lemma fetch_hits p f n : ∀ s k,
  BInv s → page_table_ s !! p = Some f → pin_at s f = Some k →
  k + Z.of_nat n <= INT32_MAX →
  ∃ s', repeatM n (FetchPgImp p) s = Some (replicate n (Some f), s') ∧
        BInv s' ∧ page_table_ s' !! p = Some f ∧
        pin_at s' f = Some (k + Z.of_nat n).
Proof.
  induction n as [|n IH]; intros s k HI Hp Hk Hle.
  - exists s. rewrite Z.add_0_r. split; [done|]. split; [done|]. by split.
  - apply pin_at_Some in Hk as (pg & Hpg & <-).
    destruct (bi_table s HI p f Hp) as [(Hf & _) _].
    destruct (Pin_spec (replacer_ s) f (bi_lru s HI)) as (r & Hr & _).
    assert (Hfetch := FetchPgImp_hit s p f pg r Hp Hf Hpg ltac:(lia) Hr).
    set (s1 := replacer_call (CPin f) r
                 (set_pages (<[Z.to_nat f := with_pin (pin_count_ pg + 1) pg]>
                               (pages_ s)) s)) in *.
    destruct (IH s1 (pin_count_ pg + 1)) as (s' & Hrun & HI' & Hp' & Hk').
    + by apply (FetchPgImp_BInv s p (Some f)).
    + done.
    + unfold pin_at. simpl. rewrite list_lookup_insert_eq; [done|].
      by apply lookup_lt_Some in Hpg.
    + lia.
    + exists s'. split; [|split; [done|split; [done|]]].
      * simpl. unfold bind at 1. rewrite Hfetch. unfold bind at 1.
        by rewrite Hrun.
      * rewrite Hk'. f_equal. lia.
Qed.

Lemma unpin_hits p d f n : ∀ s k,
  BInv s → page_table_ s !! p = Some f → pin_at s f = Some k →
  Z.of_nat n <= k →
  ∃ s', repeatM n (UnpinPgImp p d) s = Some (replicate n true, s') ∧
        BInv s' ∧ page_table_ s' !! p = Some f ∧
        pin_at s' f = Some (k - Z.of_nat n).
Proof.
  induction n as [|n IH]; intros s k HI Hp Hk Hle.
  - exists s. rewrite Z.sub_0_r. split; [done|]. split; [done|]. by split.
  - apply pin_at_Some in Hk as (pg & Hpg & <-).
    destruct (bi_table s HI p f Hp) as [(Hf & _) _].
    assert (Hun := UnpinPgImp_pinned s p d f pg Hp Hf Hpg ltac:(lia)).
    simpl in Hun.
    match type of Hun with _ = Some (true, ?st) => set (s1 := st) in * end.
    assert (Hpt1 : page_table_ s1 = page_table_ s).
    { unfold s1. by destruct (pin_count_ pg - 1 =? 0). }
    assert (Hpg1 : pages_ s1
                   = <[Z.to_nat f := with_pin (pin_count_ pg - 1)
                                       (with_dirty d pg)]> (pages_ s)).
    { unfold s1. by destruct (pin_count_ pg - 1 =? 0). }
    destruct (IH s1 (pin_count_ pg - 1)) as (s' & Hrun & HI' & Hp' & Hk').
    + by apply (UnpinPgImp_BInv s p d true).
    + by rewrite Hpt1.
    + unfold pin_at. rewrite Hpg1, list_lookup_insert_eq; [done|].
      by apply lookup_lt_Some in Hpg.
    + lia.
    + exists s'. split; [|split; [done|split; [done|]]].
      * simpl. unfold bind at 1. rewrite Hun. unfold bind at 1.
        by rewrite Hrun.
      * rewrite Hk'. f_equal. lia.
Qed.

(** Fetching a resident page is defined only while the pin count fits. *)
Lemma fetch_defined_bound p f n : ∀ s k rs s1,
  BInv s → page_table_ s !! p = Some f → pin_at s f = Some k →
  repeatM n (FetchPgImp p) s = Some (rs, s1) →
  n = 0%nat ∨ k + Z.of_nat n <= INT32_MAX.
Proof.
  induction n as [|n IH]; intros s k rs s1 HI Hp Hk Hrun; [by left|].
  right. simpl in Hrun.
  apply bind_Some in Hrun as (res & s' & Hfetch & Hrun).
  apply bind_Some in Hrun as (rest & s'' & Hrest & _).
  apply pin_at_Some in Hk as (pg & Hpg & <-).
  destruct (FetchPgImp_cases s p res s' HI Hfetch)
    as [(f' & pg' & r & Hp' & Hf & Hpg' & _ & Hlt & Hr & _ & ->)|(Hmiss & _)];
    [|congruence].
  assert (f' = f) as -> by congruence.
  assert (pg' = pg) as -> by congruence.
  pose proof (FetchPgImp_BInv s p _ _ HI Hfetch) as HI'.
  destruct (IH _ (pin_count_ pg + 1) rest s'' HI') as [->|Hle]; try done.
  - unfold pin_at. simpl. rewrite list_lookup_insert_eq; [done|].
    by apply lookup_lt_Some in Hpg.
  - lia.
  - lia.
Qed.

(** C8. On a reachable state with page [p] resident in frame [f] at pin
    count [k] (which is then non-negative), and for every [n]: the [n] calls
    [FetchPage(p)] are defined as long as the pin count fits an [int]; and
    whenever they are performed they all hit and return [f], the [n] calls
    [UnpinPage(p, false)] after them all return true, and the pin count of
    [p] is [k] again. *)
Theorem C8_fetch_unpin_pairs s p f k n :
  reachable s → page_table_ s !! p = Some f → pin_at s f = Some k →
  0 <= k ∧
  (k + Z.of_nat n <= INT32_MAX →
   is_Some (repeatM n (FetchPgImp p) s)) ∧
  (∀ rs s1,
     repeatM n (FetchPgImp p) s = Some (rs, s1) →
     rs = replicate n (Some f) ∧
     pin_at s1 f = Some (k + Z.of_nat n) ∧
     ∃ s2,
       repeatM n (UnpinPgImp p false) s1 = Some (replicate n true, s2) ∧
       page_table_ s2 !! p = Some f ∧
       pin_at s2 f = Some k).
Proof.
  intros HR Hp Hk. pose proof (reachable_BInv s HR) as HI.
  assert (Hk0 : 0 <= k).
  { apply pin_at_Some in Hk as (pg & Hpg & <-). apply (bi_pin s HI _ pg Hpg). }
  split; [done|]. split.
  { intros Hle.
    destruct (fetch_hits p f n s k HI Hp Hk Hle) as (s1 & Hf & _). by eexists. }
  intros rs s1 Hrun.
  assert (Hle : k + Z.of_nat n <= INT32_MAX).
  { destruct (fetch_defined_bound p f n s k rs s1 HI Hp Hk Hrun) as [->|?];
      [|done].
    apply pin_at_Some in Hk as (pg & Hpg & <-).
    pose proof (bi_pin s HI _ pg Hpg). simpl. lia. }
  destruct (fetch_hits p f n s k HI Hp Hk Hle) as (s1' & Hf & HI1 & Hp1 & Hk1).
  rewrite Hf in Hrun. injection Hrun as <- <-.
  split; [done|]. split; [done|].
  destruct (unpin_hits p false f n s1' (k + Z.of_nat n) HI1 Hp1 Hk1 ltac:(lia))
    as (s2 & Hu & _ & Hp2 & Hk2).
  exists s2. do 2 (split; [done|]).
  rewrite Hk2. f_equal. lia.
Qed.

End claims_pins.

Section claims_selection.
Implicit Types (s : BPMI) (f g p : Z) (pg : Page) (r : LRU.LRUReplacer).

Lemma new_calls_app s s' cs :
  calls_ s' = cs ++ calls_ s → new_calls s s' = cs.
Proof.
  intros H. unfold new_calls. rewrite H, length_app.
  replace (length cs + length (calls_ s) - length (calls_ s))%nat
    with (length cs) by lia.
  by rewrite take_app_length.
Qed.

Lemma is_all_spinned_spec s :
  BInv s →
  is_all_spinned s = true ↔ ∀ pg, pg ∈ pages_ s → 0 < pin_count_ pg.
Proof.
  intros HI. unfold is_all_spinned.
  rewrite to_int32_id.
  2:{ pose proof (bi_pool s HI). unfold INT32_MAX in *. lia. }
  rewrite Nat2Z.id, take_ge by (rewrite (bi_len s HI); lia).
  rewrite forallb_forall. split.
  - intros H pg Hin. pose proof Hin as Hin'.
    apply list_elem_of_In, H in Hin. apply list_elem_of_lookup in Hin' as [i Hi].
    pose proof (bi_pin s HI i pg Hi).
    destruct (Z.eqb_spec (pin_count_ pg) 0); [done|lia].
  - intros H pg Hin%list_elem_of_In. specialize (H pg Hin).
    destruct (Z.eqb_spec (pin_count_ pg) 0); [lia|done].
Qed.

Lemma NewPgImp_after_pick s pid s1 f s2 :
  BInv s → AllocatePage s = Some (pid, s1) → pick_frame s1 = Some (f, s2) →
  (f = -1 → NewPgImp s = Some (None, s2)) ∧
  (f ≠ -1 →
   ∃ r, LRU.Pin f (replacer_ s2) = Some r ∧
        NewPgImp s =
          Some (Some (pid, f),
                install f (mkPage zero_data pid 1 false) pid r s2)).
Proof.
  intros HI Ha Hpick. split.
  - intros ->. by apply (NewPgImp_none s pid s1).
  - intros Hne. pose proof Ha as Ha'.
    apply AllocatePage_Some in Ha' as (_ & _ & _ & ->).
    destruct (pick_frame_inv _ f s2 (BInv_advance s HI) Hpick)
      as (HI2 & _ & _ & [(-> & _)|((Hf & pg & Hpg & Hpin) & _)]); [done|].
    destruct (Pin_spec (replacer_ s2) f (bi_lru s2 HI2)) as (r & Hr & _).
    exists r. split; [done|].
    rewrite (NewPgImp_some s pid _ f s2 pg r Ha Hpick Hf Hpg); [|by rewrite Hpin|done].
    by rewrite Hpin.
Qed.

Lemma FetchPgImp_after_pick s p f s2 :
  BInv s → page_table_ s !! p = None → pick_frame s = Some (f, s2) →
  (f = -1 → FetchPgImp p s = Some (None, s2)) ∧
  (f ≠ -1 →
   ∃ r, LRU.Pin f (replacer_ s2) = Some r ∧
        FetchPgImp p s =
          Some (Some f,
                install f (mkPage (default zero_data (disk_ s2 !! p)) p 1 false)
                  p r (disk_call (CReadPage p) (disk_ s2) s2))).
Proof.
  intros HI Hp Hpick. split.
  - intros ->. by apply FetchPgImp_miss_none.
  - intros Hne.
    destruct (pick_frame_inv _ f s2 HI Hpick)
      as (HI2 & _ & _ & [(-> & _)|((Hf & pg & Hpg & Hpin) & _)]); [done|].
    destruct (Pin_spec (replacer_ s2) f (bi_lru s2 HI2)) as (r & Hr & _).
    exists r. split; [done|].
    rewrite (FetchPgImp_miss_some s p f s2 pg r Hp Hpick Hf Hpg); [|by rewrite Hpin|done].
    by rewrite Hpin.
Qed.

(** The selection discipline on the block itself: which frame it yields and
    whether [Victim] is among the calls it makes. *)
Lemma pick_frame_discipline s :
  BInv s →
  ∃ f s2, pick_frame s = Some (f, s2) ∧
    (∀ f0 rest, free_list_ s = f0 :: rest →
       f = f0 ∧ f ≠ -1 ∧ free_list_ s2 = rest ∧ calls_ s2 = calls_ s) ∧
    (free_list_ s = [] → (∀ pg, pg ∈ pages_ s → 0 < pin_count_ pg) →
       f = -1 ∧ s2 = s) ∧
    (free_list_ s = [] → ¬ (∀ pg, pg ∈ pages_ s → 0 < pin_count_ pg) →
       ∃ cs, calls_ s2 = cs ++ CVictim :: calls_ s ∧ (CPin f ∉ cs) ∧
         match fst (LRU.Victim (replacer_ s)) with
         | Some v => f = v ∧ f ≠ -1
         | None => f = -1
         end).
Proof.
  intros HI. destruct (pick_frame_paths s HI) as (f & s2 & Hpick & Hpath).
  destruct (is_all_spinned_spec s HI) as [Hsp1 Hsp2].
  exists f, s2. split; [done|].
  destruct Hpath
    as [rest Hfl ->|Hfl Hall -> ->|Hfl Hall Hv _ -> ->
        |fs r pg Hfl Hall Hv _ _ Hf Hpg _ ->].
  - split; [|split; intros H; by rewrite H in Hfl].
    intros f0 rest0 H. rewrite H in Hfl. injection Hfl as -> ->.
    split; [done|]. split; [|done].
    destruct (bi_free s HI f ltac:(rewrite H; by left)) as [? _]. lia.
  - split; [intros ? ? H; by rewrite H in Hfl|]. split; [done|].
    intros _ Hn. destruct Hn. by apply Hsp1.
  - split; [intros ? ? H; by rewrite H in Hfl|]. split.
    { intros _ Hp. apply Hsp2 in Hp. congruence. }
    intros _ _. exists []. split; [done|]. split; [apply not_elem_of_nil|].
    by rewrite Hv.
  - split; [intros ? ? H; by rewrite H in Hfl|]. split.
    { intros _ Hp. apply Hsp2 in Hp. congruence. }
    intros _ _.
    exists (if is_dirty_ pg then [CWritePage (page_id_ pg) (data_ pg)] else []).
    simpl. rewrite write_back_calls. split; [done|]. split.
    { destruct (is_dirty_ pg); [|apply not_elem_of_nil].
      by intros [=]%list_elem_of_singleton. }
    rewrite Hv. simpl. split; [done|lia].
Qed.

(** C3. On a well-formed state (every reachable state is one), [NewPage]
    (once the allocator has returned [pid]) and [FetchPage] on a miss obtain
    their frame thus: with a non-empty free list they take its front frame
    and make no [Victim] call; with an empty free list and every frame
    pinned they return none and make no [Victim] call; otherwise they call
    [Victim] and return the frame it names, or none if it declines. *)
Theorem C3_frame_selection s :
  BInv s →
  (∀ pid s1, AllocatePage s = Some (pid, s1) →
     (∀ f rest, free_list_ s = f :: rest →
        ∃ s', NewPgImp s = Some (Some (pid, f), s') ∧
              free_list_ s' = rest ∧ CVictim ∉ new_calls s s') ∧
     (free_list_ s = [] → (∀ pg, pg ∈ pages_ s → 0 < pin_count_ pg) →
        ∃ s', NewPgImp s = Some (None, s') ∧ CVictim ∉ new_calls s s') ∧
     (free_list_ s = [] → ¬ (∀ pg, pg ∈ pages_ s → 0 < pin_count_ pg) →
        ∃ s', NewPgImp s
              = Some ((λ v, (pid, v)) <$> fst (LRU.Victim (replacer_ s)), s') ∧
              CVictim ∈ new_calls s s')) ∧
  (∀ p, page_table_ s !! p = None →
     (∀ f rest, free_list_ s = f :: rest →
        ∃ s', FetchPgImp p s = Some (Some f, s') ∧
              free_list_ s' = rest ∧ CVictim ∉ new_calls s s') ∧
     (free_list_ s = [] → (∀ pg, pg ∈ pages_ s → 0 < pin_count_ pg) →
        ∃ s', FetchPgImp p s = Some (None, s') ∧ CVictim ∉ new_calls s s') ∧
     (free_list_ s = [] → ¬ (∀ pg, pg ∈ pages_ s → 0 < pin_count_ pg) →
        ∃ s', FetchPgImp p s = Some (fst (LRU.Victim (replacer_ s)), s') ∧
              CVictim ∈ new_calls s s')).
Proof.
  intros HI. split.
  - intros pid s1 Ha. pose proof Ha as Ha'.
    apply AllocatePage_Some in Ha' as (_ & _ & _ & ->).
    destruct (pick_frame_discipline (advance s) (BInv_advance s HI))
      as (f & s2 & Hpick & Hfree & Hpinned & Hvictim).
    destruct (NewPgImp_after_pick s pid _ f s2 HI Ha Hpick) as [Hnone Hsome].
    split; [|split].
    + intros f0 rest Hfl. destruct (Hfree f0 rest Hfl) as (-> & Hne & Hfl2 & Hc).
      destruct (Hsome Hne) as (r & _ & Hnew). eexists. split; [exact Hnew|].
      split; [done|].
      rewrite (new_calls_app s _ [CPin f0]) by (simpl; by rewrite Hc).
      by intros [=]%list_elem_of_singleton.
    + intros Hfl Hp. destruct (Hpinned Hfl Hp) as [-> ->].
      exists (advance s). split; [by apply Hnone|].
      rewrite (new_calls_app s _ []) by done. apply not_elem_of_nil.
    + intros Hfl Hp. destruct (Hvictim Hfl Hp) as (cs & Hc & _ & Hv).
      simpl in Hv. destruct (fst (LRU.Victim (replacer_ s))) as [v|].
      * destruct Hv as [-> Hne]. destruct (Hsome Hne) as (r & _ & Hnew).
        eexists. split; [exact Hnew|].
        rewrite (new_calls_app s _ (CPin v :: cs ++ [CVictim]))
          by (simpl; rewrite Hc, <- app_assoc; done).
        right. apply elem_of_app. right. by left.
      * subst f. exists s2. split; [by apply Hnone|].
        rewrite (new_calls_app s _ (cs ++ [CVictim]))
          by (rewrite Hc, <- app_assoc; done).
        apply elem_of_app. right. by left.
  - intros p Hmiss.
    destruct (pick_frame_discipline s HI)
      as (f & s2 & Hpick & Hfree & Hpinned & Hvictim).
    destruct (FetchPgImp_after_pick s p f s2 HI Hmiss Hpick) as [Hnone Hsome].
    split; [|split].
    + intros f0 rest Hfl. destruct (Hfree f0 rest Hfl) as (-> & Hne & Hfl2 & Hc).
      destruct (Hsome Hne) as (r & _ & Hnew). eexists. split; [exact Hnew|].
      split; [done|].
      rewrite (new_calls_app s _ [CPin f0; CReadPage p])
        by (simpl; by rewrite Hc).
      intros [[=]|[=]%list_elem_of_singleton]%elem_of_cons.
    + intros Hfl Hp. destruct (Hpinned Hfl Hp) as [-> ->].
      exists s. split; [by apply Hnone|].
      rewrite (new_calls_app s _ []) by done. apply not_elem_of_nil.
    + intros Hfl Hp. destruct (Hvictim Hfl Hp) as (cs & Hc & _ & Hv).
      destruct (fst (LRU.Victim (replacer_ s))) as [v|].
      * destruct Hv as [-> Hne]. destruct (Hsome Hne) as (r & _ & Hnew).
        eexists. split; [exact Hnew|].
        rewrite (new_calls_app s _ (CPin v :: CReadPage p :: cs ++ [CVictim]))
          by (simpl; rewrite Hc, <- app_assoc; done).
        right. right. apply elem_of_app. right. by left.
      * subst f. exists s2. split; [by apply Hnone|].
        rewrite (new_calls_app s _ (cs ++ [CVictim]))
          by (rewrite Hc, <- app_assoc; done).
        apply elem_of_app. right. by left.
Qed.

End claims_selection.

Section claims_partition.
Implicit Types (s : BPMI) (f g p : Z) (pg : Page) (r : LRU.LRUReplacer).

Lemma elem_of_pinned_resident s f :
  f ∈ pinned_resident_frames s ↔
  f ∈ table_frames s ∧
  ∃ pg, pages_ s !! Z.to_nat f = Some pg ∧ 0 < pin_count_ pg.
Proof.
  unfold pinned_resident_frames, is_pinned. rewrite list_elem_of_filter.
  destruct (pages_ s !! Z.to_nat f) as [pg|]; split.
  - intros [Hpin ?]. split; [done|]. exists pg. split; [done|].
    by apply bool_decide_unpack in Hpin.
  - intros (? & pg' & [= <-] & Hpin). split; [|done].
    by apply bool_decide_pack.
  - by intros [[] _].
  - by intros (_ & ? & ? & _).
Qed.

(** C2, as the source has it. In every state a fresh manager reaches: the
    page table names distinct frames; these are disjoint from the free list;
    the pinned resident frames are among them, and are disjoint from the
    free list and from the replacer's evictable set; every frame of the page
    table is either pinned or evictable; the page table and the free list together hold at most
    [pool_size] frames, and exactly [pool_size] when the client only fetches
    ids below the allocation counter and the counter has not overflowed. *)
Theorem C2_frame_partition pool_size num_instances instance_index disk s0 ops s :
  valid_config pool_size num_instances instance_index →
  create pool_size num_instances instance_index disk = Some s0 →
  run ops s0 = Some s →
  NoDup (table_frames s) ∧ NoDup (free_list_ s) ∧
  NoDup (evictable_frames s) ∧
  disjoint_lists (table_frames s) (free_list_ s) ∧
  (∀ f, f ∈ pinned_resident_frames s → f ∈ table_frames s) ∧
  disjoint_lists (pinned_resident_frames s) (free_list_ s) ∧
  disjoint_lists (pinned_resident_frames s) (evictable_frames s) ∧
  (∀ f, f ∈ table_frames s →
        f ∈ pinned_resident_frames s ∨ f ∈ evictable_frames s) ∧
  (length (table_frames s) + length (free_list_ s) <= pool_size)%nat ∧
  (polite ops s0 →
   (length (table_frames s) + length (free_list_ s) = pool_size)%nat).
Proof.
  intros Hv Hc Hrun.
  destruct (create_inv _ _ _ _ _ Hv Hc) as (HI0 & HT0 & HC0).
  pose proof (run_BInv ops s0 s HI0 Hrun) as HI.
  assert (HR : reachable s).
  { apply (run_reachable ops s0); [|done].
    by apply (reach_create pool_size num_instances instance_index disk). }
  pose proof (reachable_Tracked s HR) as HT.
  destruct (run_config ops s0 s HI0 Hrun) as (Hps & _).
  destruct (create_fields _ _ _ _ _ Hc) as (Hps0 & _).
  rewrite Hps0 in Hps.
  assert (Hdisj : disjoint_lists (table_frames s) (free_list_ s)).
  { intros f (p & Hp)%elem_of_table_frames.
    by destruct (bi_table s HI p f Hp). }
  split; [by apply table_frames_NoDup|].
  split; [apply HI|].
  split; [apply Inv_NoDup_frames, HI|].
  split; [done|].
  split. { by intros f [Hf _]%elem_of_pinned_resident. }
  split. { intros f [Hf _]%elem_of_pinned_resident. by apply Hdisj. }
  split.
  { intros f (_ & pg & Hpg & Hpin)%elem_of_pinned_resident Hev.
    destruct (bi_evictable s HI f Hev) as (_ & pg' & Hpg' & Hz).
    assert (pg' = pg) by congruence. subst. lia. }
  split.
  { intros f Hf. pose proof Hf as (p & Hp)%elem_of_table_frames.
    destruct (bi_table s HI p f Hp) as [(Hf0 & pg & Hpg & _) Hnf].
    pose proof (bi_pin s HI _ pg Hpg) as Hrange.
    destruct (decide (pin_count_ pg = 0)) as [Hz|Hnz].
    - right. destruct (HT _ pg Hpg Hz) as [Hin|Hin];
        rewrite Z2Nat.id in Hin by done; done.
    - left. apply elem_of_pinned_resident. split; [done|].
      exists pg. split; [done|lia]. }
  rewrite length_table_frames, <- Hps. split; [by apply count_le|].
  intros Hpol. apply count_eq; [done|]. by apply (run_Covered ops s0).
Qed.

Lemma run_from_fields pool_size num_instances instance_index ops s
    {A} (h : BPMI → A) (a : A) :
  run_from pool_size num_instances instance_index ops = Some s →
  h <$> run_from pool_size num_instances instance_index ops = Some a →
  h s = a.
Proof. intros ->. by intros [= <-]. Qed.

(** C2 as worded fails on three counts. After [NewPage; NewPage;
    UnpinPage(0, false); DeletePage(0)] on a pool of two frames, frame 1 is
    both in the page table and pinned resident, frame 0 is both in the free
    list and evictable, and the four sizes sum to 4. After [FetchPage(0);
    NewPage] on a fresh pool of two frames, [NewPage] hands out id 0 again,
    the frame that held page 0 is bound nowhere, and the page table and the
    free list hold one frame between them. *)
Lemma C2_counterexample :
  (table_frames <$>
     run_from 2 1 0 [ONewPage; ONewPage; OUnpinPage 0 false; ODeletePage 0]
   = Some [1] ∧
   free_list_ <$>
     run_from 2 1 0 [ONewPage; ONewPage; OUnpinPage 0 false; ODeletePage 0]
   = Some [0] ∧
   pinned_resident_frames <$>
     run_from 2 1 0 [ONewPage; ONewPage; OUnpinPage 0 false; ODeletePage 0]
   = Some [1] ∧
   evictable_frames <$>
     run_from 2 1 0 [ONewPage; ONewPage; OUnpinPage 0 false; ODeletePage 0]
   = Some [0]) ∧
  (table_frames <$> run_from 2 1 0 [OFetchPage 0; ONewPage] = Some [1] ∧
   free_list_ <$> run_from 2 1 0 [OFetchPage 0; ONewPage] = Some []) ∧
  ¬ (∀ s, reachable s → spec_partition s) ∧
  ¬ (∀ s, reachable s → disjoint_lists (free_list_ s) (evictable_frames s)) ∧
  ¬ (∀ s, reachable s →
          (length (table_frames s) + length (free_list_ s) = pool_size_ s)%nat).
Proof.
  assert (Hv : valid_config 2 1 0) by (unfold valid_config, INT32_MAX; lia).
  assert (H1 : table_frames <$>
     run_from 2 1 0 [ONewPage; ONewPage; OUnpinPage 0 false; ODeletePage 0]
   = Some [1]) by (vm_compute; reflexivity).
  assert (H2 : free_list_ <$>
     run_from 2 1 0 [ONewPage; ONewPage; OUnpinPage 0 false; ODeletePage 0]
   = Some [0]) by (vm_compute; reflexivity).
  assert (H3 : pinned_resident_frames <$>
     run_from 2 1 0 [ONewPage; ONewPage; OUnpinPage 0 false; ODeletePage 0]
   = Some [1]) by (vm_compute; reflexivity).
  assert (H4 : evictable_frames <$>
     run_from 2 1 0 [ONewPage; ONewPage; OUnpinPage 0 false; ODeletePage 0]
   = Some [0]) by (vm_compute; reflexivity).
  assert (H5 : table_frames <$> run_from 2 1 0 [OFetchPage 0; ONewPage]
               = Some [1]) by (vm_compute; reflexivity).
  assert (H6 : free_list_ <$> run_from 2 1 0 [OFetchPage 0; ONewPage]
               = Some []) by (vm_compute; reflexivity).
  assert (H7 : pool_size_ <$> run_from 2 1 0 [OFetchPage 0; ONewPage]
               = Some 2%nat) by (vm_compute; reflexivity).
  split; [done|]. split; [done|].
  destruct (run_from 2 1 0 [ONewPage; ONewPage; OUnpinPage 0 false;
                            ODeletePage 0]) as [s|] eqn:E; [|done].
  destruct (run_from 2 1 0 [OFetchPage 0; ONewPage]) as [s'|] eqn:E';
    [|done].
  pose proof (run_from_reachable 2 1 0 _ s Hv E) as HR.
  pose proof (run_from_reachable 2 1 0 _ s' Hv E') as HR'.
  injection H1 as H1. injection H2 as H2. injection H3 as H3.
  injection H4 as H4. injection H5 as H5. injection H6 as H6.
  injection H7 as H7.
  split; [|split].
  - intros H. destruct (H s HR) as (_ & _ & _ & _ & Hd & _).
    apply (Hd 0); [rewrite H2|rewrite H4]; by left.
  - intros H. apply (H s HR 0); [rewrite H2|rewrite H4]; by left.
  - intros H. specialize (H s' HR'). rewrite H5, H6, H7 in H. done.
Qed.

End claims_partition.

Section claims_replacer.
Import LRU.
Implicit Types (r : LRUReplacer) (f : Z).

(** C9. In a replacer state where the map holds exactly the listed frames,
    each mapped to its own node, the source's [Pin] (splice the node to the
    front, pop the front, erase the map entry) is defined and yields the
    state that erasing the node directly yields. *)
Theorem C9_Pin_splice_is_erase r f :
  nodes_distinct r → map_matches_list r →
  Pin f r = Some (Pin_erase f r).
Proof. intros Hnd [_ Hit]. by apply Pin_refines. Qed.

(** C4 as worded fails where the replacer is full: with capacity 1 and
    frame 1 evictable, [Unpin(2)] of the absent frame 2 inserts nothing. *)
Lemma C4_counterexample :
  reachable 1 (Unpin 1 (create 1)) ∧
  (2 ∉ frames (Unpin 1 (create 1))) ∧
  Unpin 2 (Unpin 1 (create 1)) = Unpin 1 (create 1) ∧
  frames (Unpin 2 (Unpin 1 (create 1))) ≠ 2 :: frames (Unpin 1 (create 1)).
Proof.
  assert (frames (Unpin 1 (create 1)) = [1]) as Hfr by (vm_compute; reflexivity).
  assert (Unpin 2 (Unpin 1 (create 1)) = Unpin 1 (create 1)) as Hun
    by (vm_compute; reflexivity).
  split; [|split; [|split]].
  - by apply (reach_step 1 (OUnpin 1) (create 1)); [apply reach_create|].
  - rewrite Hfr. by intros [=]%list_elem_of_singleton.
  - done.
  - rewrite Hun, Hfr. done.
Qed.

(** C4, as the source has it. In a state satisfying the representation
    invariant (every state reached from creation does): [Victim] returns
    none exactly when the list is empty, and then changes nothing; otherwise
    it returns the back frame and removes it from list and map. [Unpin] of a
    listed frame changes nothing; [Unpin] of an unlisted frame puts it at
    the front when fewer than [capacity_] frames are listed, and changes
    nothing when the replacer is full. With capacity 7, after [Unpin(1)] ..
    [Unpin(6)], [Unpin(1)], [Victim] returns 1, and after [Pin(3)],
    [Pin(4)] the next [Victim] calls return 2, 5, 6. *)
Theorem C4_lru_replacer :
  (∀ cap r, reachable cap r → Inv r) ∧
  (∀ r, Inv r → fst (Victim r) = None ↔ frames r = []) ∧
  (∀ r, Inv r → frames r = [] → Victim r = (None, r)) ∧
  (∀ r fs f, Inv r → frames r = fs ++ [f] →
     fst (Victim r) = Some f ∧
     frames (snd (Victim r)) = fs ∧
     lru_map_ (snd (Victim r)) = delete f (lru_map_ r)) ∧
  (∀ r f, Inv r → f ∈ frames r → Unpin f r = r) ∧
  (∀ r f, Inv r → f ∉ frames r → length (frames r) ≠ capacity_ r →
     frames (Unpin f r) = f :: frames r ∧
     is_Some (lru_map_ (Unpin f r) !! f)) ∧
  (∀ r f, Inv r → length (frames r) = capacity_ r → Unpin f r = r) ∧
  LRUScript.outcomes
    [OUnpin 1; OUnpin 2; OUnpin 3; OUnpin 4; OUnpin 5; OUnpin 6; OUnpin 1;
     OVictim; OPin 3; OPin 4; OVictim; OVictim; OVictim]
    (create 7)
  = Some [Some 1; Some 2; Some 5; Some 6].
Proof.
  split; [intros cap r Hr; by destruct (reachable_Inv cap r Hr)|].
  split.
  { intros r HI.
    destruct (Victim_cases r HI)
      as [[Hnil ->]|(fs & f & r' & Hfs & -> & _)]; simpl.
    - done.
    - rewrite Hfs. split; [done|]. by destruct fs. }
  split; [apply Victim_empty|].
  split.
  { intros r fs f HI Hfs.
    destruct (Victim_back r fs f HI Hfs) as (r' & -> & ? & ? & _). done. }
  split; [apply Unpin_present|].
  split.
  { intros r f HI Hni Hlen.
    destruct (Unpin_fresh r f HI Hni Hlen) as [-> ->]. split; [done|].
    rewrite lookup_insert_eq. by eexists. }
  split; [apply Unpin_full|].
  vm_compute. reflexivity.
Qed.

End claims_replacer.

(** * Further properties of the code *)

(** ** The replacer on its own *)

Section lru_more.
Import LRU.
Implicit Types (r : LRUReplacer) (f : Z).

Lemma filter_ne_absent f (l : list Z) : f ∉ l → filter (λ g, g ≠ f) l = l.
Proof.
  induction l as [|x l IH]; intros Hni; [done|].
  apply not_elem_of_cons in Hni as [Hne Hni].
  rewrite filter_cons_True by done. by rewrite IH.
Qed.

Lemma not_elem_of_filter_ne f (l : list Z) : f ∉ filter (λ g, g ≠ f) l.
Proof. by intros [? _]%list_elem_of_filter. Qed.

(** The replacer never tracks more frames than its capacity. *)
Lemma reachable_length cap r : reachable cap r → (length (frames r) <= cap)%nat.
Proof.
  induction 1 as [|o r r' Hr IH Hstep]; [simpl; lia|].
  destruct (reachable_Inv cap r Hr) as [HI Hcap].
  destruct o as [|f|f]; simpl in Hstep.
  - injection Hstep as <-.
    destruct (Victim_cases r HI)
      as [[_ ->]|(fs & f & r1 & Hfs & -> & Hfs' & _)]; simpl; [done|].
    rewrite Hfs' . rewrite Hfs, length_app in IH. lia.
  - destruct (Pin_spec r f HI) as (r1 & Hp & _ & _ & Hfr).
    rewrite Hp in Hstep. injection Hstep as <-. rewrite Hfr.
    pose proof (length_filter (λ g, g ≠ f) (frames r)). lia.
  - injection Hstep as <-.
    destruct (decide (f ∈ frames r)) as [Hin|Hni].
    { by rewrite Unpin_present. }
    destruct (decide (length (frames r) = capacity_ r)) as [Hfull|Hroom].
    { by rewrite Unpin_full. }
    destruct (Unpin_fresh r f HI Hni Hroom) as [-> _]. simpl. lia.
Qed.

(** X1. The replacer's invariants. In every state reached from creation the
    capacity is the one given, at most that many frames are tracked, no
    frame is tracked twice, the map's keys are the tracked frames, and [Pin]
    of any frame is defined: the iterator it splices is always valid. *)
Theorem LRU_reachable_bounds cap r :
  reachable cap r →
  capacity_ r = cap ∧
  (length (frames r) <= cap)%nat ∧
  NoDup (frames r) ∧
  size (lru_map_ r) = length (frames r) ∧
  (∀ f, f ∈ frames r ↔ is_Some (lru_map_ r !! f)) ∧
  (∀ f, is_Some (Pin f r)).
Proof.
  intros Hr. destruct (reachable_Inv cap r Hr) as [HI Hcap].
  split; [done|]. split; [by apply reachable_length|].
  split; [by apply Inv_NoDup_frames|]. split; [by apply Inv_size|].
  split; [intros f; by apply elem_of_frames|].
  intros f. destruct (Pin_spec r f HI) as (r' & -> & _). by eexists.
Qed.

(** [Pin] in full: defined, and what it leaves. *)
Lemma Pin_removes r f :
  Inv r →
  ∃ r', Pin f r = Some r' ∧ Inv r' ∧ capacity_ r' = capacity_ r ∧
        frames r' = filter (λ g, g ≠ f) (frames r) ∧
        lru_map_ r' = delete f (lru_map_ r) ∧
        (f ∉ frames r') ∧
        (f ∉ frames r → r' = r).
Proof.
  intros HI. destruct (Pin_spec r f HI) as (r' & Hp & HI' & Hcap & Hfr).
  exists r'. do 4 (split; [done|]).
  assert (Hr' : r' = Pin_erase f r).
  { pose proof (Pin_refines r f (inv_nodes r HI)
                  (λ g n, proj1 (inv_map r HI g n))) as H. congruence. }
  split; [|split].
  - rewrite Hr'. unfold Pin_erase.
    destruct (lru_map_ r !! f) eqn:E; [done|]. simpl.
    symmetry. by apply delete_id.
  - rewrite Hfr. apply not_elem_of_filter_ne.
  - intros Hni. rewrite Hr'. unfold Pin_erase.
    rewrite (elem_of_frames r f HI), <- eq_None_not_Some in Hni.
    by rewrite Hni.
Qed.

(** X2. What [Pin] does. Under the representation invariant, [Pin(f)] is
    defined and keeps the invariant and the capacity; it removes [f] and
    only [f] from the tracked frames, keeping the order of the others, and
    changes nothing when [f] is not tracked. *)
Theorem LRU_Pin_effect r f :
  Inv r →
  ∃ r', Pin f r = Some r' ∧ Inv r' ∧ capacity_ r' = capacity_ r ∧
        frames r' = filter (λ g, g ≠ f) (frames r) ∧
        lru_map_ r' = delete f (lru_map_ r) ∧
        (f ∉ frames r') ∧
        (f ∉ frames r → r' = r).
Proof. apply Pin_removes. Qed.

(** X3. [Pin] undoes [Unpin]. When [Unpin(f)] inserts (the frame is not
    tracked and the replacer has room), [Pin(f)] after it is defined and
    restores the tracked frames, their order, and the map. *)
Theorem LRU_Unpin_then_Pin r f :
  Inv r → f ∉ frames r → length (frames r) ≠ capacity_ r →
  ∃ r', Pin f (Unpin f r) = Some r' ∧
        frames r' = frames r ∧ lru_map_ r' = lru_map_ r ∧
        capacity_ r' = capacity_ r.
Proof.
  intros HI Hni Hroom.
  destruct (Unpin_fresh r f HI Hni Hroom) as [Hfr Hmap].
  destruct (Pin_removes (Unpin f r) f (Inv_Unpin r f HI))
    as (r' & Hp & _ & Hcap & Hfr' & Hmap' & _).
  exists r'. split; [done|]. split; [|split].
  - rewrite Hfr', Hfr, filter_cons_False by (intros H; by apply H).
    by apply filter_ne_absent.
  - rewrite Hmap', Hmap. apply delete_insert_id.
    by rewrite (elem_of_frames r f HI), <- eq_None_not_Some in Hni.
  - by rewrite Hcap, capacity_Unpin.
Qed.

(** X4. A [Pin] / [Unpin] cycle renews a frame. In a state reached from
    creation, pinning a tracked frame and unpinning it again moves it to the
    front (most recently unpinned) and keeps the order of the others. *)
Theorem LRU_Pin_then_Unpin cap r f :
  reachable cap r → f ∈ frames r →
  ∃ r', Pin f r = Some r' ∧
        frames (Unpin f r') = f :: filter (λ g, g ≠ f) (frames r).
Proof.
  intros Hr Hin. destruct (reachable_Inv cap r Hr) as [HI Hcap].
  pose proof (reachable_length cap r Hr) as Hlen.
  destruct (Pin_removes r f HI) as (r' & Hp & HI' & Hcap' & Hfr & _ & Hni & _).
  exists r'. split; [done|].
  destruct (Unpin_fresh r' f HI' Hni) as [-> _]; [|by rewrite Hfr].
  rewrite Hcap', Hcap, Hfr.
  pose proof (length_filter_lt (λ g, g ≠ f) (frames r) f Hin
                ltac:(intros H; by apply H)).
  lia.
Qed.

Lemma outcomes_unpins fs : ∀ r,
  Inv r → NoDup fs → (∀ f, f ∈ fs → f ∉ frames r) →
  (length (frames r) + length fs <= capacity_ r)%nat →
  ∃ r', (∀ rest, LRUScript.outcomes ((OUnpin <$> fs) ++ rest) r
                 = LRUScript.outcomes rest r') ∧
        frames r' = reverse fs ++ frames r ∧ Inv r' ∧
        capacity_ r' = capacity_ r.
Proof.
  induction fs as [|f fs IH]; intros r HI Hnd Hfresh Hlen.
  - exists r. split; [done|]. split; [done|]. by split.
  - apply NoDup_cons in Hnd as [Hf Hnd]. simpl in Hlen.
    destruct (Unpin_fresh r f HI) as [Hfr _].
    { apply Hfresh. by left. }
    { lia. }
    destruct (IH (Unpin f r)) as (r' & Hout & Hfr' & HI' & Hcap).
    + by apply Inv_Unpin.
    + done.
    + intros g Hg. rewrite Hfr. apply not_elem_of_cons. split.
      * by intros ->.
      * apply Hfresh. by right.
    + rewrite Hfr, capacity_Unpin. simpl. lia.
    + exists r'. split; [|split; [|split]].
      * intros rest. simpl. apply Hout.
      * rewrite Hfr', Hfr, reverse_cons, <- app_assoc. done.
      * done.
      * by rewrite Hcap, capacity_Unpin.
Qed.

Lemma outcomes_victims fs : ∀ r,
  Inv r → frames r = reverse fs →
  ∃ r', (∀ rest, LRUScript.outcomes (replicate (length fs) OVictim ++ rest) r
                 = (λ vs, (Some <$> fs) ++ vs) <$> LRUScript.outcomes rest r') ∧
        frames r' = [] ∧ Inv r'.
Proof.
  induction fs as [|f fs IH]; intros r HI Hfr.
  - exists r. split; [|done]. intros rest. simpl.
    by destruct (LRUScript.outcomes rest r).
  - rewrite reverse_cons in Hfr.
    destruct (Victim_back r (reverse fs) f HI Hfr)
      as (r1 & Hv & Hfr1 & _ & _ & HI1).
    destruct (IH r1 HI1 Hfr1) as (r' & Hout & Hnil & HI').
    exists r'. split; [|done]. intros rest. simpl.
    rewrite Hv. simpl. rewrite Hout.
    by destruct (LRUScript.outcomes rest r').
Qed.

(** X5. Victims come out in unpin order. On a fresh replacer, after [Unpin]
    of pairwise distinct frames, no more of them than the capacity, as many
    [Victim] calls return these frames in the order they were unpinned, and
    one more [Victim] returns none. *)
Theorem LRU_victims_in_unpin_order cap fs :
  NoDup fs → (length fs <= cap)%nat →
  LRUScript.outcomes
    ((OUnpin <$> fs) ++ replicate (length fs) OVictim ++ [OVictim])
    (create cap)
  = Some ((Some <$> fs) ++ [None]).
Proof.
  intros Hnd Hlen.
  destruct (outcomes_unpins fs (create cap) (Inv_create cap) Hnd)
    as (r1 & Hout1 & Hfr1 & HI1 & _).
  { intros f _. apply not_elem_of_nil. }
  { simpl. lia. }
  rewrite Hout1. rewrite app_nil_r in Hfr1.
  destruct (outcomes_victims fs r1 HI1 Hfr1) as (r2 & Hout2 & Hnil & HI2).
  rewrite Hout2. simpl. by rewrite (Victim_empty r2 HI2 Hnil).
Qed.

End lru_more.

(** ** Flushing every page *)

Section flush_all.
Implicit Types (s : BPMI) (f g p : Z) (pg : Page).

Lemma flush_entries_effect entries : ∀ s,
  BInv s →
  (∀ e, e ∈ entries → page_table_ s !! e.1 = Some e.2) →
  ∃ s', flush_entries entries s = Some (tt, s') ∧ same_core s s' ∧
    (∀ i, pages_ s' !! i
          = (λ pg, if bool_decide (Z.of_nat i ∈ entries.*2)
                   then with_dirty false pg else pg) <$> pages_ s !! i) ∧
    (∀ p f pg, (p, f) ∈ entries → pages_ s !! Z.to_nat f = Some pg →
               disk_ s' !! p = Some (data_ pg)) ∧
    (∀ q, q ∉ entries.*1 → disk_ s' !! q = disk_ s !! q).
Proof.
  induction entries as [|[p f] rest IH]; intros s HI Hent.
  - exists s. split; [done|]. split; [apply same_core_refl|].
    split; [|split].
    + intros i. simpl. by destruct (pages_ s !! i).
    + intros ? ? ? H. by apply elem_of_nil in H.
    + done.
  - destruct (bi_table s HI p f (Hent (p, f) (list_elem_of_here _ _)))
      as [(Hf & pg & Hpg & Hid) _].
    set (s1 := set_pages (<[Z.to_nat f := with_dirty false pg]> (pages_ s))
                 (disk_call (CWritePage (page_id_ pg) (data_ pg))
                            (<[page_id_ pg := data_ pg]> (disk_ s)) s)).
    assert (Hsc : same_core s s1) by by apply same_core_flush.
    assert (Hlt : (Z.to_nat f < length (pages_ s))%nat)
      by by apply lookup_lt_Some in Hpg.
    destruct (IH s1) as (s' & Hrun & Hsc' & Hpages & Hdisk & Hother).
    { by apply (BInv_same_core s). }
    { intros e He. simpl. apply Hent. by right. }
    exists s'. split; [|split; [by apply (same_core_trans s s1)|]].
    { simpl. unfold bind at 1.
      assert (page_at f s = Some (pg, s)) as -> by by apply page_at_Some.
      exact Hrun. }
    split; [|split].
    + intros i. rewrite Hpages.
      change (pages_ s1) with (<[Z.to_nat f := with_dirty false pg]> (pages_ s)).
      rewrite fmap_cons. cbn [snd].
      destruct (decide (i = Z.to_nat f)) as [->|Hne].
      * rewrite list_lookup_insert_eq, Hpg by done.
        cbn [fmap option_fmap option_map].
        rewrite (bool_decide_eq_true_2 (Z.of_nat (Z.to_nat f) ∈ f :: rest.*2))
          by (apply elem_of_cons; left; lia).
        by destruct (bool_decide _).
      * rewrite list_lookup_insert_ne by done.
        destruct (pages_ s !! i) as [pgi|]; [|done].
        cbn [fmap option_fmap option_map]. f_equal.
        destruct (decide (Z.of_nat i ∈ rest.*2)) as [Hin|Hni].
        -- rewrite !bool_decide_eq_true_2; [done|by right|done].
        -- rewrite !bool_decide_eq_false_2; [done| |done].
           intros [?|?]%elem_of_cons; [lia|done].
    + intros p0 f0 pg0 Hin Hpg0.
      destruct (decide ((p0, f0) ∈ rest)) as [Hrest|Hnrest].
      * destruct (decide (Z.to_nat f0 = Z.to_nat f)) as [Heq|Hne].
        -- rewrite Heq, Hpg in Hpg0. injection Hpg0 as <-.
           apply (Hdisk p0 f0 (with_dirty false pg)); [done|].
           simpl. by rewrite Heq, list_lookup_insert_eq.
        -- apply (Hdisk p0 f0 pg0); [done|].
           simpl. by rewrite list_lookup_insert_ne.
      * apply elem_of_cons in Hin as [[= -> ->]|?]; [|done].
        assert (pg0 = pg) as -> by congruence.
        rewrite Hother.
        -- simpl. by rewrite Hid, lookup_insert_eq.
        -- intros ([p' f'] & Hp' & Hin')%list_elem_of_fmap. simpl in Hp'.
           subst p'. apply Hnrest.
           assert (page_table_ s !! p = Some f') as Hf'
             by (apply (Hent (p, f')); by right).
           pose proof (Hent (p, f) (list_elem_of_here _ _)) as Hf0.
           simpl in Hf', Hf0. rewrite Hf0 in Hf'. by injection Hf' as <-.
    + intros q Hq. apply not_elem_of_cons in Hq as [Hne Hq].
      rewrite Hother by done. simpl.
      rewrite lookup_insert_ne; [done|]. by rewrite Hid.
Qed.

(** [FlushAllPgsImp] in full, on a well-formed state. *)
Lemma FlushAllPgsImp_effect s :
  BInv s →
  ∃ s', FlushAllPgsImp s = Some (tt, s') ∧ same_core s s' ∧
    (∀ p f, page_table_ s !! p = Some f →
       ∃ pg, pages_ s !! Z.to_nat f = Some pg ∧
             pages_ s' !! Z.to_nat f = Some (with_dirty false pg) ∧
             disk_ s' !! p = Some (data_ pg)) ∧
    (∀ i, Z.of_nat i ∉ table_frames s → pages_ s' !! i = pages_ s !! i) ∧
    (∀ q, page_table_ s !! q = None → disk_ s' !! q = disk_ s !! q).
Proof.
  intros HI.
  destruct (flush_entries_effect (map_to_list (page_table_ s)) s HI)
    as (s' & Hrun & Hsc & Hpages & Hdisk & Hother).
  { intros [p f] He. by apply elem_of_map_to_list in He. }
  exists s'. split; [done|]. split; [done|]. split; [|split].
  - intros p f Hp.
    destruct (bi_table s HI p f Hp) as [(Hf & pg & Hpg & _) _].
    exists pg. split; [done|]. split.
    + rewrite Hpages, Hpg. simpl. rewrite bool_decide_eq_true_2; [done|].
      rewrite Z2Nat.id by done. apply elem_of_table_frames. by exists p.
    + apply (Hdisk p f pg); [|done]. by apply elem_of_map_to_list.
  - intros i Hi. rewrite Hpages. unfold table_frames in Hi.
    rewrite bool_decide_eq_false_2 by done.
    by destruct (pages_ s !! i).
  - intros q Hq. apply Hother.
    intros ([q' f] & Hq' & Hin)%list_elem_of_fmap. simpl in Hq'. subst q'.
    apply elem_of_map_to_list in Hin. congruence.
Qed.

(** X6. [FlushAllPages]. On a reachable state it is defined; every page in
    the page table is written to disk with its frame's data and its frame
    becomes clean; frames outside the page table and disk blocks of other
    pages are untouched; and data, page ids, pin counts, the page table,
    the free list, the replacer and the allocation counter are as they
    were. *)
Theorem FlushAllPgsImp_flushes_all s :
  reachable s →
  ∃ s', FlushAllPgsImp s = Some (tt, s') ∧
    page_table_ s' = page_table_ s ∧ free_list_ s' = free_list_ s ∧
    replacer_ s' = replacer_ s ∧ next_page_id_ s' = next_page_id_ s ∧
    (∀ p f, page_table_ s !! p = Some f →
       ∃ pg, pages_ s !! Z.to_nat f = Some pg ∧
             pages_ s' !! Z.to_nat f
             = Some (mkPage (data_ pg) (page_id_ pg) (pin_count_ pg) false) ∧
             disk_ s' !! p = Some (data_ pg)) ∧
    (∀ i, Z.of_nat i ∉ table_frames s → pages_ s' !! i = pages_ s !! i) ∧
    (∀ q, page_table_ s !! q = None → disk_ s' !! q = disk_ s !! q).
Proof.
  intros HR. pose proof (reachable_BInv s HR) as HI.
  destruct (FlushAllPgsImp_effect s HI)
    as (s' & Hrun & [_ _ _ Hn Hr Hf Ht _] & Hres & Hout & Hdisk).
  exists s'. by repeat split.
Qed.

End flush_all.

(** ** The shape of reachable states *)

Section shape.
Implicit Types (s : BPMI) (f g p : Z) (pg : Page).

Lemma FreeFresh_keep s s' :
  (∀ g, g ∈ free_list_ s' →
        g ∈ free_list_ s ∧ pages_ s' !! Z.to_nat g = pages_ s !! Z.to_nat g) →
  FreeFresh s → FreeFresh s'.
Proof. intros H HF g Hg. destruct (H g Hg) as [Hin ->]. by apply HF. Qed.

Lemma free_frame_nonneg s g : BInv s → g ∈ free_list_ s → 0 <= g.
Proof. intros HI Hg. by destruct (bi_free s HI g Hg). Qed.

Lemma FreeFresh_store s f new_page s' :
  BInv s → 0 <= f → f ∉ free_list_ s →
  free_list_ s' = free_list_ s →
  pages_ s' = <[Z.to_nat f := new_page]> (pages_ s) →
  FreeFresh s → FreeFresh s'.
Proof.
  intros HI Hf Hnin Hfr Hpg. apply FreeFresh_keep. intros g Hg.
  rewrite Hfr in Hg. split; [done|]. rewrite Hpg.
  apply list_lookup_insert_ne. intros Heq.
  pose proof (free_frame_nonneg s g HI Hg).
  assert (f = g) by lia. by subst.
Qed.

Lemma pick_path_free_list s f s2 g :
  pick_path s f s2 → g ∈ free_list_ s2 → g ∈ free_list_ s.
Proof.
  intros [rest Hfr ->| _ _ _ ->| _ _ _ _ _ ->|fs r pg _ _ _ _ _ _ _ _ ->];
    simpl; rewrite ?write_back_free_list; simpl; try done.
  rewrite Hfr. by right.
Qed.

Lemma pick_path_FreeFresh s f s2 :
  pick_path s f s2 → FreeFresh s → FreeFresh s2.
Proof.
  intros Hp. apply FreeFresh_keep. intros g Hg.
  split; [by apply (pick_path_free_list s f s2)|].
  by destruct (pick_path_config s f s2 Hp) as (_ & _ & _ & _ & ->).
Qed.

Lemma install_FreeFresh s2 f new_page p r :
  BInv s2 → 0 <= f → f ∉ free_list_ s2 →
  FreeFresh s2 → FreeFresh (install f new_page p r s2).
Proof.
  intros HI Hf Hnin. by apply (FreeFresh_store s2 f new_page).
Qed.

Lemma step_FreeFresh o s s' :
  BInv s → FreeFresh s → step o s = Some s' → FreeFresh s'.
Proof.
  intros HI HF Hstep. destruct o as [|p|p d|p| |p]; simpl in Hstep; unfold drop in Hstep.
  - destruct (NewPgImp s) as [[res s1]|] eqn:E; [|done].
    simpl in Hstep. injection Hstep as ->.
    destruct (NewPgImp_cases s res s' HI E) as (_ & f & s2 & Hpick & HI2 & Hcase).
    assert (HF2 : FreeFresh s2).
    { apply (pick_path_FreeFresh (advance s) f s2);
        [by apply pick_frame_path; [apply BInv_advance|]|done]. }
    destruct Hcase as [(_ & _ & ->)|(pg & r & Hf & _ & _ & Hnin & _ & _ & _ & ->)];
      [done|by apply install_FreeFresh].
  - destruct (FetchPgImp p s) as [[res s1]|] eqn:E; [|done].
    simpl in Hstep. injection Hstep as ->.
    destruct (FetchPgImp_cases s p res s' HI E)
      as [(f & pg & r & Hp & Hf & Hpg & _ & _ & _ & _ & ->)
         |(_ & f & s2 & Hpick & HI2 & Hcase)].
    + apply (FreeFresh_store s f (with_pin (pin_count_ pg + 1) pg));
        try done. by destruct (bi_table s HI p f Hp).
    + assert (HF2 : FreeFresh s2).
      { by apply (pick_path_FreeFresh s f s2); [apply pick_frame_path|]. }
      destruct Hcase as [(_ & _ & ->)|(pg & r & Hf & _ & _ & Hnin & _ & _ & _ & ->)];
        [done|].
      apply (FreeFresh_store s2 f (mkPage (default zero_data (disk_ s2 !! p)) p 1 false));
        done.
  - destruct (UnpinPgImp p d s) as [[res s1]|] eqn:E; [|done].
    simpl in Hstep. injection Hstep as ->.
    destruct (UnpinPgImp_cases s p d res s' HI E)
      as [(_ & _ & ->)|(f & pg & Hp & Hf & Hpg & _ & Hcase)]; [done|].
    destruct (bi_table s HI p f Hp) as [_ Hnin].
    destruct Hcase as [(_ & _ & ->)|(_ & _ & ->)].
    + by apply (FreeFresh_store s f (with_dirty d pg)).
    + apply (FreeFresh_store s f (with_pin (pin_count_ pg - 1) (with_dirty d pg)));
        try done; by destruct (pin_count_ pg - 1 =? 0).
  - destruct (FlushPgImp p s) as [[res s1]|] eqn:E; [|done].
    simpl in Hstep. injection Hstep as ->.
    destruct (FlushPgImp_cases s p res s' HI E)
      as [(_ & _ & ->)|(f & pg & Hp & Hf & Hpg & _ & _ & ->)]; [done|].
    destruct (bi_table s HI p f Hp) as [_ Hnin].
    by apply (FreeFresh_store s f (with_dirty false pg)).
  - destruct (FlushAllPgsImp_effect s HI) as (s1 & Hrun & Hsc & _ & Hout & _).
    rewrite Hrun in Hstep. simpl in Hstep. injection Hstep as ->.
    apply (FreeFresh_keep s); [|done]. intros g Hg.
    rewrite (sc_free _ _ Hsc) in Hg. split; [done|].
    apply Hout. rewrite Z2Nat.id by by apply (free_frame_nonneg s).
    intros (q & Hq)%elem_of_table_frames.
    by destruct (bi_table s HI q g Hq).
  - destruct (DeletePgImp p s) as [[res s1]|] eqn:E; [|done].
    simpl in Hstep. injection Hstep as ->.
    destruct (DeletePgImp_cases s p res s' HI E)
      as [(_ & _ & ->)|(f & pg & Hp & Hf & Hpg & _ & Hcase)]; [done|].
    destruct (bi_table s HI p f Hp) as [_ Hnin].
    destruct Hcase as [(_ & _ & ->)|(_ & _ & ->)]; [done|].
    intros g Hg. simpl in Hg |- *. rewrite ?write_back_free_list in Hg.
    apply elem_of_app in Hg as [Hg|Hg%list_elem_of_singleton].
    + rewrite list_lookup_insert_ne; [by apply HF|].
      intros Heq. pose proof (free_frame_nonneg s g HI Hg).
      assert (f = g) by lia. by subst.
    + subst g. apply list_lookup_insert_eq. by apply lookup_lt_Some in Hpg.
Qed.

Lemma create_FreeFresh pool_size num_instances instance_index disk s :
  valid_config pool_size num_instances instance_index →
  create pool_size num_instances instance_index disk = Some s → FreeFresh s.
Proof.
  intros Hv Hc. destruct (create_inv _ _ _ _ _ Hv Hc) as (HI & _).
  intros f Hf. destruct (bi_free s HI f Hf) as (_ & pg & Hpg & _).
  rewrite Hpg. f_equal.
  revert Hc Hpg. unfold create. destruct (_ && _); [|done].
  intros [= <-]. simpl. by intros [-> _]%lookup_replicate.
Qed.

Lemma reachable_FreeFresh s : reachable s → FreeFresh s.
Proof.
  induction 1 as [pool n idx disk s Hv Hc|o s s' HR IH Hstep].
  - by apply (create_FreeFresh pool n idx disk).
  - by apply (step_FreeFresh o s s'); [apply reachable_BInv| |].
Qed.

(** X7. The shape of every reachable state. The frame array has
    [pool_size_] entries and the replacer that capacity; every pin count
    lies in [0, INT32_MAX]; the free list has no duplicates and each of its
    frames is zeroed, unbound, unpinned and clean; a page-table entry names
    an in-range frame that holds the entry's page id and is not free, so no
    two page ids share a frame; every evictable frame is unpinned; and
    every unpinned frame is free or evictable. *)
Theorem reachable_shape s :
  reachable s →
  length (pages_ s) = pool_size_ s ∧
  LRU.capacity_ (replacer_ s) = pool_size_ s ∧
  (∀ i pg, pages_ s !! i = Some pg → 0 <= pin_count_ pg <= INT32_MAX) ∧
  NoDup (free_list_ s) ∧
  (∀ f, f ∈ free_list_ s →
     0 <= f ∧ pages_ s !! Z.to_nat f = Some fresh_page) ∧
  (∀ p f, page_table_ s !! p = Some f →
     0 <= f ∧ (f ∉ free_list_ s) ∧
     ∃ pg, pages_ s !! Z.to_nat f = Some pg ∧ page_id_ pg = p) ∧
  (∀ p q f, page_table_ s !! p = Some f → page_table_ s !! q = Some f → p = q) ∧
  (∀ f, f ∈ LRU.frames (replacer_ s) →
     0 <= f ∧ ∃ pg, pages_ s !! Z.to_nat f = Some pg ∧ pin_count_ pg = 0) ∧
  (∀ i pg, pages_ s !! i = Some pg → pin_count_ pg = 0 →
     Z.of_nat i ∈ free_list_ s ∨ Z.of_nat i ∈ LRU.frames (replacer_ s)).
Proof.
  intros HR. pose proof (reachable_BInv s HR) as HI.
  pose proof (reachable_FreeFresh s HR) as HF.
  pose proof (reachable_Tracked s HR) as HT.
  split; [apply HI|]. split; [apply HI|]. split; [apply HI|].
  split; [apply HI|]. split; [|split; [|split; [|split]]].
  - intros f Hf. split; [by apply (free_frame_nonneg s)|by apply HF].
  - intros p f Hp. destruct (bi_table s HI p f Hp) as [(Hf & pg & Hpg & Hid) Hnin].
    split; [done|]. split; [done|]. by exists pg.
  - intros p q f Hp Hq.
    destruct (bi_table s HI p f Hp) as [(_ & pg & Hpg & Hid) _].
    destruct (bi_table s HI q f Hq) as [(_ & pg' & Hpg' & Hid') _].
    congruence.
  - intros f Hf. exact (bi_evictable s HI f Hf).
  - exact HT.
Qed.

End shape.

(** ** Single operations of the manager *)

Section single_ops.
Implicit Types (s : BPMI) (f g p : Z) (pg : Page).

Lemma Pin_defined s f :
  BInv s →
  ∃ r, LRU.Pin f (replacer_ s) = Some r ∧
       LRU.frames r = filter (λ g, g ≠ f) (LRU.frames (replacer_ s)).
Proof.
  intros HI.
  destruct (Pin_spec (replacer_ s) f (bi_lru s HI)) as (r & Hr & _ & _ & Hfr).
  by exists r.
Qed.

Lemma NewPgImp_defined s :
  BInv s →
  is_Some (NewPgImp s) ↔
  to_uint32 (next_page_id_ s) mod num_instances_ s = instance_index_ s.
Proof.
  intros HI. split.
  - intros [[res s'] E].
    destruct (NewPgImp_cases s res s' HI E) as (Ha & _).
    by apply AllocatePage_Some in Ha as (_ & ? & _).
  - intros Hassert.
    assert (Ha : AllocatePage s = Some (next_page_id_ s, advance s)).
    { apply AllocatePage_Some. pose proof (bi_num s HI). split; [lia|done]. }
    destruct (pick_frame_paths (advance s) (BInv_advance s HI))
      as (f & s2 & Hpick & _).
    destruct (NewPgImp_after_pick s _ _ f s2 HI Ha Hpick) as [Hnone Hsome].
    destruct (decide (f = -1)) as [Hf|Hf].
    + rewrite (Hnone Hf). eauto.
    + destruct (Hsome Hf) as (r & _ & ->). eauto.
Qed.

Lemma FetchPgImp_defined s p :
  BInv s →
  is_Some (FetchPgImp p s) ↔
  ∀ f pg, page_table_ s !! p = Some f → pages_ s !! Z.to_nat f = Some pg →
          pin_count_ pg < INT32_MAX.
Proof.
  intros HI. split.
  - intros [[res s'] E] f pg Hp Hpg.
    destruct (FetchPgImp_cases s p res s' HI E)
      as [(f' & pg' & r & Hp' & _ & Hpg' & _ & Hlt & _)|(Hnone & _)];
      congruence.
  - intros Hpin. destruct (page_table_ s !! p) as [f|] eqn:Hp.
    + destruct (bi_table s HI p f Hp) as [(Hf & pg & Hpg & _) _].
      destruct (Pin_defined s f HI) as (r & Hr & _).
      rewrite (FetchPgImp_hit s p f pg r); eauto.
    + destruct (pick_frame_paths s HI) as (f & s2 & Hpick & _).
      destruct (FetchPgImp_after_pick s p f s2 HI Hp Hpick) as [Hnone Hsome].
      destruct (decide (f = -1)) as [Hf|Hf].
      * rewrite (Hnone Hf). eauto.
      * destruct (Hsome Hf) as (r & _ & ->). eauto.
Qed.

(** X8. The operations stay within defined behaviour on every reachable
    state, with two exceptions. [NewPage] is defined exactly when the
    assertion of [AllocatePage] holds of the current counter; [FetchPage] is
    defined exactly when it does not hit a page whose pin count is already
    [INT32_MAX]. [UnpinPage], [FlushPage], [FlushAllPages] and [DeletePage]
    are always defined: no frame index they use is out of range. *)
Theorem step_defined s o :
  reachable s →
  is_Some (step o s) ↔
  match o with
  | ONewPage =>
      to_uint32 (next_page_id_ s) mod num_instances_ s = instance_index_ s
  | OFetchPage p =>
      ∀ f pg, page_table_ s !! p = Some f →
              pages_ s !! Z.to_nat f = Some pg → pin_count_ pg < INT32_MAX
  | _ => True
  end.
Proof.
  intros HR. pose proof (reachable_BInv s HR) as HI.
  assert (Hdrop : ∀ A (m : M A), is_Some (drop m s) ↔ is_Some (m s)).
  { intros A m. unfold drop. by rewrite fmap_is_Some. }
  destruct o as [|p|p d|p| |p]; simpl; rewrite Hdrop.
  - by apply NewPgImp_defined.
  - by apply FetchPgImp_defined.
  - split; [done|intros _].
    destruct (page_table_ s !! p) as [f|] eqn:Hp.
    + destruct (bi_table s HI p f Hp) as [(Hf & pg & Hpg & _) _].
      destruct (decide (0 < pin_count_ pg)).
      * rewrite (UnpinPgImp_pinned s p d f pg); eauto.
      * rewrite (UnpinPgImp_unpinned s p d f pg); eauto. lia.
    + rewrite UnpinPgImp_absent; eauto.
  - split; [done|intros _].
    destruct (page_table_ s !! p) as [f|] eqn:Hp.
    + destruct (bi_table s HI p f Hp) as [(Hf & pg & Hpg & _) _].
      rewrite (FlushPgImp_present s p f pg); eauto.
    + rewrite FlushPgImp_absent; eauto.
  - split; [done|intros _].
    destruct (FlushAllPgsImp_effect s HI) as (s' & -> & _). eauto.
  - split; [done|intros _].
    destruct (page_table_ s !! p) as [f|] eqn:Hp.
    + destruct (bi_table s HI p f Hp) as [(Hf & pg & Hpg & _) _].
      destruct (decide (pin_count_ pg = 0)).
      * rewrite (DeletePgImp_unpinned s p f pg); eauto.
      * rewrite (DeletePgImp_pinned s p f pg); eauto.
    + rewrite DeletePgImp_absent; eauto.
Qed.

Lemma Unpin_enters s f :
  BInv s → 0 <= f < Z.of_nat (pool_size_ s) →
  f ∉ LRU.frames (replacer_ s) →
  LRU.frames (LRU.Unpin f (replacer_ s)) = f :: LRU.frames (replacer_ s).
Proof.
  intros HI Hf Hnin.
  destruct (decide (length (LRU.frames (replacer_ s))
                    = LRU.capacity_ (replacer_ s))) as [Hfull|Hroom].
  - pose proof (Unpin_tracks s f HI Hf) as Hin.
    rewrite (Unpin_full _ f (bi_lru s HI) Hfull) in Hin. done.
  - by destruct (Unpin_fresh _ f (bi_lru s HI) Hnin Hroom).
Qed.

Lemma frame_in_range s f pg :
  BInv s → 0 <= f → pages_ s !! Z.to_nat f = Some pg →
  0 <= f < Z.of_nat (pool_size_ s).
Proof.
  intros HI Hf Hpg. apply lookup_lt_Some in Hpg.
  rewrite (bi_len s HI) in Hpg. lia.
Qed.

(** [UnpinPgImp] in full on a reachable state. *)
Lemma UnpinPgImp_outcome s p d :
  reachable s →
  match page_table_ s !! p with
  | None => UnpinPgImp p d s = Some (false, s)
  | Some f =>
      ∃ pg s', 0 <= f ∧ pages_ s !! Z.to_nat f = Some pg ∧
        UnpinPgImp p d s = Some (bool_decide (0 < pin_count_ pg), s') ∧
        pages_ s'
          = <[Z.to_nat f := mkPage (data_ pg) p
                                   (Z.max 0 (pin_count_ pg - 1)) d]>
              (pages_ s) ∧
        evictable_frames s'
          = (if decide (pin_count_ pg = 1) then [f] else [])
            ++ evictable_frames s ∧
        new_calls s s'
          = (if decide (pin_count_ pg = 1) then [CUnpin f] else []) ∧
        page_table_ s' = page_table_ s ∧
        free_list_ s' = free_list_ s ∧
        disk_ s' = disk_ s ∧
        next_page_id_ s' = next_page_id_ s
  end.
Proof.
  intros HR. pose proof (reachable_BInv s HR) as HI.
  destruct (page_table_ s !! p) as [f|] eqn:Hp; [|by apply UnpinPgImp_absent].
  destruct (bi_table s HI p f Hp) as [(Hf & pg & Hpg & Hid) _].
  pose proof (bi_pin s HI _ pg Hpg) as Hpin.
  exists pg.
  destruct (decide (0 < pin_count_ pg)) as [Hpos|Hzero].
  - eexists. split; [done|]. split; [done|]. split.
    { rewrite (UnpinPgImp_pinned s p d f pg) by done.
      by rewrite bool_decide_eq_true_2. }
    unfold evictable_frames.
    destruct (decide (pin_count_ pg = 1)) as [Hone|Hmore].
    + assert ((pin_count_ pg - 1 =? 0) = true) as -> by lia. simpl.
      split; [|split; [|split; [by apply new_calls_app|done]]].
      * unfold with_pin, with_dirty. simpl. rewrite Hid. do 3 f_equal. lia.
      * apply Unpin_enters; [done|by apply (frame_in_range s f pg)|].
        intros Hin. destruct (bi_evictable s HI f Hin) as (_ & pg' & Hpg' & Hz).
        assert (pg' = pg) by congruence. subst. lia.
    + assert ((pin_count_ pg - 1 =? 0) = false) as -> by lia. simpl.
      split; [|split; [done|split; [by apply (new_calls_app _ _ [])|done]]].
      unfold with_pin, with_dirty. simpl. rewrite Hid. do 3 f_equal. lia.
  - eexists. split; [done|]. split; [done|]. split.
    { rewrite (UnpinPgImp_unpinned s p d f pg) by (done || lia).
      by rewrite bool_decide_eq_false_2. }
    rewrite !decide_False by lia. simpl.
    split; [|split; [done|split; [by apply (new_calls_app _ _ [])|done]]].
    unfold with_dirty. rewrite Hid. do 3 f_equal. lia.
Qed.

(** X9. [UnpinPage(p, d)] on a reachable state. With [p] not in the page
    table it returns false and changes nothing. Otherwise it returns
    whether the pin count was positive; the frame's dirty flag becomes [d]
    in either case, its pin count drops by one unless it was zero, and its
    data and page id stay; the frame becomes the most recently unpinned
    evictable frame exactly when the pin count was 1 (the only case in
    which [Unpin] is called); the page table, the free list, the disk and
    the allocation counter are unchanged. *)
Theorem UnpinPgImp_effect s p d :
  reachable s →
  match page_table_ s !! p with
  | None => UnpinPgImp p d s = Some (false, s)
  | Some f =>
      ∃ pg s', 0 <= f ∧ pages_ s !! Z.to_nat f = Some pg ∧
        UnpinPgImp p d s = Some (bool_decide (0 < pin_count_ pg), s') ∧
        pages_ s'
          = <[Z.to_nat f := mkPage (data_ pg) p
                                   (Z.max 0 (pin_count_ pg - 1)) d]>
              (pages_ s) ∧
        evictable_frames s'
          = (if decide (pin_count_ pg = 1) then [f] else [])
            ++ evictable_frames s ∧
        new_calls s s'
          = (if decide (pin_count_ pg = 1) then [CUnpin f] else []) ∧
        page_table_ s' = page_table_ s ∧
        free_list_ s' = free_list_ s ∧
        disk_ s' = disk_ s ∧
        next_page_id_ s' = next_page_id_ s
  end.
Proof. apply UnpinPgImp_outcome. Qed.

(** X10. [FetchPage(p)] of a page in the page table, on a reachable state.
    With the pin count below [INT32_MAX] it returns the page's frame, adds
    one to the pin count, calls [Pin] on the frame, which leaves the
    evictable frames, and nothing else changes: no disk access, the data
    and the dirty flag stay. At [INT32_MAX] the increment overflows a
    signed [int]. *)
Theorem FetchPgImp_hit_effect s p f :
  reachable s → page_table_ s !! p = Some f →
  ∃ pg, 0 <= f ∧ pages_ s !! Z.to_nat f = Some pg ∧
    if decide (pin_count_ pg < INT32_MAX) then
      ∃ s', FetchPgImp p s = Some (Some f, s') ∧
        pages_ s'
          = <[Z.to_nat f := mkPage (data_ pg) p (pin_count_ pg + 1)
                                   (is_dirty_ pg)]> (pages_ s) ∧
        evictable_frames s' = filter (λ g, g ≠ f) (evictable_frames s) ∧
        new_calls s s' = [CPin f] ∧
        page_table_ s' = page_table_ s ∧
        free_list_ s' = free_list_ s ∧
        disk_ s' = disk_ s ∧
        next_page_id_ s' = next_page_id_ s
    else FetchPgImp p s = None.
Proof.
  intros HR Hp. pose proof (reachable_BInv s HR) as HI.
  destruct (bi_table s HI p f Hp) as [(Hf & pg & Hpg & Hid) _].
  exists pg. split; [done|]. split; [done|].
  destruct (decide (pin_count_ pg < INT32_MAX)) as [Hlt|Hmax].
  - destruct (Pin_defined s f HI) as (r & Hr & Hfr).
    eexists. split; [by apply (FetchPgImp_hit s p f pg r)|].
    simpl. split; [by rewrite <- Hid|]. split; [done|].
    split; [by apply new_calls_app|done].
  - destruct (FetchPgImp p s) as [[res s']|] eqn:E; [|done].
    assert (Hsome : is_Some (FetchPgImp p s)) by eauto.
    by pose proof (proj1 (FetchPgImp_defined s p HI) Hsome f pg Hp Hpg).
Qed.

End single_ops.

(** ** Obtaining a frame on a reachable state *)

Section obtaining.
Implicit Types (s : BPMI) (f g p : Z) (pg : Page).

Lemma all_pinned_untracked s :
  BInv s → Tracked s → free_list_ s = [] → LRU.frames (replacer_ s) = [] →
  ∀ pg, pg ∈ pages_ s → 0 < pin_count_ pg.
Proof.
  intros HI HT Hfree Hfr pg [i Hi]%list_elem_of_lookup.
  pose proof (bi_pin s HI i pg Hi) as Hpin.
  destruct (decide (pin_count_ pg = 0)) as [Hz|Hnz]; [|lia].
  destruct (HT i pg Hi Hz) as [Hin|Hin].
  - rewrite Hfree in Hin. by apply elem_of_nil in Hin.
  - rewrite Hfr in Hin. by apply elem_of_nil in Hin.
Qed.

(** What [pick_frame] does on a state in which every unpinned frame is free
    or evictable: the replacer never declines. *)
Lemma pick_frame_effect s :
  BInv s → Tracked s →
  match frame_choice s with
  | None =>
      pick_frame s = Some (-1, s) ∧ free_list_ s = [] ∧
      ∀ pg, pg ∈ pages_ s → 0 < pin_count_ pg
  | Some f =>
      ∃ pg s2, 0 <= f ∧ pages_ s !! Z.to_nat f = Some pg ∧ pin_count_ pg = 0 ∧
        pick_frame s = Some (f, s2) ∧ pick_path s f s2 ∧
        free_list_ s2 = tail (free_list_ s) ∧
        page_table_ s2 = eviction_table s pg ∧
        disk_ s2 = eviction_disk s pg ∧
        calls_ s2 = eviction_calls s pg ++ calls_ s ∧
        filter (λ g, g ≠ f) (LRU.frames (replacer_ s2))
        = filter (λ g, g ≠ f) (LRU.frames (replacer_ s))
  end.
Proof.
  intros HI HT.
  destruct (pick_frame_paths s HI) as (f & s2 & Hpick & Hpath).
  unfold frame_choice, eviction_table, eviction_disk, eviction_calls,
    evictable_frames.
  destruct Hpath as [rest Hfr ->|Hfr Hall -> ->|Hfr Hall _ Hnone -> ->
                    |fs r pg Hfr Hall Hv Hfs Hfs' Hf Hpg Hpin Hs2].
  - rewrite Hfr.
    destruct (bi_free s HI f) as (Hf & pg & Hpg & _ & Hpin);
      [rewrite Hfr; by left|].
    exists pg, (set_free_list rest s). do 4 (split; [done|]).
    split; [by apply (path_free s f _ rest)|]. done.
  - rewrite Hfr.
    destruct (is_all_spinned_spec s HI) as [Hall' _].
    specialize (Hall' Hall).
    destruct (last (LRU.frames (replacer_ s))) as [f|] eqn:Hlast; [|done].
    apply last_Some in Hlast as [l' Hl'].
    destruct (bi_evictable s HI f) as (_ & pg & Hpg & Hz);
      [rewrite Hl'; apply elem_of_app; right; by left|].
    assert (0 < pin_count_ pg); [|lia].
    apply Hall'. by apply list_elem_of_lookup_2 in Hpg.
  - pose proof (all_pinned_untracked s HI HT Hfr Hnone) as Hall'.
    destruct (is_all_spinned_spec s HI) as [_ Hback].
    rewrite (Hback Hall') in Hall. done.
  - rewrite Hfr, Hfs, last_snoc.
    exists pg, s2. do 4 (split; [done|]).
    split; [by apply (path_victim s f s2 fs r pg)|].
    subst s2. simpl. rewrite write_back_free_list, write_back_disk,
      write_back_calls, write_back_replacer. simpl.
    rewrite Hfr. do 3 (split; [done|]).
    split; [by rewrite <- app_assoc|].
    rewrite Hfs', filter_app, filter_cons_False, filter_nil, app_nil_r; [done|].
    by intros H.
Qed.

Lemma advance_Tracked s : Tracked s → Tracked (advance s).
Proof. done. Qed.

(** [NewPgImp] in full on a reachable state. *)
Lemma NewPgImp_outcome s :
  reachable s →
  to_uint32 (next_page_id_ s) mod num_instances_ s = instance_index_ s →
  match frame_choice s with
  | None =>
      NewPgImp s = Some (None, advance s) ∧
      ∀ pg, pg ∈ pages_ s → 0 < pin_count_ pg
  | Some f =>
      ∃ pg s', 0 <= f ∧ pages_ s !! Z.to_nat f = Some pg ∧ pin_count_ pg = 0 ∧
        NewPgImp s = Some (Some (next_page_id_ s, f), s') ∧
        pages_ s'
          = <[Z.to_nat f := mkPage zero_data (next_page_id_ s) 1 false]>
              (pages_ s) ∧
        page_table_ s' = <[next_page_id_ s := f]> (eviction_table s pg) ∧
        free_list_ s' = tail (free_list_ s) ∧
        evictable_frames s' = filter (λ g, g ≠ f) (evictable_frames s) ∧
        disk_ s' = eviction_disk s pg ∧
        new_calls s s' = CPin f :: eviction_calls s pg ∧
        next_page_id_ s'
          = to_int32 (next_page_id_ s + num_instances_ s)
  end.
Proof.
  intros HR Hassert. pose proof (reachable_BInv s HR) as HI.
  pose proof (reachable_Tracked s HR) as HT.
  assert (Ha : AllocatePage s = Some (next_page_id_ s, advance s)).
  { apply AllocatePage_Some. pose proof (bi_num s HI). split; [lia|done]. }
  pose proof (pick_frame_effect (advance s) (BInv_advance s HI)
                (advance_Tracked s HT)) as Hpick.
  change (frame_choice (advance s)) with (frame_choice s) in Hpick.
  destruct (frame_choice s) as [f|].
  - destruct Hpick as (pg & s2 & Hf & Hpg & Hpin & Hpick & Hpath & Hfree & Htab
                          & Hdisk & Hcalls & Hfr).
    destruct (NewPgImp_after_pick s _ _ f s2 HI Ha Hpick) as [_ Hsome].
    destruct Hsome as (r & Hr & Hnew); [lia|].
    destruct (pick_frame_inv _ f s2 (BInv_advance s HI) Hpick) as (HI2 & _).
    destruct (Pin_defined s2 f HI2) as (r' & Hr' & Hfr').
    assert (r' = r) by congruence. subst r'.
    destruct (pick_path_config _ _ _ Hpath) as (_ & _ & _ & Hnext & Hpages).
    exists pg. eexists. do 3 (split; [done|]). split; [exact Hnew|].
    unfold evictable_frames. simpl.
    rewrite Hpages, Htab, Hfree, Hdisk, Hnext, Hfr', Hfr. simpl.
    do 5 (split; [done|]). split; [|done].
    apply new_calls_app. simpl. by rewrite Hcalls.
  - destruct Hpick as (Hpick & _ & Hall).
    split; [|done]. by apply (NewPgImp_none s (next_page_id_ s) (advance s)).
Qed.

(** X11. [NewPage] on a reachable state on which the allocator's assertion
    holds. It returns none exactly when no frame is free and none is
    evictable, and then every frame is pinned and only the counter has
    moved. Otherwise it takes the front of the free list, or with an empty
    free list the least recently unpinned evictable frame: that frame was
    unpinned, and now holds the allocated id with zeroed data, pin count 1
    and a clean dirty flag; it is off the free list and out of the
    replacer; the page table binds the id to it, after dropping the evicted
    page's entry; the evicted page went to disk exactly when it was dirty;
    and the replacer saw [Victim] only in the eviction case, then [Pin]. *)
Theorem NewPgImp_effect s :
  reachable s →
  to_uint32 (next_page_id_ s) mod num_instances_ s = instance_index_ s →
  match frame_choice s with
  | None =>
      NewPgImp s = Some (None, advance s) ∧
      ∀ pg, pg ∈ pages_ s → 0 < pin_count_ pg
  | Some f =>
      ∃ pg s', 0 <= f ∧ pages_ s !! Z.to_nat f = Some pg ∧ pin_count_ pg = 0 ∧
        NewPgImp s = Some (Some (next_page_id_ s, f), s') ∧
        pages_ s'
          = <[Z.to_nat f := mkPage zero_data (next_page_id_ s) 1 false]>
              (pages_ s) ∧
        page_table_ s' = <[next_page_id_ s := f]> (eviction_table s pg) ∧
        free_list_ s' = tail (free_list_ s) ∧
        evictable_frames s' = filter (λ g, g ≠ f) (evictable_frames s) ∧
        disk_ s' = eviction_disk s pg ∧
        new_calls s s' = CPin f :: eviction_calls s pg ∧
        next_page_id_ s'
          = to_int32 (next_page_id_ s + num_instances_ s)
  end.
Proof. apply NewPgImp_outcome. Qed.

(** [FetchPgImp] on a miss in full on a reachable state. *)
Lemma FetchPgImp_miss_outcome s p :
  reachable s → page_table_ s !! p = None →
  match frame_choice s with
  | None =>
      FetchPgImp p s = Some (None, s) ∧
      ∀ pg, pg ∈ pages_ s → 0 < pin_count_ pg
  | Some f =>
      ∃ pg s', 0 <= f ∧ pages_ s !! Z.to_nat f = Some pg ∧ pin_count_ pg = 0 ∧
        FetchPgImp p s = Some (Some f, s') ∧
        pages_ s'
          = <[Z.to_nat f :=
                mkPage (default zero_data (eviction_disk s pg !! p)) p 1 false]>
              (pages_ s) ∧
        page_table_ s' = <[p := f]> (eviction_table s pg) ∧
        free_list_ s' = tail (free_list_ s) ∧
        evictable_frames s' = filter (λ g, g ≠ f) (evictable_frames s) ∧
        disk_ s' = eviction_disk s pg ∧
        new_calls s s' = CPin f :: CReadPage p :: eviction_calls s pg ∧
        next_page_id_ s' = next_page_id_ s
  end.
Proof.
  intros HR Hmiss. pose proof (reachable_BInv s HR) as HI.
  pose proof (reachable_Tracked s HR) as HT.
  pose proof (pick_frame_effect s HI HT) as Hpick.
  destruct (frame_choice s) as [f|].
  - destruct Hpick as (pg & s2 & Hf & Hpg & Hpin & Hpick & Hpath & Hfree & Htab
                          & Hdisk & Hcalls & Hfr).
    destruct (FetchPgImp_after_pick s p f s2 HI Hmiss Hpick) as [_ Hsome].
    destruct Hsome as (r & Hr & Hfetch); [lia|].
    destruct (pick_frame_inv _ f s2 HI Hpick) as (HI2 & _).
    destruct (Pin_defined s2 f HI2) as (r' & Hr' & Hfr').
    assert (r' = r) by congruence. subst r'.
    destruct (pick_path_config _ _ _ Hpath) as (_ & _ & _ & Hnext & Hpages).
    exists pg. eexists. do 3 (split; [done|]). split; [exact Hfetch|].
    unfold evictable_frames. simpl.
    rewrite Hpages, Htab, Hfree, Hdisk, Hnext, Hfr', Hfr. simpl.
    do 5 (split; [done|]). split; [|done].
    apply new_calls_app. simpl. by rewrite Hcalls.
  - destruct Hpick as (Hpick & _ & Hall).
    split; [|done]. by apply FetchPgImp_miss_none.
Qed.

(** X12. [FetchPage(p)] of a page not in the page table, on a reachable state.
    It obtains a frame as [NewPage] does, and fails in the same case. On
    success the frame holds [p] with pin count 1 and a clean dirty flag,
    and as data what [ReadPage] delivers once the evicted page has been
    written back; the page table binds [p] to the frame; and the disk
    manager saw the write-back, if any, before the [ReadPage]. The
    allocation counter does not move. *)
Theorem FetchPgImp_miss_effect s p :
  reachable s → page_table_ s !! p = None →
  match frame_choice s with
  | None =>
      FetchPgImp p s = Some (None, s) ∧
      ∀ pg, pg ∈ pages_ s → 0 < pin_count_ pg
  | Some f =>
      ∃ pg s', 0 <= f ∧ pages_ s !! Z.to_nat f = Some pg ∧ pin_count_ pg = 0 ∧
        FetchPgImp p s = Some (Some f, s') ∧
        pages_ s'
          = <[Z.to_nat f :=
                mkPage (default zero_data (eviction_disk s pg !! p)) p 1 false]>
              (pages_ s) ∧
        page_table_ s' = <[p := f]> (eviction_table s pg) ∧
        free_list_ s' = tail (free_list_ s) ∧
        evictable_frames s' = filter (λ g, g ≠ f) (evictable_frames s) ∧
        disk_ s' = eviction_disk s pg ∧
        new_calls s s' = CPin f :: CReadPage p :: eviction_calls s pg ∧
        next_page_id_ s' = next_page_id_ s
  end.
Proof. apply FetchPgImp_miss_outcome. Qed.

End obtaining.

(** ** Polite runs *)

Section polite_runs.
Implicit Types (s : BPMI) (f g p q : Z) (pg : Page).

Lemma run_snoc ops o : ∀ s s1 s',
  run ops s = Some s1 → step o s1 = Some s' → run (ops ++ [o]) s = Some s'.
Proof.
  induction ops as [|o' rest IH]; intros s s1 s' Hrun Hstep; simpl in *.
  - injection Hrun as ->. by rewrite Hstep.
  - destruct (step o' s) as [s2|]; [|done]. by apply (IH s2 s1).
Qed.

Lemma polite_snoc ops o : ∀ s s1,
  polite ops s → run ops s = Some s1 → polite_op o s1 → polite (ops ++ [o]) s.
Proof.
  unfold polite.
  induction ops as [|o' rest IH]; intros s s1 Hpol Hrun Hop; simpl in *.
  - injection Hrun as ->. split; [done|]. by destruct (step o s1).
  - destruct Hpol as [Hpo Hrest]. split; [done|].
    destruct (step o' s) as [s2|]; [|done]. by apply (IH s2 s1).
Qed.

Lemma reachable_politely_inv s :
  reachable_politely s → reachable s ∧ BInv s ∧ Covered s.
Proof.
  intros (pool & n & idx & disk & s0 & ops & Hv & Hc & Hpol & Hrun).
  destruct (create_inv pool n idx disk s0 Hv Hc) as (HI0 & _ & HC0).
  split; [|split].
  - apply (run_reachable ops s0); [|done]. by apply (reach_create pool n idx disk).
  - by apply (run_BInv ops s0).
  - by apply (run_Covered ops s0).
Qed.

Lemma reachable_politely_step o s s' :
  reachable_politely s → polite_op o s → step o s = Some s' →
  reachable_politely s'.
Proof.
  intros (pool & n & idx & disk & s0 & ops & Hv & Hc & Hpol & Hrun) Hop Hstep.
  exists pool, n, idx, disk, s0, (ops ++ [o]). do 2 (split; [done|]). split.
  - by apply (polite_snoc ops o s0 s).
  - by apply (run_snoc ops o s0 s).
Qed.

(** A frame that holds a pinned page of the page table is not the frame
    [pick_frame] hands out, and its entry survives the eviction. *)
Lemma pick_path_keeps s f' s2 p f pg :
  BInv s →
  (∀ i, (i < pool_size_ s)%nat →
        Z.of_nat i ∈ free_list_ s ∨ resident s (Z.of_nat i)) →
  pick_path s f' s2 →
  page_table_ s !! p = Some f → pages_ s !! Z.to_nat f = Some pg →
  0 < pin_count_ pg →
  f' ≠ f ∧ page_table_ s2 !! p = Some f.
Proof.
  intros HI HC Hpath Hp Hpg Hpin.
  destruct (bi_table s HI p f Hp) as [(Hf & _) Hnfree].
  destruct Hpath as [rest Hfl ->| _ _ -> ->| _ _ _ _ -> ->
                    |fs r pgv Hfl _ _ _ _ Hf' Hpgv Hz ->]; simpl.
  - split; [|done]. intros ->. apply Hnfree. rewrite Hfl. by left.
  - split; [lia|done].
  - split; [lia|done].
  - assert (Hne : f' ≠ f).
    { intros ->. assert (pgv = pg) by congruence. subst. lia. }
    split; [done|]. rewrite ?write_back_page_table. simpl.
    rewrite lookup_delete_ne; [done|]. intros Heq.
    apply lookup_lt_Some in Hpgv as Hlt. rewrite (bi_len s HI) in Hlt.
    destruct (HC (Z.to_nat f') Hlt) as [Hin|Hres].
    + rewrite Hfl in Hin. by apply elem_of_nil in Hin.
    + destruct Hres as (_ & pgv' & Hpgv' & Htab).
      rewrite Nat2Z.id in Hpgv'. rewrite Z2Nat.id in Htab by done.
      assert (pgv' = pgv) by congruence. subst pgv'.
      rewrite Heq in Htab. congruence.
Qed.

Lemma lookup_other_frame (ps : list Page) f f' new_page :
  0 <= f → 0 <= f' → f' ≠ f →
  <[Z.to_nat f' := new_page]> ps !! Z.to_nat f = ps !! Z.to_nat f.
Proof. intros. apply list_lookup_insert_ne. lia. Qed.

Lemma table_frame_unique s p q f :
  BInv s → page_table_ s !! p = Some f → page_table_ s !! q = Some f → q = p.
Proof.
  intros HI Hp Hq.
  destruct (bi_table s HI p f Hp) as [(_ & pg & Hpg & Hid) _].
  destruct (bi_table s HI q f Hq) as [(_ & pg' & Hpg' & Hid') _].
  congruence.
Qed.

Lemma pinned_page_step s o s' p f pg :
  BInv s → Covered s → polite_op o s → step o s = Some s' →
  page_table_ s !! p = Some f → pages_ s !! Z.to_nat f = Some pg →
  0 < pin_count_ pg →
  page_table_ s' !! p = Some f ∧
  ∃ pg', pages_ s' !! Z.to_nat f = Some pg' ∧
    data_ pg' = data_ pg ∧ page_id_ pg' = p ∧
    pin_count_ pg' = pin_count_ pg +
      match o with
      | OFetchPage q => if decide (q = p) then 1 else 0
      | OUnpinPage q _ => if decide (q = p) then -1 else 0
      | _ => 0
      end.
Proof.
  intros HI HC Hpol Hstep Hp Hpg Hpin.
  destruct (bi_table s HI p f Hp) as [(Hf & pg0 & Hpg0 & Hid) Hnfree].
  assert (pg0 = pg) by congruence. subst pg0.
  assert (Hsame : ∃ pg', pages_ s !! Z.to_nat f = Some pg' ∧
            data_ pg' = data_ pg ∧ page_id_ pg' = p ∧
            pin_count_ pg' = pin_count_ pg + 0).
  { exists pg. split; [done|]. split; [done|]. split; [done|lia]. }
  unfold step, drop in Hstep.
  destruct o as [|q|q d|q| |q]; simpl in Hstep;
    match type of Hstep with
    | snd <$> ?m = _ => destruct m as [[res s1]|] eqn:E; [|done]
    end; simpl in Hstep; injection Hstep as <-.
  - (* NewPage *)
    destruct (NewPgImp_cases s res s1 HI E) as (_ & f' & s2 & Hpick & HI2 & Hcase).
    apply pick_frame_path in Hpick as Hpath; [|by apply BInv_advance].
    destruct (pick_path_config _ _ _ Hpath) as (_ & _ & _ & _ & Hpages).
    destruct (pick_path_keeps (advance s) f' s2 p f pg) as [Hne Htab];
      [by apply BInv_advance|exact (cov_frames s HC)|done..|].
    destruct Hcase as [(_ & _ & ->)|(pgv & r & Hf' & _ & _ & _ & _ & _ & _ & ->)].
    + split; [done|]. by rewrite Hpages.
    + simpl. rewrite Hpages. simpl.
      rewrite lookup_other_frame by done.
      split; [|done]. rewrite lookup_insert_ne; [done|].
      pose proof (cov_ids s HC p f Hp). lia.
  - (* FetchPage *)
    destruct (FetchPgImp_cases s q res s1 HI E)
      as [(fq & pgq & r & Hq & Hfq & Hpgq & _ & _ & _ & _ & ->)
         |(Hq & f' & s2 & Hpick & HI2 & Hcase)].
    + simpl. split; [done|].
      destruct (decide (q = p)) as [->|Hqp].
      * assert (fq = f) by congruence. subst fq.
        assert (pgq = pg) by congruence. subst pgq.
        exists (with_pin (pin_count_ pg + 1) pg).
        split; [|done]. apply list_lookup_insert_eq.
        by apply lookup_lt_Some in Hpg.
      * rewrite lookup_other_frame; [done..|].
        intros ->. apply Hqp. by apply (table_frame_unique s p q f).
    + assert (Hqp : q ≠ p) by congruence.
      rewrite decide_False by done.
      apply pick_frame_path in Hpick as Hpath; [|done].
      destruct (pick_path_config _ _ _ Hpath) as (_ & _ & _ & _ & Hpages).
      destruct (pick_path_keeps s f' s2 p f pg) as [Hne Htab];
        [done|exact (cov_frames s HC)|done..|].
      destruct Hcase as [(_ & _ & ->)|(pgv & r & Hf' & _ & _ & _ & _ & _ & _ & ->)].
      * split; [done|]. by rewrite Hpages.
      * simpl. rewrite Hpages.
        rewrite lookup_other_frame by done.
        split; [|done]. by rewrite lookup_insert_ne.
  - (* UnpinPage *)
    destruct (UnpinPgImp_cases s q d res s1 HI E)
      as [(Hq & _ & ->)|(fq & pgq & Hq & Hfq & Hpgq & _ & Hcase)].
    + split; [done|]. rewrite decide_False by congruence. done.
    + destruct (decide (q = p)) as [->|Hqp].
      * assert (fq = f) by congruence. subst fq.
        assert (pgq = pg) by congruence. subst pgq.
        destruct Hcase as [(Hz & _)|(_ & _ & ->)]; [lia|].
        assert (Hlt : (Z.to_nat f < length (pages_ s))%nat)
          by by apply lookup_lt_Some in Hpg.
        destruct (pin_count_ pg - 1 =? 0); simpl;
          (split; [done|]);
          exists (with_pin (pin_count_ pg - 1) (with_dirty d pg));
          (split; [by apply list_lookup_insert_eq|]);
          (split; [done|]); (split; [done|]); simpl; lia.
      * assert (Hne : fq ≠ f).
        { intros ->. apply Hqp. by apply (table_frame_unique s p q f). }
        destruct Hcase as [(_ & _ & ->)|(_ & _ & ->)].
        -- simpl. by rewrite lookup_other_frame.
        -- destruct (pin_count_ pgq - 1 =? 0); simpl;
             by rewrite lookup_other_frame.
  - (* FlushPage *)
    destruct (FlushPgImp_cases s q res s1 HI E)
      as [(_ & _ & ->)|(fq & pgq & Hq & Hfq & Hpgq & _ & _ & ->)]; [done|].
    simpl. split; [done|].
    destruct (decide (fq = f)) as [->|Hne].
    + assert (pgq = pg) by congruence. subst pgq.
      exists (with_dirty false pg). split; [|split; [done|split; [done|simpl; lia]]].
      apply list_lookup_insert_eq. by apply lookup_lt_Some in Hpg.
    + by rewrite lookup_other_frame.
  - (* FlushAllPages *)
    destruct (FlushAllPgsImp_effect s HI) as (s2 & Hrun & Hsc & Hres & _).
    rewrite Hrun in E. injection E as _ <-.
    rewrite (sc_table _ _ Hsc). split; [done|].
    destruct (Hres p f Hp) as (pg' & Hpg' & Hnew & _).
    assert (pg' = pg) by congruence. subst pg'.
    exists (with_dirty false pg). split; [done|]. split; [done|].
    split; [done|simpl; lia].
  - (* DeletePage *)
    destruct (DeletePgImp_cases s q res s1 HI E)
      as [(_ & _ & ->)|(fq & pgq & Hq & Hfq & Hpgq & _ & Hcase)]; [done|].
    destruct Hcase as [(_ & _ & ->)|(Hz & _ & ->)]; [done|].
    assert (Hne : fq ≠ f).
    { intros ->. assert (pgq = pg) by congruence. subst. lia. }
    simpl. rewrite ?write_back_page_table, ?write_back_pages.
    rewrite lookup_other_frame by done. split; [|done].
    rewrite lookup_delete_ne; [done|]. intros ->. congruence.
Qed.

(** X13. The pin guarantee. In a state a polite client has reached, let page
    [p] sit in frame [f] with a positive pin count. Whatever operation the
    client performs next, [p] is still bound to [f] and [f] still holds
    [p] with the same data: a pinned page is neither evicted nor deleted
    nor overwritten. Its pin count moves only by the client's own
    [FetchPage(p)] (up by one) and [UnpinPage(p, _)] (down by one). *)
Theorem pinned_page_stays s o s' p f pg :
  reachable_politely s → polite_op o s → step o s = Some s' →
  page_table_ s !! p = Some f → pages_ s !! Z.to_nat f = Some pg →
  0 < pin_count_ pg →
  page_table_ s' !! p = Some f ∧
  ∃ pg', pages_ s' !! Z.to_nat f = Some pg' ∧
    data_ pg' = data_ pg ∧ page_id_ pg' = p ∧
    pin_count_ pg' = pin_count_ pg +
      match o with
      | OFetchPage q => if decide (q = p) then 1 else 0
      | OUnpinPage q _ => if decide (q = p) then -1 else 0
      | _ => 0
      end.
Proof.
  intros HR. destruct (reachable_politely_inv s HR) as (_ & HI & HC).
  by apply pinned_page_step.
Qed.

End polite_runs.

(** ** Pages on their way to disk and back *)

Section disk_round_trip.
Implicit Types (s : BPMI) (f g p q : Z) (pg : Page).

Lemma pick_path_evicts s f' s2 p f pg :
  BInv s →
  (∀ i, (i < pool_size_ s)%nat →
        Z.of_nat i ∈ free_list_ s ∨ resident s (Z.of_nat i)) →
  pick_path s f' s2 →
  page_table_ s !! p = Some f → pages_ s !! Z.to_nat f = Some pg →
  is_dirty_ pg = true → page_table_ s2 !! p = None →
  disk_ s2 !! p = Some (data_ pg).
Proof.
  intros HI HC Hpath Hp Hpg Hdirty.
  destruct (bi_table s HI p f Hp) as [(Hf & pg0 & Hpg0 & Hid) _].
  assert (pg0 = pg) by congruence. subst pg0.
  destruct Hpath as [rest Hfl ->| _ _ -> ->| _ _ _ _ -> ->
                    |fs r pgv Hfl _ _ _ _ Hf' Hpgv Hz ->]; simpl;
    try congruence.
  rewrite write_back_disk. simpl.
  intros Hgone. apply lookup_delete_None in Hgone as [Heq|?]; [|congruence].
  apply lookup_lt_Some in Hpgv as Hlt. rewrite (bi_len s HI) in Hlt.
  destruct (HC (Z.to_nat f') Hlt) as [Hin|Hres].
  { rewrite Hfl in Hin. by apply elem_of_nil in Hin. }
  destruct Hres as (_ & pgv' & Hpgv' & Htab).
  rewrite Nat2Z.id in Hpgv'. rewrite Z2Nat.id in Htab by done.
  assert (pgv' = pgv) by congruence. subst pgv'.
  rewrite Heq, Hp in Htab. injection Htab as ->.
  assert (pgv = pg) by congruence. subst pgv.
  by rewrite Hdirty, Heq, lookup_insert_eq.
Qed.

Lemma dirty_page_leaves s o s' p f pg :
  BInv s → Covered s → step o s = Some s' →
  page_table_ s !! p = Some f → pages_ s !! Z.to_nat f = Some pg →
  is_dirty_ pg = true → page_table_ s' !! p = None →
  disk_ s' !! p = Some (data_ pg).
Proof.
  intros HI HC Hstep Hp Hpg Hdirty.
  unfold step, drop in Hstep.
  destruct o as [|q|q d|q| |q]; simpl in Hstep;
    match type of Hstep with
    | snd <$> ?m = _ => destruct m as [[res s1]|] eqn:E; [|done]
    end; simpl in Hstep; injection Hstep as <-.
  - destruct (NewPgImp_cases s res s1 HI E) as (_ & f' & s2 & Hpick & HI2 & Hcase).
    apply pick_frame_path in Hpick as Hpath; [|by apply BInv_advance].
    pose proof (pick_path_evicts (advance s) f' s2 p f pg
                  (BInv_advance s HI) (cov_frames s HC) Hpath Hp Hpg Hdirty)
      as Hev.
    destruct Hcase as [(_ & _ & ->)|(pgv & r & _ & _ & _ & _ & _ & _ & _ & ->)];
      [done|].
    simpl. intros [Hgone _]%lookup_insert_None. by apply Hev.
  - destruct (FetchPgImp_cases s q res s1 HI E)
      as [(fq & pgq & r & _ & _ & _ & _ & _ & _ & _ & ->)
         |(Hq & f' & s2 & Hpick & HI2 & Hcase)]; [simpl; congruence|].
    apply pick_frame_path in Hpick as Hpath; [|done].
    pose proof (pick_path_evicts s f' s2 p f pg HI (cov_frames s HC) Hpath
                  Hp Hpg Hdirty) as Hev.
    destruct Hcase as [(_ & _ & ->)|(pgv & r & _ & _ & _ & _ & _ & _ & _ & ->)];
      [done|].
    simpl. intros [Hgone _]%lookup_insert_None. by apply Hev.
  - destruct (UnpinPgImp_cases s q d res s1 HI E)
      as [(_ & _ & ->)|(fq & pgq & _ & _ & _ & _ &
            [(_ & _ & ->)|(_ & _ & ->)])]; simpl; try congruence.
    destruct (pin_count_ pgq - 1 =? 0); simpl; congruence.
  - destruct (FlushPgImp_cases s q res s1 HI E)
      as [(_ & _ & ->)|(fq & pgq & _ & _ & _ & _ & _ & ->)]; simpl; congruence.
  - destruct (FlushAllPgsImp_effect s HI) as (s2 & Hrun & Hsc & _).
    rewrite Hrun in E. injection E as _ <-.
    rewrite (sc_table _ _ Hsc). congruence.
  - destruct (DeletePgImp_cases s q res s1 HI E)
      as [(_ & _ & ->)|(fq & pgq & Hq & Hfq & Hpgq & _ & Hcase)];
      [congruence|].
    destruct Hcase as [(_ & _ & ->)|(Hz & _ & ->)]; [congruence|].
    simpl. rewrite ?write_back_page_table, ?write_back_disk.
    intros Hgone. apply lookup_delete_None in Hgone as [Heq|?]; [|congruence].
    subst q. assert (fq = f) by congruence. subst fq.
    assert (pgq = pg) by congruence. subst pgq.
    destruct (bi_table s HI p f Hp) as [(_ & pg0 & Hpg0 & Hid) _].
    assert (pg0 = pg) by congruence. subst pg0.
    by rewrite Hdirty, Hid, lookup_insert_eq.
Qed.

Lemma FetchPgImp_miss_data s p f s' :
  BInv s → Covered s → reachable s →
  page_table_ s !! p = None → FetchPgImp p s = Some (Some f, s') →
  pages_ s' !! Z.to_nat f
  = Some (mkPage (default zero_data (disk_ s !! p)) p 1 false) ∧
  disk_ s' !! p = disk_ s !! p.
Proof.
  intros HI HC HR Hmiss Hfetch.
  pose proof (FetchPgImp_miss_outcome s p HR Hmiss) as Hout.
  unfold frame_choice, eviction_disk in Hout.
  assert (Hdisk : ∀ g pg, free_list_ s = [] →
            g ∈ evictable_frames s → pages_ s !! Z.to_nat g = Some pg →
            page_id_ pg ≠ p).
  { intros g pg Hfl Hg Hpg Heq.
    destruct (frames_in_range s g HI Hg) as [Hg0 Hlt].
    destruct (cov_frames s HC (Z.to_nat g)) as [Hin|Hres]; [lia| |].
    - rewrite Hfl in Hin. by apply elem_of_nil in Hin.
    - destruct Hres as (_ & pg' & Hpg' & Htab).
      rewrite Nat2Z.id in Hpg'. assert (pg' = pg) by congruence. subst pg'.
      rewrite Heq in Htab. congruence. }
  destruct (free_list_ s) as [|f0 rest] eqn:Hfl.
  - destruct (last (evictable_frames s)) as [f0|] eqn:Hlast.
    + destruct Hout as (pg & s1 & Hf & Hpg & _ & Hrun & Hpages & _ & _ & _
                           & Hd & _).
      rewrite Hrun in Hfetch. injection Hfetch as <- <-.
      apply last_Some in Hlast as [l' Hl'].
      assert (Hne : page_id_ pg ≠ p).
      { apply (Hdisk f0 pg); [done| |done].
        rewrite Hl'. apply elem_of_app. right. by left. }
      assert (Hsame : (if is_dirty_ pg then <[page_id_ pg := data_ pg]> (disk_ s)
                       else disk_ s) !! p = disk_ s !! p).
      { destruct (is_dirty_ pg); [by rewrite lookup_insert_ne|done]. }
      rewrite Hpages, Hd, Hsame. split; [|done].
      apply list_lookup_insert_eq. by apply lookup_lt_Some in Hpg.
    + destruct Hout as [Hrun _]. congruence.
  - destruct Hout as (pg & s1 & Hf & Hpg & _ & Hrun & Hpages & _ & _ & _
                         & Hd & _).
    rewrite Hrun in Hfetch. injection Hfetch as <- <-.
    rewrite Hpages, Hd. split; [|done].
    apply list_lookup_insert_eq. by apply lookup_lt_Some in Hpg.
Qed.


(** X15. No dirty page is lost. In a state a polite client has reached, let
    page [p] sit dirty in a frame with data [d]. If a polite operation
    takes [p] out of the page table (an eviction by [NewPage] or
    [FetchPage], or [DeletePage(p)]), the disk then holds [d] for [p]; and
    a [FetchPage(p)] that succeeds right after returns a frame holding
    [d]. *)
Theorem dirty_page_round_trip s o s' p f pg :
  reachable_politely s → polite_op o s → step o s = Some s' →
  page_table_ s !! p = Some f → pages_ s !! Z.to_nat f = Some pg →
  is_dirty_ pg = true → page_table_ s' !! p = None →
  disk_ s' !! p = Some (data_ pg) ∧
  ∀ f2 s2, FetchPgImp p s' = Some (Some f2, s2) →
    pages_ s2 !! Z.to_nat f2 = Some (mkPage (data_ pg) p 1 false).
Proof.
  intros HR Hpol Hstep Hp Hpg Hdirty Hgone.
  destruct (reachable_politely_inv s HR) as (_ & HI & HC).
  pose proof (dirty_page_leaves s o s' p f pg HI HC Hstep Hp Hpg Hdirty Hgone)
    as Hdisk.
  split; [done|]. intros f2 s2 Hfetch.
  pose proof (reachable_politely_step o s s' HR Hpol Hstep) as HR'.
  destruct (reachable_politely_inv s' HR') as (HR2 & HI' & HC').
  destruct (FetchPgImp_miss_data s' p f2 s2 HI' HC' HR2 Hgone Hfetch) as [-> _].
  by rewrite Hdisk.
Qed.

(** X16. [NewPage] never hands out an id that is in use. In a state a polite
    client has reached, the id a successful [NewPage] returns is not in the
    page table beforehand, lies above every id that is, and is bound to the
    returned frame afterwards. *)
Theorem NewPgImp_fresh_id s pid f s' :
  reachable_politely s → NewPgImp s = Some (Some (pid, f), s') →
  page_table_ s !! pid = None ∧
  (∀ q g, page_table_ s !! q = Some g → q < pid) ∧
  page_table_ s' !! pid = Some f.
Proof.
  intros HR Hnew. destruct (reachable_politely_inv s HR) as (_ & HI & HC).
  destruct (NewPgImp_cases s _ s' HI Hnew) as (_ & f' & s2 & _ & _ & Hcase).
  destruct Hcase as [(_ & ? & _)|(pgv & r & _ & _ & _ & _ & _ & _ & Hres & ->)];
    [done|].
  injection Hres as -> ->.
  assert (Hbelow : ∀ q g, page_table_ s !! q = Some g → q < next_page_id_ s)
    by apply (cov_ids s HC).
  split; [|split; [done|]].
  - destruct (page_table_ s !! next_page_id_ s) as [g|] eqn:Hg; [|done].
    specialize (Hbelow _ g Hg). lia.
  - simpl. by rewrite lookup_insert_eq.
Qed.

End disk_round_trip.

(** ** Sequences of operations *)

Section sequences.
Implicit Types (s : BPMI) (f g p q : Z) (pg : Page).

Lemma repeatM_S {A} (m : M A) n s a s1 rest s' :
  m s = Some (a, s1) → repeatM n m s1 = Some (rest, s') →
  repeatM (S n) m s = Some (a :: rest, s').
Proof.
  intros Hm Hrest. simpl. unfold bind at 1. rewrite Hm.
  unfold bind at 1. by rewrite Hrest.
Qed.

(** [n] calls [UnpinPage(p, d)] on a page whose pin count is at least
    [n]. *)
Lemma unpins_frame p d f n : ∀ s pg,
  reachable s → page_table_ s !! p = Some f →
  pages_ s !! Z.to_nat f = Some pg → Z.of_nat n <= pin_count_ pg →
  ∃ s', repeatM n (UnpinPgImp p d) s = Some (replicate n true, s') ∧
    reachable s' ∧ page_table_ s' = page_table_ s ∧
    free_list_ s' = free_list_ s ∧ disk_ s' = disk_ s ∧
    next_page_id_ s' = next_page_id_ s ∧
    pages_ s'
    = <[Z.to_nat f := mkPage (data_ pg) p (pin_count_ pg - Z.of_nat n)
                        (match n with O => is_dirty_ pg | S _ => d end)]>
        (pages_ s).
Proof.
  induction n as [|n IH]; intros s pg HR Hp Hpg Hle.
  - exists s. do 6 (split; [done|]).
    destruct (bi_table s (reachable_BInv s HR) p f Hp) as [(_ & pg' & Hpg' & Hid) _].
    assert (pg' = pg) by congruence. subst pg'.
    symmetry. apply list_insert_id. rewrite Hpg. f_equal.
    destruct pg as [dt id pin dirty]. simpl in *. subst id. f_equal. lia.
  - pose proof (UnpinPgImp_outcome s p d HR) as Hout. rewrite Hp in Hout.
    destruct Hout as (pg' & s1 & Hf & Hpg' & Hun & Hpages & _ & _ & Htab & Hfree
                         & Hdisk & Hnext).
    assert (pg' = pg) by congruence. subst pg'.
    rewrite bool_decide_eq_true_2 in Hun by lia.
    assert (Hlt : (Z.to_nat f < length (pages_ s))%nat)
      by by apply lookup_lt_Some in Hpg.
    assert (HR1 : reachable s1).
    { apply (reach_step (OUnpinPage p d) s); [done|].
      simpl. unfold drop. by rewrite Hun. }
    destruct (IH s1 (mkPage (data_ pg) p (Z.max 0 (pin_count_ pg - 1)) d))
      as (s' & Hrun & HR' & Htab' & Hfree' & Hdisk' & Hnext' & Hpages').
    + done.
    + by rewrite Htab.
    + rewrite Hpages. by apply list_lookup_insert_eq.
    + simpl. lia.
    + exists s'. split; [by apply (repeatM_S _ n s true s1)|].
      split; [done|]. split; [congruence|]. split; [congruence|].
      split; [congruence|]. split; [congruence|].
      rewrite Hpages', Hpages, list_insert_insert_eq. simpl.
      do 2 f_equal; [lia|by destruct n].
Qed.

(** X17. Releasing a page and deleting it. On a reachable state let [p] sit
    in frame [f] with pin count [k > 0]. [DeletePage(p)] refuses. After
    [k] calls [UnpinPage(p, d)], which all return true, one more returns
    false, and [DeletePage(p)] succeeds: [p] leaves the page table, [f] is
    reset and appended to the free list while the replacer still lists it
    as evictable, and the disk receives the data of [p] exactly when the
    flag [d] of the unpin calls was true, whatever the dirty flag was
    before. *)
Theorem unpin_all_then_delete s p f pg d :
  reachable s → page_table_ s !! p = Some f →
  pages_ s !! Z.to_nat f = Some pg → 0 < pin_count_ pg →
  DeletePgImp p s = Some (false, s) ∧
  ∃ s1 s2,
    repeatM (Z.to_nat (pin_count_ pg)) (UnpinPgImp p d) s
    = Some (replicate (Z.to_nat (pin_count_ pg)) true, s1) ∧
    fst <$> UnpinPgImp p d s1 = Some false ∧
    DeletePgImp p s1 = Some (true, s2) ∧
    page_table_ s2 = delete p (page_table_ s) ∧
    free_list_ s2 = free_list_ s ++ [f] ∧
    pages_ s2 = <[Z.to_nat f := fresh_page]> (pages_ s) ∧
    disk_ s2 = (if d then <[p := data_ pg]> (disk_ s) else disk_ s) ∧
    f ∈ evictable_frames s2.
Proof.
  intros HR Hp Hpg Hpin. pose proof (reachable_BInv s HR) as HI.
  destruct (bi_table s HI p f Hp) as [(Hf & _) Hnfree].
  split; [apply (DeletePgImp_pinned s p f pg); (done || lia)|].
  destruct (unpins_frame p d f (Z.to_nat (pin_count_ pg)) s pg HR Hp Hpg)
    as (s1 & Hrun & HR1 & Htab & Hfree & Hdisk & _ & Hpages); [lia|].
  rewrite Z2Nat.id in Hpages by lia.
  destruct (Z.to_nat (pin_count_ pg)) as [|k] eqn:Hk; [lia|].
  rewrite Z.sub_diag in Hpages.
  assert (Hlt : (Z.to_nat f < length (pages_ s))%nat)
    by by apply lookup_lt_Some in Hpg.
  assert (Hpg1 : pages_ s1 !! Z.to_nat f = Some (mkPage (data_ pg) p 0 d)).
  { rewrite Hpages. by apply list_lookup_insert_eq. }
  assert (Hp1 : page_table_ s1 !! p = Some f) by by rewrite Htab.
  pose proof (reachable_BInv s1 HR1) as HI1.
  exists s1. eexists. split; [done|]. split.
  { rewrite (UnpinPgImp_unpinned s1 p d f _ Hp1 Hf Hpg1); [done|simpl; lia]. }
  split; [by apply (DeletePgImp_unpinned s1 p f _ Hp1 Hf Hpg1)|].
  unfold evictable_frames. simpl.
  rewrite ?write_back_page_table, ?write_back_free_list,
    ?write_back_pages, ?write_back_disk, ?write_back_replacer. simpl.
  rewrite Htab, Hfree, Hdisk, Hpages, list_insert_insert_eq.
  do 4 (split; [done|]).
  destruct (reachable_Tracked s1 HR1 (Z.to_nat f) _ Hpg1) as [Hin|Hin];
    [done| |by rewrite Z2Nat.id in Hin].
  rewrite Z2Nat.id in Hin by done.
  by destruct (bi_table s1 HI1 p f Hp1) as [_ Hnfree1].
Qed.

(** [NewPage] called once for every frame at the front of the free list. *)
Lemma NewPgImp_drain fs : ∀ s rest,
  reachable s → free_list_ s = fs ++ rest →
  0 <= next_page_id_ s →
  next_page_id_ s mod num_instances_ s = instance_index_ s →
  next_page_id_ s + Z.of_nat (length fs) * num_instances_ s <= INT32_MAX →
  ∃ s', repeatM (length fs) NewPgImp s
        = Some (imap (λ j g, Some (next_page_id_ s
                                   + Z.of_nat j * num_instances_ s, g)) fs,
                s') ∧
    reachable s' ∧ free_list_ s' = rest ∧
    pool_size_ s' = pool_size_ s ∧
    num_instances_ s' = num_instances_ s ∧
    instance_index_ s' = instance_index_ s ∧
    next_page_id_ s'
    = next_page_id_ s + Z.of_nat (length fs) * num_instances_ s ∧
    disk_ s' = disk_ s ∧
    (∀ j g, fs !! j = Some g →
       pages_ s' !! Z.to_nat g
       = Some (mkPage zero_data
                 (next_page_id_ s + Z.of_nat j * num_instances_ s) 1 false)) ∧
    (∀ i, Z.of_nat i ∉ fs → pages_ s' !! i = pages_ s !! i).
Proof.
  induction fs as [|f fs IH]; intros s rest HR Hfl Hnn Hmod Hroom.
  - exists s. simpl. rewrite Z.add_0_r. do 8 (split; [done|]). by split.
  - pose proof (reachable_BInv s HR) as HI.
    pose proof (bi_num s HI) as Hnum. pose proof (bi_next s HI) as Hnext.
    simpl length in Hroom. rewrite Nat2Z.inj_succ in Hroom.
    unfold INT32_MAX in *.
    assert (Hassert : to_uint32 (next_page_id_ s) mod num_instances_ s
                      = instance_index_ s).
    { rewrite to_uint32_id; [done|lia]. }
    pose proof (NewPgImp_outcome s HR Hassert) as Hout.
    unfold frame_choice, eviction_disk in Hout. rewrite Hfl in Hout.
    simpl in Hout.
    destruct Hout as (pg & s1 & Hf & Hpg & _ & Hnew & Hpages & _ & Hfree & _
                         & Hdisk & _ & Hnext1).
    rewrite to_int32_id in Hnext1 by nia.
    assert (HR1 : reachable s1).
    { apply (reach_step ONewPage s); [done|].
      simpl. unfold drop. by rewrite Hnew. }
    destruct (step_config ONewPage s s1 HI) as (Hps1 & Hn1 & Hidx1).
    { simpl. unfold drop. by rewrite Hnew. }
    destruct (IH s1 rest HR1 Hfree) as
      (s' & Hrun & HR' & Hfl' & Hps' & Hn' & Hidx' & Hnext' & Hdisk' & Hfilled
          & Hrest).
    + lia.
    + rewrite Hnext1, Hn1, Hidx1.
      rewrite <- Hmod.
      rewrite <- (Z.mod_add (next_page_id_ s) 1 (num_instances_ s)) by lia.
      f_equal. lia.
    + rewrite Hnext1, Hn1. nia.
    + assert (Hnd : NoDup (f :: fs ++ rest)).
      { pose proof (bi_free_nodup s HI) as Hnd. by rewrite Hfl in Hnd. }
      apply NoDup_cons in Hnd as [Hnin _].
      assert (Hnin' : f ∉ fs) by (intros ?; apply Hnin, elem_of_app; by left).
      exists s'. split; [|split; [done|split; [done|]]].
      { rewrite imap_cons. simpl length.
        apply (repeatM_S NewPgImp (length fs) s _ s1);
          [by rewrite Z.mul_0_l, Z.add_0_r|].
        rewrite Hrun. do 2 f_equal. apply imap_ext. intros j g _. simpl.
        rewrite Hnext1, Hn1. do 2 f_equal. lia. }
      split; [congruence|]. split; [congruence|]. split; [congruence|].
      split; [rewrite Hnext', Hnext1, Hn1; simpl length; nia|].
      split; [congruence|]. split.
      * intros [|j] g Hj; simpl in Hj.
        -- injection Hj as <-. rewrite Hrest.
           ++ rewrite Hpages, Z.mul_0_l, Z.add_0_r.
              apply list_lookup_insert_eq. by apply lookup_lt_Some in Hpg.
           ++ by rewrite Z2Nat.id.
        -- rewrite (Hfilled j g Hj), Hnext1, Hn1. do 2 f_equal. lia.
      * intros i Hi. apply not_elem_of_cons in Hi as [Hne Hi].
        rewrite (Hrest i Hi), Hpages. apply list_lookup_insert_ne. lia.
Qed.

(** X18. [NewPage] hands out the free list in order. On a reachable state
    whose counter is non-negative and congruent to the instance index,
    with room for [k] more allocations, the first [k] calls of [NewPage],
    [k] the length of the free list, all succeed: call [j] returns the id
    [next_page_id_ + j * num_instances_] in the [j]-th frame of the free
    list, zeroed, pinned once and clean. No frame outside the free list is
    touched, the disk is not written, and the free list is then empty. *)
Theorem NewPgImp_drains_free_list s :
  reachable s →
  0 <= next_page_id_ s →
  next_page_id_ s mod num_instances_ s = instance_index_ s →
  next_page_id_ s + Z.of_nat (length (free_list_ s)) * num_instances_ s
  <= INT32_MAX →
  ∃ s', repeatM (length (free_list_ s)) NewPgImp s
        = Some (imap (λ j g, Some (next_page_id_ s
                                   + Z.of_nat j * num_instances_ s, g))
                     (free_list_ s), s') ∧
    free_list_ s' = [] ∧
    next_page_id_ s'
    = next_page_id_ s
      + Z.of_nat (length (free_list_ s)) * num_instances_ s ∧
    disk_ s' = disk_ s ∧
    (∀ j g, free_list_ s !! j = Some g →
       pages_ s' !! Z.to_nat g
       = Some (mkPage zero_data
                 (next_page_id_ s + Z.of_nat j * num_instances_ s) 1 false)) ∧
    (∀ i, Z.of_nat i ∉ free_list_ s → pages_ s' !! i = pages_ s !! i).
Proof.
  intros HR Hnn Hmod Hroom.
  destruct (NewPgImp_drain (free_list_ s) s [] HR) as
    (s' & Hrun & _ & Hfl & _ & _ & _ & Hnext & Hdisk & Hfilled & Hrest);
    [by rewrite app_nil_r|done..|].
  exists s'. by repeat split.
Qed.

Lemma create_free_list pool_size num_instances instance_index disk s :
  valid_config pool_size num_instances instance_index →
  create pool_size num_instances instance_index disk = Some s →
  free_list_ s = Z.of_nat <$> seq 0 pool_size.
Proof.
  intros (Hp & _) Hc. revert Hc. unfold create.
  destruct (_ && _); [|done]. intros [= <-]. simpl.
  by apply initial_free_list.
Qed.

(** X19. Filling a fresh pool. On a freshly constructed manager of
    [pool_size] frames, with room in the counter, the first [pool_size]
    calls of [NewPage] succeed: call [j] returns the id
    [instance_index + j * num_instances] in frame [j], zeroed, pinned once
    and clean. After them no frame is free or evictable, the next
    [NewPage] returns none, moving only the counter, and so does every
    [FetchPage] of a page not in the page table, changing nothing. *)
Theorem fresh_pool_fills pool_size num_instances instance_index disk s0 :
  valid_config pool_size num_instances instance_index →
  create pool_size num_instances instance_index disk = Some s0 →
  instance_index + Z.of_nat pool_size * num_instances <= INT32_MAX →
  ∃ s', repeatM pool_size NewPgImp s0
        = Some ((λ j, Some (instance_index + Z.of_nat j * num_instances,
                            Z.of_nat j)) <$> seq 0 pool_size, s') ∧
    (∀ j, (j < pool_size)%nat →
       pages_ s' !! j
       = Some (mkPage zero_data (instance_index + Z.of_nat j * num_instances)
                      1 false)) ∧
    free_list_ s' = [] ∧ evictable_frames s' = [] ∧
    NewPgImp s' = Some (None, advance s') ∧
    (∀ p, page_table_ s' !! p = None → FetchPgImp p s' = Some (None, s')).
Proof.
  intros Hv Hc Hroom.
  assert (HR0 : reachable s0)
    by by apply (reach_create pool_size num_instances instance_index disk).
  pose proof (create_free_list _ _ _ _ _ Hv Hc) as Hfl.
  destruct (create_fields _ _ _ _ _ Hc) as (Hps & Hn & Hidx & Hnext & _).
  destruct Hv as (Hpool & Hnum & Hi).
  assert (Hnext0 : next_page_id_ s0 = instance_index).
  { rewrite Hnext. apply to_int32_id. unfold INT32_MAX in *. nia. }
  assert (Hlen : length (free_list_ s0) = pool_size)
    by by rewrite Hfl, length_fmap, length_seq.
  destruct (NewPgImp_drain (free_list_ s0) s0 [] HR0) as
    (s' & Hrun & HR' & Hfl' & Hps' & Hn' & Hidx' & Hnext' & _ & Hfilled & _).
  { by rewrite app_nil_r. }
  { lia. }
  { rewrite Hnext0, Hn, Hidx. apply Z.mod_small. lia. }
  { by rewrite Hlen, Hnext0, Hn. }
  rewrite Hlen, Hnext0, Hn in Hrun, Hnext'. rewrite Hnext0, Hn in Hfilled.
  pose proof (reachable_BInv s' HR') as HI'.
  assert (Hpages : ∀ j, (j < pool_size)%nat →
            pages_ s' !! j
            = Some (mkPage zero_data
                      (instance_index + Z.of_nat j * num_instances) 1 false)).
  { intros j Hj. rewrite <- (Nat2Z.id j) at 1. apply Hfilled.
    rewrite Hfl, list_lookup_fmap, lookup_seq_lt by done. done. }
  assert (Hall : ∀ pg, pg ∈ pages_ s' → 0 < pin_count_ pg).
  { intros pg [j Hj]%list_elem_of_lookup.
    apply lookup_lt_Some in Hj as Hlt. rewrite (bi_len s' HI') in Hlt.
    rewrite Hps', Hps in Hlt. rewrite (Hpages j Hlt) in Hj.
    injection Hj as <-. simpl. lia. }
  assert (Hev : evictable_frames s' = []).
  { unfold evictable_frames.
    destruct (LRU.frames (replacer_ s')) as [|f l] eqn:Hfr; [done|].
    destruct (bi_evictable s' HI' f) as (_ & pg & Hpg & Hz);
      [rewrite Hfr; by left|].
    assert (0 < pin_count_ pg); [|lia].
    apply Hall. by apply list_elem_of_lookup_2 in Hpg. }
  assert (Hchoice : frame_choice s' = None).
  { unfold frame_choice. by rewrite Hfl', Hev. }
  exists s'. split; [|split; [done|split; [done|split; [done|split]]]].
  - rewrite Hrun. do 2 f_equal. rewrite Hfl, imap_fmap.
    rewrite <- (length_seq pool_size 0) at 2. rewrite <- imap_seq_0.
    apply imap_ext. intros j x Hx. apply lookup_seq in Hx as [-> _]. done.
  - assert (Hassert : to_uint32 (next_page_id_ s') mod num_instances_ s'
                      = instance_index_ s').
    { rewrite Hnext', Hn', Hn, Hidx', Hidx.
      unfold INT32_MAX in *. rewrite to_uint32_id by nia.
      rewrite Z.mod_add by lia. apply Z.mod_small. lia. }
    pose proof (NewPgImp_outcome s' HR' Hassert) as Hout.
    rewrite Hchoice in Hout. by destruct Hout.
  - intros p Hmiss.
    pose proof (FetchPgImp_miss_outcome s' p HR' Hmiss) as Hout.
    rewrite Hchoice in Hout. by destruct Hout.
Qed.

Lemma run_counter ops : ∀ s s',
  BInv s → along room_op ops s → run ops s = Some s' →
  next_page_id_ s'
  = next_page_id_ s + Z.of_nat (new_page_calls ops) * num_instances_ s.
Proof.
  induction ops as [|o rest IH]; intros s s' HI Hroom Hrun; simpl in *.
  - injection Hrun as <-. lia.
  - destruct Hroom as [Hro Hrest].
    destruct (step o s) as [s1|] eqn:E; [|done].
    pose proof (step_BInv o s s1 HI E) as HI1.
    destruct (step_config o s s1 HI E) as (_ & Hn & _).
    pose proof (step_next o s s1 HI E) as Hnext.
    rewrite (IH s1 s' HI1 Hrest Hrun), Hn, Hnext.
    pose proof (bi_next s HI). pose proof (bi_num s HI).
    destruct o; simpl in *; try lia.
    unfold INT32_MAX in Hro. rewrite to_int32_id by lia. lia.
Qed.

(** X20. Every [NewPage] call consumes one id, whether it succeeds or not,
    and nothing else moves the counter. In any run from a reachable state
    in which the counter does not overflow, the counter ends
    [num_instances_] times the number of [NewPage] calls above where it
    started; the pool size, the number of instances and the instance index
    never change. *)
Theorem counter_counts_NewPage_calls ops s s' :
  reachable s → along room_op ops s → run ops s = Some s' →
  next_page_id_ s'
  = next_page_id_ s + Z.of_nat (new_page_calls ops) * num_instances_ s ∧
  pool_size_ s' = pool_size_ s ∧
  num_instances_ s' = num_instances_ s ∧
  instance_index_ s' = instance_index_ s.
Proof.
  intros HR Hroom Hrun. pose proof (reachable_BInv s HR) as HI.
  split; [by apply run_counter|]. by apply (run_config ops).
Qed.

(** X21. A deleted frame is reused and its stale replacer entry dropped. On a
    reachable state with an empty free list, let the unpinned page [p] sit
    in frame [f]. [DeletePage(p)] succeeds and leaves [f] both free and
    evictable; the [NewPage] after it takes [f] from the free list, without
    asking the replacer for a victim, and its [Pin(f)] removes [f] from the
    evictable frames. *)
Theorem delete_then_new_reuses_frame s p f pg :
  reachable s →
  to_uint32 (next_page_id_ s) mod num_instances_ s = instance_index_ s →
  free_list_ s = [] → page_table_ s !! p = Some f →
  pages_ s !! Z.to_nat f = Some pg → pin_count_ pg = 0 →
  (f ∈ evictable_frames s) ∧
  ∃ s1 s2, DeletePgImp p s = Some (true, s1) ∧
    free_list_ s1 = [f] ∧ evictable_frames s1 = evictable_frames s ∧
    NewPgImp s1 = Some (Some (next_page_id_ s, f), s2) ∧
    new_calls s1 s2 = [CPin f] ∧
    free_list_ s2 = [] ∧
    evictable_frames s2 = filter (λ g, g ≠ f) (evictable_frames s) ∧
    page_table_ s2 = <[next_page_id_ s := f]> (delete p (page_table_ s)) ∧
    pages_ s2
    = <[Z.to_nat f := mkPage zero_data (next_page_id_ s) 1 false]> (pages_ s).
Proof.
  intros HR Hassert Hfl Hp Hpg Hz. pose proof (reachable_BInv s HR) as HI.
  destruct (bi_table s HI p f Hp) as [(Hf & _) _].
  assert (Hin : f ∈ evictable_frames s).
  { destruct (reachable_Tracked s HR (Z.to_nat f) pg Hpg Hz) as [Hin|Hin].
    - rewrite Hfl in Hin. by apply elem_of_nil in Hin.
    - by rewrite Z2Nat.id in Hin. }
  split; [done|].
  pose proof (DeletePgImp_unpinned s p f pg Hp Hf Hpg Hz) as Hdel.
  match type of Hdel with _ = Some (true, ?st) => set (s1 := st) in * end.
  assert (HR1 : reachable s1).
  { apply (reach_step (ODeletePage p) s); [done|].
    simpl. unfold drop. by rewrite Hdel. }
  assert (Hfl1 : free_list_ s1 = [f]).
  { unfold s1. simpl. by rewrite ?write_back_free_list, Hfl. }
  assert (Hnext1 : next_page_id_ s1 = next_page_id_ s).
  { unfold s1. simpl. by rewrite ?write_back_next_page_id. }
  assert (Hev1 : evictable_frames s1 = evictable_frames s).
  { unfold s1, evictable_frames. simpl. by rewrite ?write_back_replacer. }
  assert (Hcfg1 : num_instances_ s1 = num_instances_ s ∧
                  instance_index_ s1 = instance_index_ s).
  { unfold s1. simpl. by destruct (write_back_config pg s) as (_ & -> & ->). }
  destruct Hcfg1 as [Hn1 Hidx1].
  assert (Hassert1 : to_uint32 (next_page_id_ s1) mod num_instances_ s1
                     = instance_index_ s1) by by rewrite Hnext1, Hn1, Hidx1.
  pose proof (NewPgImp_outcome s1 HR1 Hassert1) as Hout.
  unfold frame_choice, eviction_table, eviction_calls in Hout.
  rewrite Hfl1 in Hout.
  destruct Hout as (pg1 & s2 & _ & _ & _ & Hnew & Hpages & Htab & Hfree & Hev
                       & _ & Hcalls & _).
  exists s1, s2. split; [done|]. split; [done|]. split; [done|].
  rewrite Hnext1 in Hnew, Hpages, Htab. split; [done|]. split; [done|].
  split; [done|]. split; [by rewrite Hev, Hev1|]. split.
  - rewrite Htab. unfold s1. simpl. done.
  - rewrite Hpages. unfold s1. simpl.
    by rewrite ?write_back_pages, list_insert_insert_eq.
Qed.

End sequences.

(** * The theorems at concrete inputs *)

Section witnesses.

Lemma state_after_reachable pool_size num_instances instance_index ops :
  valid_config pool_size num_instances instance_index →
  is_Some (run_from pool_size num_instances instance_index ops) →
  reachable (state_after pool_size num_instances instance_index ops).
Proof.
  intros Hv [s Hs]. unfold state_after. rewrite Hs. simpl.
  by apply (run_from_reachable pool_size num_instances instance_index ops).
Qed.

Lemma valid_config_small pool_size :
  (pool_size <= 8)%nat → valid_config pool_size 1 0.
Proof. intros H. unfold valid_config, INT32_MAX. lia. Qed.

(** C2 on a pool of two frames after [NewPage; UnpinPage(0, true)]. *)
Lemma C2_witness :
  valid_config 2 1 0 ∧
  create 2 1 0 ∅ = Some (state_after 2 1 0 []) ∧
  run [ONewPage; OUnpinPage 0 true] (state_after 2 1 0 [])
  = Some (state_after 2 1 0 [ONewPage; OUnpinPage 0 true]) ∧
  polite [ONewPage; OUnpinPage 0 true] (state_after 2 1 0 []) ∧
  (length (table_frames (state_after 2 1 0 [ONewPage; OUnpinPage 0 true]))
   + length (free_list_ (state_after 2 1 0 [ONewPage; OUnpinPage 0 true]))
   = 2)%nat.
Proof.
  assert (Hv : valid_config 2 1 0) by (apply valid_config_small; lia).
  assert (Hc : create 2 1 0 ∅ = Some (state_after 2 1 0 []))
    by (vm_compute; reflexivity).
  assert (Hr : run [ONewPage; OUnpinPage 0 true] (state_after 2 1 0 [])
               = Some (state_after 2 1 0 [ONewPage; OUnpinPage 0 true]))
    by (vm_compute; reflexivity).
  assert (Hp : polite [ONewPage; OUnpinPage 0 true] (state_after 2 1 0 [])).
  { vm_compute. repeat split; discriminate. }
  do 4 (split; [assumption|]).
  apply (C2_frame_partition 2 1 0 ∅ (state_after 2 1 0 [])
           [ONewPage; OUnpinPage 0 true]
           (state_after 2 1 0 [ONewPage; OUnpinPage 0 true]) Hv Hc Hr).
  exact Hp.
Defined.

(** C3 on a pool of one frame whose page has been unpinned: [NewPage] takes
    the replacer's victim. *)
Lemma C3_witness :
  BInv (state_after 1 1 0 [ONewPage; OUnpinPage 0 false]) ∧
  ∃ s', NewPgImp (state_after 1 1 0 [ONewPage; OUnpinPage 0 false])
        = Some (Some (1, 0), s') ∧
        CVictim ∈ new_calls (state_after 1 1 0 [ONewPage; OUnpinPage 0 false]) s'.
Proof.
  assert (HI : BInv (state_after 1 1 0 [ONewPage; OUnpinPage 0 false])).
  { apply reachable_BInv, state_after_reachable;
      [apply valid_config_small; lia|vm_compute; eauto]. }
  split; [exact HI|].
  destruct (C3_frame_selection _ HI) as [Hnew _].
  destruct (Hnew 1 (advance (state_after 1 1 0 [ONewPage; OUnpinPage 0 false])))
    as (_ & _ & Hvictim).
  { vm_compute. reflexivity. }
  apply Hvictim.
  - vm_compute. reflexivity.
  - intros Hall.
    specialize (Hall (mkPage zero_data 0 0 false)).
    assert (0 < 0) as Hlt; [|lia]. apply Hall.
    assert (pages_ (state_after 1 1 0 [ONewPage; OUnpinPage 0 false])
            = [mkPage zero_data 0 0 false]) as -> by (vm_compute; reflexivity).
    by left.
Defined.

(** C4 on the replacer of capacity 7 holding frame 1. *)
Lemma C4_witness :
  LRU.Inv (LRU.Unpin 1 (LRU.create 7)) ∧
  LRU.frames (LRU.Unpin 1 (LRU.create 7)) = [] ++ [1] ∧
  fst (LRU.Victim (LRU.Unpin 1 (LRU.create 7))) = Some 1.
Proof.
  assert (HI : LRU.Inv (LRU.Unpin 1 (LRU.create 7)))
    by apply Inv_Unpin, Inv_create.
  assert (Hfr : LRU.frames (LRU.Unpin 1 (LRU.create 7)) = [] ++ [1])
    by (vm_compute; reflexivity).
  split; [exact HI|]. split; [exact Hfr|].
  destruct C4_lru_replacer as (_ & _ & _ & Hback & _).
  by destruct (Hback _ [] 1 HI Hfr) as [? _].
Defined.

(** C5 on a fresh manager with 4 instances and index 2. *)
Lemma C5_witness :
  AllocatePage (state_after 1 4 2 [])
  = Some (2, advance (state_after 1 4 2 [])) ∧
  page_mod 2 (num_instances_ (state_after 1 4 2 []))
  = instance_index_ (state_after 1 4 2 []).
Proof.
  assert (Ha : AllocatePage (state_after 1 4 2 [])
               = Some (2, advance (state_after 1 4 2 [])))
    by (vm_compute; reflexivity).
  split; [exact Ha|].
  destruct C5_AllocatePage as (Halloc & _).
  by destruct (Halloc _ _ _ Ha) as (_ & _ & _ & ?).
Defined.

(** C6 on a pool of one frame whose dirty page has been unpinned. *)
Lemma C6_witness :
  reachable (state_after 1 1 0 [ONewPage; OUnpinPage 0 true]) ∧
  match page_table_ (state_after 1 1 0 [ONewPage; OUnpinPage 0 true]) !! 0 with
  | Some f => f = 0
  | None => False
  end ∧
  ∃ s', DeletePgImp 0 (state_after 1 1 0 [ONewPage; OUnpinPage 0 true])
        = Some (true, s') ∧
        free_list_ s' = [0].
Proof.
  assert (HR : reachable (state_after 1 1 0 [ONewPage; OUnpinPage 0 true])).
  { apply state_after_reachable;
      [apply valid_config_small; lia|vm_compute; eauto]. }
  split; [exact HR|]. split; [vm_compute; reflexivity|].
  pose proof (C6_DeletePgImp _ 0 HR) as H.
  assert (page_table_ (state_after 1 1 0 [ONewPage; OUnpinPage 0 true]) !! 0
          = Some 0) as Hp by (vm_compute; reflexivity).
  assert (pages_ (state_after 1 1 0 [ONewPage; OUnpinPage 0 true])
            !! Z.to_nat 0 = Some (mkPage zero_data 0 0 true)) as Hpg
    by (vm_compute; reflexivity).
  assert (free_list_ (state_after 1 1 0 [ONewPage; OUnpinPage 0 true]) = [])
    as Hfl by (vm_compute; reflexivity).
  rewrite Hp in H. destruct H as (pg & _ & Hpg' & H).
  rewrite Hpg in Hpg'. injection Hpg' as <-. simpl in H.
  destruct H as (s' & Hd & _ & _ & _ & Hfl' & _).
  exists s'. split; [exact Hd|]. by rewrite Hfl', Hfl.
Defined.

(** C7 on the same state: the flush succeeds and writes page 0. *)
Lemma C7_witness :
  reachable (state_after 1 1 0 [ONewPage; OUnpinPage 0 true]) ∧
  ∃ s', FlushPgImp 0 (state_after 1 1 0 [ONewPage; OUnpinPage 0 true])
        = Some (true, s') ∧
        new_calls (state_after 1 1 0 [ONewPage; OUnpinPage 0 true]) s'
        = [CWritePage 0 zero_data].
Proof.
  assert (HR : reachable (state_after 1 1 0 [ONewPage; OUnpinPage 0 true])).
  { apply state_after_reachable;
      [apply valid_config_small; lia|vm_compute; eauto]. }
  split; [exact HR|].
  pose proof (C7_FlushPgImp _ 0 HR) as H.
  assert (page_table_ (state_after 1 1 0 [ONewPage; OUnpinPage 0 true]) !! 0
          = Some 0) as Hp by (vm_compute; reflexivity).
  assert (pages_ (state_after 1 1 0 [ONewPage; OUnpinPage 0 true])
            !! Z.to_nat 0 = Some (mkPage zero_data 0 0 true)) as Hpg
    by (vm_compute; reflexivity).
  rewrite Hp in H. destruct H as (pg & s' & _ & Hpg' & Hf & Hc & _).
  rewrite Hpg in Hpg'. injection Hpg' as <-.
  exists s'. split; [exact Hf|exact Hc].
Defined.

(** C8 on a pool of one frame holding page 0 pinned once, with three
    fetches and three unpins. *)
Lemma C8_witness :
  reachable (state_after 1 1 0 [ONewPage]) ∧
  page_table_ (state_after 1 1 0 [ONewPage]) !! 0 = Some 0 ∧
  pin_at (state_after 1 1 0 [ONewPage]) 0 = Some 1 ∧
  is_Some (repeatM 3 (FetchPgImp 0) (state_after 1 1 0 [ONewPage])) ∧
  ∀ rs s1,
    repeatM 3 (FetchPgImp 0) (state_after 1 1 0 [ONewPage]) = Some (rs, s1) →
    rs = replicate 3 (Some 0) ∧
    pin_at s1 0 = Some (1 + Z.of_nat 3) ∧
    ∃ s2,
      repeatM 3 (UnpinPgImp 0 false) s1 = Some (replicate 3 true, s2) ∧
      page_table_ s2 !! 0 = Some 0 ∧
      pin_at s2 0 = Some 1.
Proof.
  assert (HR : reachable (state_after 1 1 0 [ONewPage])).
  { apply state_after_reachable;
      [apply valid_config_small; lia|vm_compute; eauto]. }
  assert (Hp : page_table_ (state_after 1 1 0 [ONewPage]) !! 0 = Some 0)
    by (vm_compute; reflexivity).
  assert (Hk : pin_at (state_after 1 1 0 [ONewPage]) 0 = Some 1)
    by (vm_compute; reflexivity).
  do 3 (split; [assumption|]).
  destruct (C8_fetch_unpin_pairs _ 0 0 1 3 HR Hp Hk) as (_ & Hdef & Hall).
  split; [|exact Hall].
  apply Hdef. unfold INT32_MAX. lia.
Defined.

(** C9 on a replacer holding frames 2 and 1, pinning the back frame. *)
Lemma C9_witness :
  LRU.nodes_distinct (LRU.Unpin 2 (LRU.Unpin 1 (LRU.create 7))) ∧
  LRU.map_matches_list (LRU.Unpin 2 (LRU.Unpin 1 (LRU.create 7))) ∧
  LRU.Pin 1 (LRU.Unpin 2 (LRU.Unpin 1 (LRU.create 7)))
  = Some (LRU.Pin_erase 1 (LRU.Unpin 2 (LRU.Unpin 1 (LRU.create 7)))).
Proof.
  assert (HI : LRU.Inv (LRU.Unpin 2 (LRU.Unpin 1 (LRU.create 7))))
    by apply Inv_Unpin, Inv_Unpin, Inv_create.
  pose proof (LRU.inv_nodes _ HI) as Hn.
  pose proof (Inv_map_matches _ HI) as Hm.
  split; [exact Hn|]. split; [exact Hm|].
  exact (C9_Pin_splice_is_erase _ 1 Hn Hm).
Defined.

(** C10 on a pool of one frame whose only page is pinned. *)
Lemma C10_witness :
  reachable (state_after 1 1 0 [ONewPage]) ∧
  NewPgImp (state_after 1 1 0 [ONewPage])
  = Some (None, state_after 1 1 0 [ONewPage; ONewPage]) ∧
  next_page_id_ (state_after 1 1 0 [ONewPage]) = 1 ∧
  next_page_id_ (state_after 1 1 0 [ONewPage; ONewPage]) = 2 ∧
  page_table_ (state_after 1 1 0 [ONewPage; ONewPage])
  = page_table_ (state_after 1 1 0 [ONewPage]).
Proof.
  assert (HR : reachable (state_after 1 1 0 [ONewPage])).
  { apply state_after_reachable;
      [apply valid_config_small; lia|vm_compute; eauto]. }
  assert (Hn : NewPgImp (state_after 1 1 0 [ONewPage])
               = Some (None, state_after 1 1 0 [ONewPage; ONewPage]))
    by (vm_compute; reflexivity).
  split; [exact HR|]. split; [exact Hn|].
  split; [vm_compute; reflexivity|].
  destruct (C10_NewPgImp_failure _ _ HR Hn) as (_ & _ & Hadv & Hpt & _).
  split; [|exact Hpt].
  rewrite Hadv; [vm_compute; reflexivity|vm_compute; discriminate].
Defined.

End witnesses.

(** ** The further properties at concrete inputs *)

Section more_witnesses_lru.
Import LRU.

(** The bounds on the replacer of capacity 2 after [Unpin(1)]. *)
Lemma LRU_reachable_bounds_witness :
  let cap : nat := 2%nat in
  let r : LRUReplacer := Unpin 1 (create 2) in
  (reachable cap r) ∧
  (capacity_ r = cap ∧
  (length (frames r) <= cap)%nat ∧
  NoDup (frames r) ∧
  size (lru_map_ r) = length (frames r) ∧
  (∀ f, f ∈ frames r ↔ is_Some (lru_map_ r !! f)) ∧
  (∀ f, is_Some (Pin f r))).
Proof.
  cbv zeta.
  split; [apply (reach_step _ (OUnpin 1) (create 2)); [apply reach_create|
          reflexivity]|].
  refine (LRU_reachable_bounds 2%nat (Unpin 1 (create 2)) _).
  - apply (reach_step _ (OUnpin 1) (create 2)); [apply reach_create|
    reflexivity].
Defined.

(** [Pin(1)] on the replacer of capacity 2 holding frame 1. *)
Lemma LRU_Pin_effect_witness :
  let r : LRUReplacer := Unpin 1 (create 2) in
  let f : Z := 1 in
  (Inv r) ∧
  (∃ r', Pin f r = Some r' ∧ Inv r' ∧ capacity_ r' = capacity_ r ∧
        frames r' = filter (λ g, g ≠ f) (frames r) ∧
        lru_map_ r' = delete f (lru_map_ r) ∧
        (f ∉ frames r') ∧
        (f ∉ frames r → r' = r)).
Proof.
  cbv zeta.
  split; [apply Inv_Unpin, Inv_create|].
  refine (LRU_Pin_effect (Unpin 1 (create 2)) 1 _).
  - apply Inv_Unpin, Inv_create.
Defined.

(** [Unpin(2)] then [Pin(2)] on the replacer of capacity 2 holding frame 1. *)
Lemma LRU_Unpin_then_Pin_witness :
  let r : LRUReplacer := Unpin 1 (create 2) in
  let f : Z := 2 in
  (Inv r) ∧
  (f ∉ frames r) ∧
  (length (frames r) ≠ capacity_ r) ∧
  (∃ r', Pin f (Unpin f r) = Some r' ∧
        frames r' = frames r ∧ lru_map_ r' = lru_map_ r ∧
        capacity_ r' = capacity_ r).
Proof.
  cbv zeta.
  split; [apply Inv_Unpin, Inv_create|].
  split; [change (frames (Unpin 1 (create 2))) with [1];
          by intros [=]%list_elem_of_singleton|].
  split; [by vm_compute|].
  refine (LRU_Unpin_then_Pin (Unpin 1 (create 2)) 2 _ _ _).
  - apply Inv_Unpin, Inv_create.
  - change (frames (Unpin 1 (create 2))) with [1];
    by intros [=]%list_elem_of_singleton.
  - by vm_compute.
Defined.

(** [Pin(1)] then [Unpin(1)] on the replacer of capacity 2 holding frame 1. *)
Lemma LRU_Pin_then_Unpin_witness :
  let cap : nat := 2%nat in
  let r : LRUReplacer := Unpin 1 (create 2) in
  let f : Z := 1 in
  (reachable cap r) ∧
  (f ∈ frames r) ∧
  (∃ r', Pin f r = Some r' ∧
        frames (Unpin f r') = f :: filter (λ g, g ≠ f) (frames r)).
Proof.
  cbv zeta.
  split; [apply (reach_step _ (OUnpin 1) (create 2)); [apply reach_create|
          reflexivity]|].
  split; [change (frames (Unpin 1 (create 2))) with [1];
          apply list_elem_of_here|].
  refine (LRU_Pin_then_Unpin 2%nat (Unpin 1 (create 2)) 1 _ _).
  - apply (reach_step _ (OUnpin 1) (create 2)); [apply reach_create|
    reflexivity].
  - change (frames (Unpin 1 (create 2))) with [1]; apply list_elem_of_here.
Defined.

(** Frames 5 and 7, unpinned into a replacer of capacity 3, come back in order. *)
Lemma LRU_victims_in_unpin_order_witness :
  let cap : nat := 3%nat in
  let fs : list Z := [5; 7] in
  (NoDup fs) ∧
  ((length fs <= cap)%nat) ∧
  (LRUScript.outcomes
    ((OUnpin <$> fs) ++ replicate (length fs) OVictim ++ [OVictim])
    (create cap)
  = Some ((Some <$> fs) ++ [None])).
Proof.
  cbv zeta.
  split; [apply NoDup_cons; split; [by intros [=]%list_elem_of_singleton|
          apply NoDup_singleton]|].
  split; [simpl; lia|].
  refine (LRU_victims_in_unpin_order 3%nat ([5; 7]) _ _).
  - apply NoDup_cons; split; [by intros [=]%list_elem_of_singleton|
    apply NoDup_singleton].
  - simpl; lia.
Defined.

End more_witnesses_lru.

Section more_witnesses.

Lemma state_after_politely pool_size num_instances instance_index ops :
  valid_config pool_size num_instances instance_index →
  polite ops (state_after pool_size num_instances instance_index []) →
  is_Some (run_from pool_size num_instances instance_index ops) →
  reachable_politely (state_after pool_size num_instances instance_index ops).
Proof.
  intros Hv Hpol [s Hs]. unfold state_after in *. rewrite Hs. simpl.
  unfold run_from in *.
  destruct (create pool_size num_instances instance_index ∅) as [s0|] eqn:E;
    [|done].
  simpl in Hpol.
  by exists pool_size, num_instances, instance_index, ∅, s0, ops.
Qed.

(** [FlushAllPages] on a pool of two frames holding the dirty page 0. *)
Lemma FlushAllPgsImp_flushes_all_witness :
  let s : BPMI := state_after 2 1 0 [ONewPage; OUnpinPage 0 true] in
  (reachable s) ∧
  (∃ s', FlushAllPgsImp s = Some (tt, s') ∧
    page_table_ s' = page_table_ s ∧ free_list_ s' = free_list_ s ∧
    replacer_ s' = replacer_ s ∧ next_page_id_ s' = next_page_id_ s ∧
    (∀ p f, page_table_ s !! p = Some f →
       ∃ pg, pages_ s !! Z.to_nat f = Some pg ∧
             pages_ s' !! Z.to_nat f
             = Some (mkPage (data_ pg) (page_id_ pg) (pin_count_ pg) false) ∧
             disk_ s' !! p = Some (data_ pg)) ∧
    (∀ i, Z.of_nat i ∉ table_frames s → pages_ s' !! i = pages_ s !! i) ∧
    (∀ q, page_table_ s !! q = None → disk_ s' !! q = disk_ s !! q)).
Proof.
  cbv zeta.
  split; [apply state_after_reachable; [apply valid_config_small; lia|
          vm_compute; eauto]|].
  refine (FlushAllPgsImp_flushes_all
            (state_after 2 1 0 [ONewPage; OUnpinPage 0 true])
            _).
  - apply state_after_reachable; [apply valid_config_small; lia|vm_compute;
    eauto].
Defined.

(** The shape of a pool of two frames after [NewPage; UnpinPage(0, true)]. *)
Lemma reachable_shape_witness :
  let s : BPMI := state_after 2 1 0 [ONewPage; OUnpinPage 0 true] in
  (reachable s) ∧
  (length (pages_ s) = pool_size_ s ∧
  LRU.capacity_ (replacer_ s) = pool_size_ s ∧
  (∀ i pg, pages_ s !! i = Some pg → 0 <= pin_count_ pg <= INT32_MAX) ∧
  NoDup (free_list_ s) ∧
  (∀ f, f ∈ free_list_ s →
     0 <= f ∧ pages_ s !! Z.to_nat f = Some fresh_page) ∧
  (∀ p f, page_table_ s !! p = Some f →
     0 <= f ∧ (f ∉ free_list_ s) ∧
     ∃ pg, pages_ s !! Z.to_nat f = Some pg ∧ page_id_ pg = p) ∧
  (∀ p q f, page_table_ s !! p = Some f → page_table_ s !! q = Some f → p = q) ∧
  (∀ f, f ∈ LRU.frames (replacer_ s) →
     0 <= f ∧ ∃ pg, pages_ s !! Z.to_nat f = Some pg ∧ pin_count_ pg = 0) ∧
  (∀ i pg, pages_ s !! i = Some pg → pin_count_ pg = 0 →
     Z.of_nat i ∈ free_list_ s ∨ Z.of_nat i ∈ LRU.frames (replacer_ s))).
Proof.
  cbv zeta.
  split; [apply state_after_reachable; [apply valid_config_small; lia|
          vm_compute; eauto]|].
  refine (reachable_shape
            (state_after 2 1 0 [ONewPage; OUnpinPage 0 true])
            _).
  - apply state_after_reachable; [apply valid_config_small; lia|vm_compute;
    eauto].
Defined.

(** [NewPage] is defined on a pool of two frames holding page 0. *)
Lemma step_defined_witness :
  let s : BPMI := state_after 2 1 0 [ONewPage] in
  let o : op := ONewPage in
  (reachable s) ∧
  (is_Some (step o s) ↔
  match o with
  | ONewPage =>
      to_uint32 (next_page_id_ s) mod num_instances_ s = instance_index_ s
  | OFetchPage p =>
      ∀ f pg, page_table_ s !! p = Some f →
              pages_ s !! Z.to_nat f = Some pg → pin_count_ pg < INT32_MAX
  | _ => True
  end).
Proof.
  cbv zeta.
  split; [apply state_after_reachable; [apply valid_config_small; lia|
          vm_compute; eauto]|].
  refine (step_defined (state_after 2 1 0 [ONewPage]) ONewPage _).
  - apply state_after_reachable; [apply valid_config_small; lia|vm_compute;
    eauto].
Defined.

(** [UnpinPage(0, true)] on a pool of two frames holding page 0 pinned once. *)
Lemma UnpinPgImp_effect_witness :
  let s : BPMI := state_after 2 1 0 [ONewPage] in
  let p : Z := 0 in
  let d : bool := true in
  (reachable s) ∧
  (match page_table_ s !! p with
  | None => UnpinPgImp p d s = Some (false, s)
  | Some f =>
      ∃ pg s', 0 <= f ∧ pages_ s !! Z.to_nat f = Some pg ∧
        UnpinPgImp p d s = Some (bool_decide (0 < pin_count_ pg), s') ∧
        pages_ s'
          = <[Z.to_nat f := mkPage (data_ pg) p
                                   (Z.max 0 (pin_count_ pg - 1)) d]>
              (pages_ s) ∧
        evictable_frames s'
          = (if decide (pin_count_ pg = 1) then [f] else [])
            ++ evictable_frames s ∧
        new_calls s s'
          = (if decide (pin_count_ pg = 1) then [CUnpin f] else []) ∧
        page_table_ s' = page_table_ s ∧
        free_list_ s' = free_list_ s ∧
        disk_ s' = disk_ s ∧
        next_page_id_ s' = next_page_id_ s
  end).
Proof.
  cbv zeta.
  split; [apply state_after_reachable; [apply valid_config_small; lia|
          vm_compute; eauto]|].
  refine (UnpinPgImp_effect (state_after 2 1 0 [ONewPage]) 0 true _).
  - apply state_after_reachable; [apply valid_config_small; lia|vm_compute;
    eauto].
Defined.

(** [FetchPage(0)] on a pool of two frames holding page 0. *)
Lemma FetchPgImp_hit_effect_witness :
  let s : BPMI := state_after 2 1 0 [ONewPage] in
  let p : Z := 0 in
  let f : Z := 0 in
  (reachable s) ∧
  (page_table_ s !! p = Some f) ∧
  (∃ pg, 0 <= f ∧ pages_ s !! Z.to_nat f = Some pg ∧
    if decide (pin_count_ pg < INT32_MAX) then
      ∃ s', FetchPgImp p s = Some (Some f, s') ∧
        pages_ s'
          = <[Z.to_nat f := mkPage (data_ pg) p (pin_count_ pg + 1)
                                   (is_dirty_ pg)]> (pages_ s) ∧
        evictable_frames s' = filter (λ g, g ≠ f) (evictable_frames s) ∧
        new_calls s s' = [CPin f] ∧
        page_table_ s' = page_table_ s ∧
        free_list_ s' = free_list_ s ∧
        disk_ s' = disk_ s ∧
        next_page_id_ s' = next_page_id_ s
    else FetchPgImp p s = None).
Proof.
  cbv zeta.
  split; [apply state_after_reachable; [apply valid_config_small; lia|
          vm_compute; eauto]|].
  split; [vm_compute; reflexivity|].
  refine (FetchPgImp_hit_effect (state_after 2 1 0 [ONewPage]) 0 0 _ _).
  - apply state_after_reachable; [apply valid_config_small; lia|vm_compute;
    eauto].
  - vm_compute; reflexivity.
Defined.

(** [NewPage] evicting the dirty, unpinned page 0 of a pool of one frame. *)
Lemma NewPgImp_effect_witness :
  let s : BPMI := state_after 1 1 0 [ONewPage; OUnpinPage 0 true] in
  (reachable s) ∧
  (to_uint32 (next_page_id_ s) mod num_instances_ s = instance_index_ s) ∧
  (match frame_choice s with
  | None =>
      NewPgImp s = Some (None, advance s) ∧
      ∀ pg, pg ∈ pages_ s → 0 < pin_count_ pg
  | Some f =>
      ∃ pg s', 0 <= f ∧ pages_ s !! Z.to_nat f = Some pg ∧ pin_count_ pg = 0 ∧
        NewPgImp s = Some (Some (next_page_id_ s, f), s') ∧
        pages_ s'
          = <[Z.to_nat f := mkPage zero_data (next_page_id_ s) 1 false]>
              (pages_ s) ∧
        page_table_ s' = <[next_page_id_ s := f]> (eviction_table s pg) ∧
        free_list_ s' = tail (free_list_ s) ∧
        evictable_frames s' = filter (λ g, g ≠ f) (evictable_frames s) ∧
        disk_ s' = eviction_disk s pg ∧
        new_calls s s' = CPin f :: eviction_calls s pg ∧
        next_page_id_ s'
          = to_int32 (next_page_id_ s + num_instances_ s)
  end).
Proof.
  cbv zeta.
  split; [apply state_after_reachable; [apply valid_config_small; lia|
          vm_compute; eauto]|].
  split; [vm_compute; reflexivity|].
  refine (NewPgImp_effect
            (state_after 1 1 0 [ONewPage; OUnpinPage 0 true])
            _ _).
  - apply state_after_reachable; [apply valid_config_small; lia|vm_compute;
    eauto].
  - vm_compute; reflexivity.
Defined.

(** [FetchPage(5)] on a pool of one frame whose page 0 is dirty and unpinned. *)
Lemma FetchPgImp_miss_effect_witness :
  let s : BPMI := state_after 1 1 0 [ONewPage; OUnpinPage 0 true] in
  let p : Z := 5 in
  (reachable s) ∧
  (page_table_ s !! p = None) ∧
  (match frame_choice s with
  | None =>
      FetchPgImp p s = Some (None, s) ∧
      ∀ pg, pg ∈ pages_ s → 0 < pin_count_ pg
  | Some f =>
      ∃ pg s', 0 <= f ∧ pages_ s !! Z.to_nat f = Some pg ∧ pin_count_ pg = 0 ∧
        FetchPgImp p s = Some (Some f, s') ∧
        pages_ s'
          = <[Z.to_nat f :=
                mkPage (default zero_data (eviction_disk s pg !! p)) p 1 false]>
              (pages_ s) ∧
        page_table_ s' = <[p := f]> (eviction_table s pg) ∧
        free_list_ s' = tail (free_list_ s) ∧
        evictable_frames s' = filter (λ g, g ≠ f) (evictable_frames s) ∧
        disk_ s' = eviction_disk s pg ∧
        new_calls s s' = CPin f :: CReadPage p :: eviction_calls s pg ∧
        next_page_id_ s' = next_page_id_ s
  end).
Proof.
  cbv zeta.
  split; [apply state_after_reachable; [apply valid_config_small; lia|
          vm_compute; eauto]|].
  split; [vm_compute; reflexivity|].
  refine (FetchPgImp_miss_effect
            (state_after 1 1 0 [ONewPage; OUnpinPage 0 true])
            5
            _ _).
  - apply state_after_reachable; [apply valid_config_small; lia|vm_compute;
    eauto].
  - vm_compute; reflexivity.
Defined.

(** Page 0, pinned in frame 0 of a pool of two frames, across a [NewPage]. *)
Lemma pinned_page_stays_witness :
  let s : BPMI := state_after 2 1 0 [ONewPage] in
  let o : op := ONewPage in
  let s' : BPMI := state_after 2 1 0 [ONewPage; ONewPage] in
  let p : Z := 0 in
  let f : Z := 0 in
  let pg : Page := mkPage zero_data 0 1 false in
  (reachable_politely s) ∧
  (polite_op o s) ∧
  (step o s = Some s') ∧
  (page_table_ s !! p = Some f) ∧
  (pages_ s !! Z.to_nat f = Some pg) ∧
  (0 < pin_count_ pg) ∧
  (page_table_ s' !! p = Some f ∧
  ∃ pg', pages_ s' !! Z.to_nat f = Some pg' ∧
    data_ pg' = data_ pg ∧ page_id_ pg' = p ∧
    pin_count_ pg' = pin_count_ pg +
      match o with
      | OFetchPage q => if decide (q = p) then 1 else 0
      | OUnpinPage q _ => if decide (q = p) then -1 else 0
      | _ => 0
      end).
Proof.
  cbv zeta.
  split; [apply state_after_politely; [apply valid_config_small; lia|
          vm_compute; repeat split; discriminate|vm_compute; eauto]|].
  split; [by vm_compute|].
  split; [vm_compute; reflexivity|].
  split; [vm_compute; reflexivity|].
  split; [vm_compute; reflexivity|].
  split; [simpl; lia|].
  refine (pinned_page_stays
            (state_after 2 1 0 [ONewPage])
            ONewPage
            (state_after 2 1 0 [ONewPage; ONewPage])
            0
            0
            (mkPage zero_data 0 1 false)
            _ _ _ _ _ _).
  - apply state_after_politely; [apply valid_config_small; lia|vm_compute;
    repeat split; discriminate|vm_compute; eauto].
  - by vm_compute.
  - vm_compute; reflexivity.
  - vm_compute; reflexivity.
  - vm_compute; reflexivity.
  - simpl; lia.
Defined.


(** The dirty page 0 of a pool of one frame, evicted by [NewPage]. *)
Lemma dirty_page_round_trip_witness :
  let s : BPMI := state_after 1 1 0 [ONewPage; OUnpinPage 0 true] in
  let o : op := ONewPage in
  let s' : BPMI :=
    state_after 1 1 0 [ONewPage; OUnpinPage 0 true; ONewPage] in
  let p : Z := 0 in
  let f : Z := 0 in
  let pg : Page := mkPage zero_data 0 0 true in
  (reachable_politely s) ∧
  (polite_op o s) ∧
  (step o s = Some s') ∧
  (page_table_ s !! p = Some f) ∧
  (pages_ s !! Z.to_nat f = Some pg) ∧
  (is_dirty_ pg = true) ∧
  (page_table_ s' !! p = None) ∧
  (disk_ s' !! p = Some (data_ pg) ∧
  ∀ f2 s2, FetchPgImp p s' = Some (Some f2, s2) →
    pages_ s2 !! Z.to_nat f2 = Some (mkPage (data_ pg) p 1 false)).
Proof.
  cbv zeta.
  split; [apply state_after_politely; [apply valid_config_small; lia|
          vm_compute; repeat split; discriminate|vm_compute; eauto]|].
  split; [by vm_compute|].
  split; [vm_compute; reflexivity|].
  split; [vm_compute; reflexivity|].
  split; [vm_compute; reflexivity|].
  split; [reflexivity|].
  split; [vm_compute; reflexivity|].
  refine (dirty_page_round_trip
            (state_after 1 1 0 [ONewPage; OUnpinPage 0 true])
            ONewPage
            (state_after 1 1 0 [ONewPage; OUnpinPage 0 true; ONewPage])
            0
            0
            (mkPage zero_data 0 0 true)
            _ _ _ _ _ _ _).
  - apply state_after_politely; [apply valid_config_small; lia|vm_compute;
    repeat split; discriminate|vm_compute; eauto].
  - by vm_compute.
  - vm_compute; reflexivity.
  - vm_compute; reflexivity.
  - vm_compute; reflexivity.
  - reflexivity.
  - vm_compute; reflexivity.
Defined.

(** The second [NewPage] on a pool of two frames. *)
Lemma NewPgImp_fresh_id_witness :
  let s : BPMI := state_after 2 1 0 [ONewPage] in
  let pid : Z := 1 in
  let f : Z := 1 in
  let s' : BPMI := state_after 2 1 0 [ONewPage; ONewPage] in
  (reachable_politely s) ∧
  (NewPgImp s = Some (Some (pid, f), s')) ∧
  (page_table_ s !! pid = None ∧
  (∀ q g, page_table_ s !! q = Some g → q < pid) ∧
  page_table_ s' !! pid = Some f).
Proof.
  cbv zeta.
  split; [apply state_after_politely; [apply valid_config_small; lia|
          vm_compute; repeat split; discriminate|vm_compute; eauto]|].
  split; [vm_compute; reflexivity|].
  refine (NewPgImp_fresh_id
            (state_after 2 1 0 [ONewPage])
            1
            1
            (state_after 2 1 0 [ONewPage; ONewPage])
            _ _).
  - apply state_after_politely; [apply valid_config_small; lia|vm_compute;
    repeat split; discriminate|vm_compute; eauto].
  - vm_compute; reflexivity.
Defined.

(** Page 0, pinned once in a pool of two frames, unpinned and deleted. *)
Lemma unpin_all_then_delete_witness :
  let s : BPMI := state_after 2 1 0 [ONewPage] in
  let p : Z := 0 in
  let f : Z := 0 in
  let pg : Page := mkPage zero_data 0 1 false in
  let d : bool := true in
  (reachable s) ∧
  (page_table_ s !! p = Some f) ∧
  (pages_ s !! Z.to_nat f = Some pg) ∧
  (0 < pin_count_ pg) ∧
  (DeletePgImp p s = Some (false, s) ∧
  ∃ s1 s2,
    repeatM (Z.to_nat (pin_count_ pg)) (UnpinPgImp p d) s
    = Some (replicate (Z.to_nat (pin_count_ pg)) true, s1) ∧
    fst <$> UnpinPgImp p d s1 = Some false ∧
    DeletePgImp p s1 = Some (true, s2) ∧
    page_table_ s2 = delete p (page_table_ s) ∧
    free_list_ s2 = free_list_ s ++ [f] ∧
    pages_ s2 = <[Z.to_nat f := fresh_page]> (pages_ s) ∧
    disk_ s2 = (if d then <[p := data_ pg]> (disk_ s) else disk_ s) ∧
    f ∈ evictable_frames s2).
Proof.
  cbv zeta.
  split; [apply state_after_reachable; [apply valid_config_small; lia|
          vm_compute; eauto]|].
  split; [vm_compute; reflexivity|].
  split; [vm_compute; reflexivity|].
  split; [simpl; lia|].
  refine (unpin_all_then_delete
            (state_after 2 1 0 [ONewPage])
            0
            0
            (mkPage zero_data 0 1 false)
            true
            _ _ _ _).
  - apply state_after_reachable; [apply valid_config_small; lia|vm_compute;
    eauto].
  - vm_compute; reflexivity.
  - vm_compute; reflexivity.
  - simpl; lia.
Defined.

(** [NewPage] twice on a fresh pool of two frames. *)
Lemma NewPgImp_drains_free_list_witness :
  let s : BPMI := state_after 2 1 0 [] in
  (reachable s) ∧
  (0 <= next_page_id_ s) ∧
  (next_page_id_ s mod num_instances_ s = instance_index_ s) ∧
  (next_page_id_ s + Z.of_nat (length (free_list_ s)) * num_instances_ s <= INT32_MAX) ∧
  (∃ s', repeatM (length (free_list_ s)) NewPgImp s
        = Some (imap (λ j g, Some (next_page_id_ s
                                   + Z.of_nat j * num_instances_ s, g))
                     (free_list_ s), s') ∧
    free_list_ s' = [] ∧
    next_page_id_ s'
    = next_page_id_ s
      + Z.of_nat (length (free_list_ s)) * num_instances_ s ∧
    disk_ s' = disk_ s ∧
    (∀ j g, free_list_ s !! j = Some g →
       pages_ s' !! Z.to_nat g
       = Some (mkPage zero_data
                 (next_page_id_ s + Z.of_nat j * num_instances_ s) 1 false)) ∧
    (∀ i, Z.of_nat i ∉ free_list_ s → pages_ s' !! i = pages_ s !! i)).
Proof.
  cbv zeta.
  split; [apply state_after_reachable; [apply valid_config_small; lia|
          vm_compute; eauto]|].
  split; [by vm_compute|].
  split; [vm_compute; reflexivity|].
  split; [by vm_compute|].
  refine (NewPgImp_drains_free_list (state_after 2 1 0 []) _ _ _ _).
  - apply state_after_reachable; [apply valid_config_small; lia|vm_compute;
    eauto].
  - by vm_compute.
  - vm_compute; reflexivity.
  - by vm_compute.
Defined.

(** A fresh pool of two frames, filled. *)
Lemma fresh_pool_fills_witness :
  let pool_size : nat := 2%nat in
  let num_instances : Z := 1 in
  let instance_index : Z := 0 in
  let disk : gmap Z (list byte) := ∅ in
  let s0 : BPMI := state_after 2 1 0 [] in
  (valid_config pool_size num_instances instance_index) ∧
  (create pool_size num_instances instance_index disk = Some s0) ∧
  (instance_index + Z.of_nat pool_size * num_instances <= INT32_MAX) ∧
  (∃ s', repeatM pool_size NewPgImp s0
        = Some ((λ j, Some (instance_index + Z.of_nat j * num_instances,
                            Z.of_nat j)) <$> seq 0 pool_size, s') ∧
    (∀ j, (j < pool_size)%nat →
       pages_ s' !! j
       = Some (mkPage zero_data (instance_index + Z.of_nat j * num_instances)
                      1 false)) ∧
    free_list_ s' = [] ∧ evictable_frames s' = [] ∧
    NewPgImp s' = Some (None, advance s') ∧
    (∀ p, page_table_ s' !! p = None → FetchPgImp p s' = Some (None, s'))).
Proof.
  cbv zeta.
  split; [apply valid_config_small; lia|].
  split; [vm_compute; reflexivity|].
  split; [by vm_compute|].
  refine (fresh_pool_fills 2%nat 1 0 ∅ (state_after 2 1 0 []) _ _ _).
  - apply valid_config_small; lia.
  - vm_compute; reflexivity.
  - by vm_compute.
Defined.

(** The counter of a fresh pool after [NewPage; UnpinPage(0, false)]. *)
Lemma counter_counts_NewPage_calls_witness :
  let ops : list op := [ONewPage; OUnpinPage 0 false] in
  let s : BPMI := state_after 2 1 0 [] in
  let s' : BPMI := state_after 2 1 0 [ONewPage; OUnpinPage 0 false] in
  (reachable s) ∧
  (along room_op ops s) ∧
  (run ops s = Some s') ∧
  (next_page_id_ s'
  = next_page_id_ s + Z.of_nat (new_page_calls ops) * num_instances_ s ∧
  pool_size_ s' = pool_size_ s ∧
  num_instances_ s' = num_instances_ s ∧
  instance_index_ s' = instance_index_ s).
Proof.
  cbv zeta.
  split; [apply state_after_reachable; [apply valid_config_small; lia|
          vm_compute; eauto]|].
  split; [vm_compute; repeat split; discriminate|].
  split; [vm_compute; reflexivity|].
  refine (counter_counts_NewPage_calls
            ([ONewPage; OUnpinPage 0 false])
            (state_after 2 1 0 [])
            (state_after 2 1 0 [ONewPage; OUnpinPage 0 false])
            _ _ _).
  - apply state_after_reachable; [apply valid_config_small; lia|vm_compute;
    eauto].
  - vm_compute; repeat split; discriminate.
  - vm_compute; reflexivity.
Defined.

(** [DeletePage(0)] then [NewPage] on a pool of one frame whose page 0 is unpinned. *)
Lemma delete_then_new_reuses_frame_witness :
  let s : BPMI := state_after 1 1 0 [ONewPage; OUnpinPage 0 true] in
  let p : Z := 0 in
  let f : Z := 0 in
  let pg : Page := mkPage zero_data 0 0 true in
  (reachable s) ∧
  (to_uint32 (next_page_id_ s) mod num_instances_ s = instance_index_ s) ∧
  (free_list_ s = []) ∧
  (page_table_ s !! p = Some f) ∧
  (pages_ s !! Z.to_nat f = Some pg) ∧
  (pin_count_ pg = 0) ∧
  ((f ∈ evictable_frames s) ∧
  ∃ s1 s2, DeletePgImp p s = Some (true, s1) ∧
    free_list_ s1 = [f] ∧ evictable_frames s1 = evictable_frames s ∧
    NewPgImp s1 = Some (Some (next_page_id_ s, f), s2) ∧
    new_calls s1 s2 = [CPin f] ∧
    free_list_ s2 = [] ∧
    evictable_frames s2 = filter (λ g, g ≠ f) (evictable_frames s) ∧
    page_table_ s2 = <[next_page_id_ s := f]> (delete p (page_table_ s)) ∧
    pages_ s2
    = <[Z.to_nat f := mkPage zero_data (next_page_id_ s) 1 false]> (pages_ s)).
Proof.
  cbv zeta.
  split; [apply state_after_reachable; [apply valid_config_small; lia|
          vm_compute; eauto]|].
  split; [vm_compute; reflexivity|].
  split; [vm_compute; reflexivity|].
  split; [vm_compute; reflexivity|].
  split; [vm_compute; reflexivity|].
  split; [reflexivity|].
  refine (delete_then_new_reuses_frame
            (state_after 1 1 0 [ONewPage; OUnpinPage 0 true])
            0
            0
            (mkPage zero_data 0 0 true)
            _ _ _ _ _ _).
  - apply state_after_reachable; [apply valid_config_small; lia|vm_compute;
    eauto].
  - vm_compute; reflexivity.
  - vm_compute; reflexivity.
  - vm_compute; reflexivity.
  - vm_compute; reflexivity.
  - reflexivity.
Defined.

End more_witnesses.
